(** * stuffer: LSB steganography over RGB(A) pixel grids

    A shallow embedding of the Go sources of stuffer (bitwriter.go, the
    image byte writer, the encode/decode pipeline and the RSA tail builder)
    together with proofs about the pixel carrier, the plain envelope and the
    seeded shuffle.

    Conventions.
    - Go [int] is the 64-bit two's complement integer; it is modelled by [Z],
      and the products that could leave the range are wrapped ([int64]).
    - A [byte] is a [Z] in [0, 256); [bytes_ok] states the range for buffers.
    - A Go panic is the outcome [Panic]; a returned [error] is [Err].
    - The collaborators the program imports (SHA-256, the pseudo-random
      generator of math/rand, AES-GCM, RSA, the clock) are outside the
      repository.  SHA-256 is modelled after FIPS 180-4; the others are
      interfaces ([RandSource], [Crypto]) with the contract the Go
      documentation gives them. *)

From Stdlib Require Import ZArith List Lia Bool String Ascii.
From stdpp Require Import base list.
Import ListNotations.
Local Open Scope Z_scope.

(* ===================================================================== *)
(** ** Outcomes of Go calls *)
(* ===================================================================== *)

(** The error values the modelled functions return (one per message). *)
Inductive error : Type :=
| ErrExpectedRGB            (* "expected a RGB image" / "expected a RGBA image" *)
| EOF                       (* io.EOF *)
| ErrUnexpectedEOF          (* io.ErrUnexpectedEOF *)
| ErrUnknownWhence          (* "unknown seek whence" *)
| ErrInvalidDataSize        (* "invalid data size: %d" *)
| ErrCapacityTooSmall       (* "image capacity is too small. ..." *)
| ErrLengthZero             (* "data length is zero" *)
| ErrLengthTooLarge         (* "length is too large: %d > %d" *)
| ErrHashVerification       (* "data hash verification failed" *)
| ErrHashCheck              (* "hash check failed (%x)" *)
| ErrWriteImage (n : Z) (e : error)  (* "failed to write hidden data to the image ..." *)
| ErrAESTooLarge            (* "AES128 encrypted data is of size ..." *)
| ErrRSASize                (* "RSA data is of size %d, not of expected size %d" *)
| ErrWrongHashLength        (* "wrong hash length, expected ..." *)
| ErrDataLengthTooHigh      (* "length of data %d is higher than ..." *)
| ErrCollaborator           (* an error reported by a collaborator: key file,
                               random source, cipher set-up, RSA, AES-GCM open *).

Inductive result (A : Type) : Type :=
| Ok (a : A)
| Err (e : error)
| Panic
| Unfinished   (* the loop bound of the model was reached *).
Arguments Ok {A} a.
Arguments Err {A} e.
Arguments Panic {A}.
Arguments Unfinished {A}.

(** Sequencing: an error or a panic ends the call ([x ← r; k]). *)
#[global] Instance result_bind : MBind result := fun A B k r =>
  match r with
  | Ok a => k a
  | Err e => Err e
  | Panic => Panic
  | Unfinished => Unfinished
  end.
#[global] Instance result_ret : MRet result := fun A a => Ok a.

(* ===================================================================== *)
(** ** Bytes, slices and big-endian integers *)
(* ===================================================================== *)

Definition int64_wrap (z : Z) : Z := (z + 2 ^ 63) mod 2 ^ 64 - 2 ^ 63.
Definition uint32_wrap (z : Z) : Z := z mod 2 ^ 32.

Definition is_byte (b : Z) : bool := (0 <=? b) && (b <? 256).
Definition bytes_ok (l : list Z) : bool := forallb is_byte l.

(** [s[lo:hi]] on a slice whose capacity is its length; out of range panics. *)
Definition slice {A} (l : list A) (lo hi : Z) : result (list A) :=
  if (0 <=? lo) && (lo <=? hi) && (hi <=? Z.of_nat (length l))
  then Ok (firstn (Z.to_nat (hi - lo)) (skipn (Z.to_nat lo) l))
  else Panic.

(** [copy(dst[at:], src)] for [src] that fits: the bytes of [dst] from
    [at] on are overwritten by [src]. *)
Definition copy_at {A} (dst : list A) (at_ : nat) (src : list A) : list A :=
  firstn at_ dst ++ firstn (length dst - at_) src
    ++ skipn (at_ + length src) dst.

(** binary.BigEndian *)
Definition be_bytes (n : nat) (v : Z) : list Z :=
  map (fun k => (v / 2 ^ (8 * Z.of_nat k)) mod 256) (rev (seq 0 n)).
Definition be_value (l : list Z) : Z :=
  fold_left (fun acc b => acc * 256 + b) l 0.

Definition PutUint32 (v : Z) : list Z := be_bytes 4 v.
Definition PutUint64 (v : Z) : list Z := be_bytes 8 v.
Definition Uint32 (l : list Z) : result Z :=
  if (4 <=? length l)%nat then Ok (be_value (firstn 4 l)) else Panic.
Definition Uint64 (l : list Z) : result Z :=
  if (8 <=? length l)%nat then Ok (be_value (firstn 8 l)) else Panic.

Definition bytes_of_string (s : string) : list Z :=
  map (fun a => Z.of_N (N_of_ascii a)) (list_ascii_of_string s).

(* ===================================================================== *)
(** ** SHA-256 (crypto/sha256.Sum256), after FIPS 180-4 *)
(* ===================================================================== *)

Module sha256.

Definition Size : Z := 32.

Definition w32 (z : Z) : Z := z mod 2 ^ 32.
Definition rotr (n x : Z) : Z :=
  Z.lor (Z.shiftr x n) (w32 (Z.shiftl x (32 - n))).
Definition xor3 (a b c : Z) : Z := Z.lxor a (Z.lxor b c).

Definition Ch (x y z : Z) : Z :=
  Z.lxor (Z.land x y) (Z.land (Z.lxor x (2 ^ 32 - 1)) z).
Definition Maj (x y z : Z) : Z :=
  xor3 (Z.land x y) (Z.land x z) (Z.land y z).
Definition Sigma0 x := xor3 (rotr 2 x) (rotr 13 x) (rotr 22 x).
Definition Sigma1 x := xor3 (rotr 6 x) (rotr 11 x) (rotr 25 x).
Definition sigma0 x := xor3 (rotr 7 x) (rotr 18 x) (Z.shiftr x 3).
Definition sigma1 x := xor3 (rotr 17 x) (rotr 19 x) (Z.shiftr x 10).

(** The round constants are the first 32 bits of the fractional parts of
    the cube roots of the first 64 primes, the initial state those of the
    square roots of the first 8. *)
Fixpoint cbrt_bits (b : nat) (r n : Z) : Z :=
  match b with
  | O => r
  | S b' =>
      let r' := r + 2 ^ Z.of_nat b' in
      cbrt_bits b' (if r' * r' * r' <=? n then r' else r) n
  end.

Definition is_prime (p : Z) : bool :=
  forallb (fun d => negb (p mod d =? 0))
          (map Z.of_nat (seq 2 (Z.to_nat (p - 2)))).

Definition primes64 : list Z :=
  Eval vm_compute in
    filter is_prime (map Z.of_nat (seq 2 310)).

Definition K : list Z :=
  Eval vm_compute in
    map (fun p => w32 (cbrt_bits 40 0 (p * 2 ^ 96))) primes64.

Definition H0 : list Z :=
  Eval vm_compute in
    map (fun p => w32 (Z.sqrt (p * 2 ^ 64))) (firstn 8 primes64).

(** Padding: 0x80, zeros up to 56 mod 64, the bit length on 8 bytes. *)
Definition pad (msg : list Z) : list Z :=
  let n := Z.of_nat (length msg) in
  msg ++ [128] ++ repeat 0 (Z.to_nat ((55 - n) mod 64)) ++ be_bytes 8 (8 * n).

Fixpoint words (n : nat) (l : list Z) : list Z :=
  match n with
  | O => []
  | S n' => be_value (firstn 4 l) :: words n' (skipn 4 l)
  end.

(** The message schedule, kept newest first while it is extended. *)
Fixpoint schedule (n : nat) (rw : list Z) : list Z :=
  match n with
  | O => rev rw
  | S n' =>
      let w := w32 (sigma1 (nth 1 rw 0) + nth 6 rw 0
                    + sigma0 (nth 14 rw 0) + nth 15 rw 0) in
      schedule n' (w :: rw)
  end.

Record state : Type := mkState
  { sa : Z; sb : Z; sc : Z; sd : Z; se : Z; sf : Z; sg : Z; sh : Z }.

Definition round (s : state) (kw : Z * Z) : state :=
  let t1 := sh s + Sigma1 (se s) + Ch (se s) (sf s) (sg s) + fst kw + snd kw in
  let t2 := Sigma0 (sa s) + Maj (sa s) (sb s) (sc s) in
  mkState (w32 (t1 + t2)) (sa s) (sb s) (sc s)
          (w32 (sd s + t1)) (se s) (sf s) (sg s).

Definition compress (s : state) (block : list Z) : state :=
  let w := schedule 48 (rev (words 16 block)) in
  let t := fold_left round (combine K w) s in
  mkState (w32 (sa s + sa t)) (w32 (sb s + sb t)) (w32 (sc s + sc t))
          (w32 (sd s + sd t)) (w32 (se s + se t)) (w32 (sf s + sf t))
          (w32 (sg s + sg t)) (w32 (sh s + sh t)).

Fixpoint blocks (n : nat) (s : state) (l : list Z) : state :=
  match n with
  | O => s
  | S n' => blocks n' (compress s (firstn 64 l)) (skipn 64 l)
  end.

Definition init : state :=
  mkState (nth 0 H0 0) (nth 1 H0 0) (nth 2 H0 0) (nth 3 H0 0)
          (nth 4 H0 0) (nth 5 H0 0) (nth 6 H0 0) (nth 7 H0 0).

Definition digest (s : state) : list Z :=
  be_bytes 4 (sa s) ++ be_bytes 4 (sb s) ++ be_bytes 4 (sc s)
    ++ be_bytes 4 (sd s) ++ be_bytes 4 (se s) ++ be_bytes 4 (sf s)
    ++ be_bytes 4 (sg s) ++ be_bytes 4 (sh s).

Definition Sum256 (msg : list Z) : list Z :=
  let p := pad msg in
  digest (blocks (length p / 64) init p).

End sha256.

(* ===================================================================== *)
(** ** bitwriter.go *)
(* ===================================================================== *)

Module bitwriter.

(** [inner] is the sink; the program only ever passes a bytes.Buffer, whose
    Write appends and returns a nil error, so the sink is the list of the
    bytes written to it and WriteBit and Flush cannot fail. *)
Record BitWriter : Type := mkBitWriter
  { inner : list Z; currentByte : Z; currentPos : Z }.

Definition NewBitWriter (inner : list Z) : BitWriter := mkBitWriter inner 0 0.

Definition Flush (bw : BitWriter) : BitWriter :=
  mkBitWriter (inner bw ++ [currentByte bw]) 0 0.

(** [1 << bw.currentPos] is a byte: it wraps at 8 bits. *)
Definition WriteBit (bw : BitWriter) (bit : bool) : BitWriter :=
  let cb := if bit
            then Z.lor (currentByte bw) (Z.shiftl 1 (currentPos bw) mod 256)
            else currentByte bw in
  let pos := currentPos bw + 1 in
  if 8 <=? pos then Flush (mkBitWriter (inner bw) cb pos)
  else mkBitWriter (inner bw) cb pos.

End bitwriter.

(* ===================================================================== *)
(** ** The pixel grid (image/color and image of the Go library) *)
(* ===================================================================== *)

Module color.

(** The fields of color.RGBA and of color.NRGBA. *)
Record channels : Type := mkChannels { R : Z; G : Z; B : Z; A : Z }.

(** A color.Color by its dynamic type; [Other] stands for every colour
    type the program does not support. *)
Inductive Color : Type :=
| RGBA (c : channels)
| NRGBA (c : channels)
| Other.

Inductive Model : Type := RGBAModel | NRGBAModel | OtherModel.

(** Model.Convert for the two supported models.  A colour of the model's
    own type is returned as it is; the program never converts another. *)
Definition premultiply (v a : Z) : Z := ((v * 257 * a) / 255) / 256 mod 256.
Definition unmultiply (v a : Z) : Z :=
  ((v * 257 * 65535) / (a * 257)) / 256 mod 256.

Definition Convert (m : Model) (c : Color) : option channels :=
  match m, c with
  | RGBAModel, RGBA ch => Some ch
  | NRGBAModel, NRGBA ch => Some ch
  | RGBAModel, NRGBA ch =>
      Some (mkChannels (premultiply (R ch) (A ch)) (premultiply (G ch) (A ch))
                       (premultiply (B ch) (A ch)) (A ch))
  | NRGBAModel, RGBA ch =>
      if A ch =? 255 then Some (mkChannels (R ch) (G ch) (B ch) 255)
      else if A ch =? 0 then Some (mkChannels 0 0 0 0)
      else Some (mkChannels (unmultiply (R ch) (A ch)) (unmultiply (G ch) (A ch))
                            (unmultiply (B ch) (A ch)) (A ch))
  | _, _ => None
  end.

End color.

Module image.

(** An *image.RGBA or *image.NRGBA whose bounds start at (0, 0): the pixels
    in row-major order, [Dx * Dy] of them.  An image of another colour model
    keeps its pixels opaque: the program rejects it before reading any. *)
Record Image : Type := mkImage
  { ColorModel : color.Model; Dx : Z; Dy : Z; Pix : list color.channels }.

Definition inside (im : Image) (x y : Z) : bool :=
  (0 <=? x) && (x <? Dx im) && (0 <=? y) && (y <? Dy im).

Definition PixOffset (im : Image) (x y : Z) : nat := Z.to_nat (y * Dx im + x).

Definition zero : color.channels := color.mkChannels 0 0 0 0.

(** Outside the bounds At returns the zero colour. *)
Definition At (im : Image) (x y : Z) : color.Color :=
  let ch := if inside im x y then nth (PixOffset im x y) (Pix im) zero
            else zero in
  match ColorModel im with
  | color.RGBAModel => color.RGBA ch
  | color.NRGBAModel => color.NRGBA ch
  | color.OtherModel => color.Other
  end.

(** Outside the bounds Set does nothing. *)
Definition Set_ (im : Image) (x y : Z) (c : color.Color) : Image :=
  if inside im x y then
    match color.Convert (ColorModel im) c with
    | Some ch =>
        mkImage (ColorModel im) (Dx im) (Dy im)
                (<[PixOffset im x y := ch]> (Pix im))
    | None => im
    end
  else im.

End image.

(* ===================================================================== *)
(** ** The pixel carrier: ImageByteWriter and GetHiddenBytesFromImage *)
(* ===================================================================== *)

Import color image.

(** [for i := 0; i < n; i++] runs over [zrange n]. *)
Definition zrange (n : Z) : list Z := map Z.of_nat (seq 0 (Z.to_nat n)).

Fixpoint foldM {S A : Type} (f : S -> A -> result S) (l : list A) (s : S)
  : result S :=
  match l with
  | [] => Ok s
  | a :: l' => s' ← f s a; foldM f l' s'
  end.

(** embed a bit into a byte (set last bit to the value) *)
Definition bitEmbed (b : Z) (bit : bool) : Z :=
  if bit then Z.lor b 1 else Z.land b 254.

Definition colorToRGBA (col : Color) : result channels :=
  match col with
  | RGBA c => Ok c
  | NRGBA c => Ok (mkChannels (R c) (G c) (B c) (A c))
  | Other => Panic
  end.

Definition embedChannels (c : channels) (pos : Z) (bit : bool) : channels :=
  if pos =? 0 then mkChannels (bitEmbed (R c) bit) (G c) (B c) (A c)
  else if pos =? 1 then mkChannels (R c) (bitEmbed (G c) bit) (B c) (A c)
  else if pos =? 2 then mkChannels (R c) (G c) (bitEmbed (B c) bit) (A c)
  else (* "Invalid color pos" on stderr *) mkChannels (R c) (G c) (B c) (A c).

Definition colorEmbed (col : Color) (pos : Z) (bit : bool) : result Color :=
  match col with
  | RGBA c => Ok (RGBA (embedChannels c pos bit))
  | NRGBA c => Ok (NRGBA (embedChannels c pos bit))
  | Other => Panic
  end.

Record ImageByteWriter : Type := mkImageByteWriter
  { im : Image;
    currentX : Z;
    currentY : Z;
    currentRGB : Z;
    currentByte : Z;
    w : Z;
    h : Z;
    capacity : Z }.

Definition supported (m : Model) : bool :=
  match m with
  | RGBAModel | NRGBAModel => true
  | OtherModel => false
  end.

Definition NewImageByteWriter (i : Image) : result ImageByteWriter :=
  if negb (supported (ColorModel i)) then Err ErrExpectedRGB
  else
    let w := Dx i in
    let h := Dy i in
    Ok (mkImageByteWriter i 0 0 0 0 w h (Z.quot (int64_wrap (w * h * 3)) 8)).

Definition increment (ibw : ImageByteWriter) : ImageByteWriter * bool :=
  if h ibw <=? currentY ibw then (ibw, true)
  else
    let rgb := currentRGB ibw + 1 in
    if 2 <? rgb then
      let x := currentX ibw + 1 in
      if w ibw <=? x then
        (mkImageByteWriter (im ibw) 0 (currentY ibw + 1) 0 (currentByte ibw)
                           (w ibw) (h ibw) (capacity ibw), false)
      else
        (mkImageByteWriter (im ibw) x (currentY ibw) 0 (currentByte ibw)
                           (w ibw) (h ibw) (capacity ibw), false)
    else
      (mkImageByteWriter (im ibw) (currentX ibw) (currentY ibw) rgb
                         (currentByte ibw) (w ibw) (h ibw) (capacity ibw), false).

(** The body of writeByte's loop, for the remaining values of [i]. *)
Fixpoint writeBits (todo : list Z) (ibw : ImageByteWriter) (data : Z)
  : result (ImageByteWriter * option error) :=
  match todo with
  | [] => Ok (ibw, None)
  | i :: rest =>
      let bit := negb (Z.land data (Z.shiftl 1 i) =? 0) in
      let c := At (im ibw) (currentX ibw) (currentY ibw) in
      c' ← colorEmbed c (currentRGB ibw) bit;
      let ibw1 :=
        mkImageByteWriter (Set_ (im ibw) (currentX ibw) (currentY ibw) c')
                          (currentX ibw) (currentY ibw) (currentRGB ibw)
                          (currentByte ibw) (w ibw) (h ibw) (capacity ibw) in
      let '(ibw2, stop) := increment ibw1 in
      if stop then Ok (ibw2, Some ErrUnexpectedEOF)
      else writeBits rest ibw2 data
  end.

Definition writeByte (ibw : ImageByteWriter) (data : Z)
  : result (ImageByteWriter * option error) :=
  if capacity ibw <=? currentByte ibw then Ok (ibw, Some ErrUnexpectedEOF)
  else writeBits (zrange 8) ibw data.

(** The loop of Write over the (already truncated) data, from index [i]. *)
Fixpoint writeBytes (i : Z) (data : list Z) (ibw : ImageByteWriter)
  : result (ImageByteWriter * (Z * option error)) :=
  match data with
  | [] => Ok (ibw, (i, None))
  | b :: rest =>
      r ← writeByte ibw b;
      match snd r with
      | Some e2 => Ok (fst r, (i, Some e2))
      | None =>
          let ibw1 := fst r in
          writeBytes (i + 1) rest
            (mkImageByteWriter (im ibw1) (currentX ibw1) (currentY ibw1)
               (currentRGB ibw1) (currentByte ibw1 + 1) (w ibw1) (h ibw1)
               (capacity ibw1))
      end
  end.

(** Write returns the writer after the call, the count and the error. *)
Definition Write (ibw : ImageByteWriter) (data : list Z)
  : result (ImageByteWriter * (Z * option error)) :=
  let room := capacity ibw - currentByte ibw in
  cut ← (if room <? Z.of_nat (length data)
         then d ← slice data 0 room; Ok (Some EOF, d)
         else Ok (None, data));
  r ← writeBytes 0 (snd cut) ibw;
  match snd (snd r) with
  | Some e2 => Ok r
  | None => Ok (fst r, (Z.of_nat (length (snd cut)), fst cut))
  end.

(** finalpos = ((y * w) + x) * 3 + rgb *)
Definition setBitPos (ibw : ImageByteWriter) (bitpos : Z)
  : result (ImageByteWriter * option error) :=
  let bitpos := if bitpos <? 0 then 0 else bitpos in
  if w ibw =? 0 then Panic (* integer divide by zero *)
  else
    let rgb := Z.rem bitpos 3 in
    let bitpos := Z.quot bitpos 3 in
    let x := Z.rem bitpos (w ibw) in
    let bitpos := Z.quot bitpos (w ibw) in
    if h ibw <=? bitpos then
      Ok (mkImageByteWriter (im ibw) 0 (h ibw) 0 (currentByte ibw)
                            (w ibw) (h ibw) (capacity ibw), Some EOF)
    else
      Ok (mkImageByteWriter (im ibw) x bitpos rgb (currentByte ibw)
                            (w ibw) (h ibw) (capacity ibw), None).

Definition BitPos (ibw : ImageByteWriter) : Z :=
  int64_wrap ((currentY ibw * w ibw + currentX ibw) * 3 + currentRGB ibw).

Definition SeekStart : Z := 0.
Definition SeekCurrent : Z := 1.
Definition SeekEnd : Z := 2.

Definition Seek (ibw : ImageByteWriter) (offset whence : Z)
  : result (ImageByteWriter * (Z * option error)) :=
  match (if whence =? SeekCurrent then Some (Z.quot (BitPos ibw) 8)
         else if whence =? SeekStart then Some 0
         else if whence =? SeekEnd then Some (capacity ibw)
         else None) with
  | None => Ok (ibw, (-1, Some ErrUnknownWhence))
  | Some currentPos =>
      let currentPos := int64_wrap (currentPos + offset) in
      r ← setBitPos ibw (int64_wrap (currentPos * 8));
      Ok (fst r, (Z.quot (BitPos (fst r)) 8, snd r))
  end.

Definition Capacity (ibw : ImageByteWriter) : Z := capacity ibw.

Definition lsb (v : Z) : bool := negb (Z.land v 1 =? 0).

(** The body of the two loops of GetHiddenBytesFromImage at pixel (i, j). *)
Definition readPixel (i0 : Image) (j : Z) (bw : bitwriter.BitWriter) (i : Z)
  : result bitwriter.BitWriter :=
  c ← colorToRGBA (At i0 i j);
  let bw := bitwriter.WriteBit bw (lsb (R c)) in
  let bw := bitwriter.WriteBit bw (lsb (G c)) in
  let bw := bitwriter.WriteBit bw (lsb (B c)) in
  Ok bw.

Definition GetHiddenBytesFromImage (i0 : Image) : result (list Z) :=
  if negb (supported (ColorModel i0)) then Err ErrExpectedRGB
  else
    let bw := bitwriter.NewBitWriter [] in
    bw' ← foldM (fun bw j => foldM (readPixel i0 j) (zrange (Dx i0)) bw)
                (zrange (Dy i0)) bw;
    Ok (bitwriter.inner bw').

(* ===================================================================== *)
(** ** math/rand: the generator and Shuffle *)
(* ===================================================================== *)

Module rand.

(** The generator of math/rand, by the contract of its documentation:
    [New seed] is [rand.New(rand.NewSource(seed))], and the two draws
    return a number of [0, n) together with the advanced generator. *)
Class RandSource : Type :=
  { Rand : Type;
    New : Z -> Rand;
    Int63n : Rand -> Z -> Z * Rand;
    int31n : Rand -> Z -> Z * Rand;
    Int63n_range : forall r n, 0 < n -> 0 <= fst (Int63n r n) < n;
    int31n_range : forall r n, 0 < n -> 0 <= fst (int31n r n) < n }.

(** The draw Shuffle makes at index [i]: Int63n in its first loop
    ([i > 1<<31-1-1]), int31n in its second. *)
Definition draw `{RS : RandSource} (r : Rand) (i : nat) : Z * Rand :=
  if 2 ^ 31 - 1 - 1 <? Z.of_nat i then Int63n r (Z.of_nat i + 1)
  else int31n r (Z.of_nat i + 1).

(** Shuffle's loops: [i] runs down to 1, and [swap(i, j)] is called with
    [j] drawn from [0, i].  [swap] acts on the variables it captures. *)
Fixpoint shuffleFrom `{RS : RandSource} {St : Type} (i : nat) (r : Rand)
    (swap : nat -> nat -> St -> result St) (s : St) : result St :=
  match i with
  | O => Ok s
  | S i' =>
      let jr := draw r i in
      s' ← swap i (Z.to_nat (fst jr)) s;
      shuffleFrom i' (snd jr) swap s'
  end.

Definition Shuffle `{RS : RandSource} {St : Type} (r : Rand) (n : nat)
    (swap : nat -> nat -> St -> result St) (s : St) : result St :=
  shuffleFrom (n - 1) r swap s.

End rand.

(* ===================================================================== *)
(** ** The program: seeded shuffle, envelopes, encodeImage, decodeImage *)
(* ===================================================================== *)

Import rand.

Definition HASH_SIZE : Z := sha256.Size.
Definition FSIZE_LEN : Z := 4.
Definition TIMESTAMP_LEN : Z := 8.
Definition RSA_SIZE : Z := 256.

Record Program : Type := mkProgram
  { verbose : bool;
    doHash : bool;
    decode : bool;
    shuffleSeed : string;
    inputImage : string;
    dataFile : string;
    outputImage : string;
    keyFile : string }.

Definition len {A} (l : list A) : Z := Z.of_nat (length l).

(** [s[i]]; out of range panics. *)
Definition index {A} (l : list A) (i : nat) : result A :=
  match l !! i with
  | Some a => Ok a
  | None => Panic
  end.

(** [s[i], s[j] = s[j], s[i]] *)
Definition swapAt {A} (i j : nat) (l : list A) : result (list A) :=
  match l !! i, l !! j with
  | Some a, Some b => Ok (<[j := a]> (<[i := b]> l))
  | _, _ => Panic
  end.

(** [int64(binary.BigEndian.Uint64(passwordHash[(i * 8) : (i*8)+8]))] *)
Definition roundSeed (passwordHash : list Z) (i : Z) : result Z :=
  s ← slice passwordHash (i * 8) (i * 8 + 8);
  u ← Uint64 s;
  Ok (int64_wrap u).

(** The four rounds, as encodeImage runs them on hiddenData and decodeImage
    on indexes. *)
Definition shuffleRounds `{RS : RandSource} {A} (seed : string) (l : list A)
  : result (list A) :=
  let passwordHash := sha256.Sum256 (bytes_of_string seed) in
  foldM (fun l i =>
           seed ← roundSeed passwordHash i;
           let r := New seed in
           Shuffle r (length l) swapAt l)
        (zrange 4) l.

(** The inner loop of the restoring pass of decodeImage.  It ends when
    [newidx = oldidx]; [fuel] bounds its iterations in the model, and
    [Unfinished] is the outcome of a loop that would still be running. *)
Fixpoint cycleSwaps (fuel : nat) (newidx oldidx : nat)
    (hiddenData : list Z) (indexes : list nat)
  : result (list Z * list nat) :=
  if (newidx =? oldidx)%nat then Ok (hiddenData, indexes)
  else
    match fuel with
    | O => Unfinished
    | S fuel' =>
        hiddenData' ← swapAt newidx oldidx hiddenData;
        indexes' ← swapAt newidx oldidx indexes;
        oldidx' ← index indexes' newidx;
        cycleSwaps fuel' newidx oldidx' hiddenData' indexes'
    end.

(** [for newidx, oldidx := range indexes]: [oldidx] is read when the
    iteration starts. *)
Definition restoreStep (fuel : nat) (st : list Z * list nat) (newidx : nat)
  : result (list Z * list nat) :=
  oldidx ← index (snd st) newidx;
  cycleSwaps fuel newidx oldidx (fst st) (snd st).

Definition restoreOrder (fuel : nat) (hiddenData : list Z)
    (indexes : list nat) : result (list Z * list nat) :=
  foldM (restoreStep fuel) (seq 0 (length indexes)) (hiddenData, indexes).

(** The unshuffle of decodeImage.  The bound given to the inner loop is
    the length of the buffer ([restoreOrder_ok] shows that it is never
    reached after a replay of the rounds). *)
Definition unshuffle `{RS : RandSource} (seed : string) (hiddenData : list Z)
  : result (list Z) :=
  let indexes := seq 0 (length hiddenData) in
  indexes ← shuffleRounds seed indexes;
  st ← restoreOrder (length hiddenData) hiddenData indexes;
  Ok (fst st).

(** *** The collaborators of the encrypted mode *)

(** crypto/rand, crypto/aes, crypto/cipher, crypto/rsa, the key files and
    the clock.  [randomKey] and [randomNonce] are the two reads of
    rand.Reader; [gcmSeal key nonce data] is the ciphertext with its tag. *)
Class Crypto : Type :=
  { PublicKey : Type;
    PrivateKey : Type;
    LoadRSAPublicKey : string -> result PublicKey;
    LoadRSAPrivateKey : string -> result PrivateKey;
    randomKey : result (list Z);
    randomNonce : result (list Z);
    now : Z;
    gcmSeal : list Z -> list Z -> list Z -> list Z;
    gcmOpen : list Z -> list Z -> list Z -> result (list Z);
    EncryptPKCS1v15 : PublicKey -> list Z -> result (list Z);
    DecryptPKCS1v15 : PrivateKey -> list Z -> result (list Z);
    randomKey_length : forall k, randomKey = Ok k -> length k = 32%nat;
    randomNonce_length : forall n, randomNonce = Ok n -> length n = 12%nat }.

(** gcm.Overhead() and gcm.NonceSize() of the standard GCM. *)
Definition gcmOverhead : Z := 16.
Definition gcmNonceSize : Z := 12.

Definition calculateRSAOverhead : result Z := Ok gcmOverhead.

Record EncryptedImageInformation : Type := mkInfo
  { timestamp : Z; extension : list Z; length_ : Z; hash : list Z }.

(** tail of the data will look like this:
    [key, nonce, timestamp, extension, length, hash] *)

(** encryptDataWithRSA from the random key up to the plaintext of the
    tail: the sealed data, rsaData, and hashAndLength as the call leaves it
    (it is a slice of the caller's hiddenData, and its first four bytes are
    overwritten).  aes.NewCipher on a 32-byte key and cipher.NewGCM do not
    fail; gcm.Seal(nonce, nonce, data, nil) appends to the nonce. *)
Definition sealAndTail `{CR : Crypto} (data : list Z) (extension : string)
    (hashAndLength : list Z) : result (list Z * (list Z * list Z)) :=
  aesKey ← randomKey;
  nonce ← randomNonce;
  let resultAndNonce := nonce ++ gcmSeal aesKey nonce data in
  aesNonce ← slice resultAndNonce 0 gcmNonceSize;
  aesResult ← slice resultAndNonce gcmNonceSize (len resultAndNonce);
  _ ← slice hashAndLength 0 4;
  let hashAndLength :=
    copy_at hashAndLength 0 (PutUint32 (uint32_wrap (len aesResult))) in
  let extensionByte := copy_at (repeat 0 16) 0 (bytes_of_string extension) in
  let timestampByte := PutUint64 (now mod 2 ^ 64) in
  let rsaData :=
    aesKey ++ aesNonce ++ timestampByte ++ extensionByte ++ hashAndLength in
  Ok (aesResult, (rsaData, hashAndLength)).

Definition encryptDataWithRSA `{CR : Crypto} (rsaKey : string) (data : list Z)
    (extension : string) (hashAndLength : list Z)
  : result (list Z * (list Z * list Z)) :=
  rsaPub ← LoadRSAPublicKey rsaKey;
  t ← sealAndTail data extension hashAndLength;
  encrypted ← EncryptPKCS1v15 rsaPub (fst (snd t));
  Ok (fst t, (encrypted, snd (snd t))).

(** The tail the RSA primitive returns is taken to have no spare
    capacity, so that slicing it past its length panics. *)
Definition decryptDataWithRSA `{CR : Crypto} (rsaKey : string)
    (dataBlock tailBlock : list Z)
  : result (list Z * EncryptedImageInformation) :=
  rsaPriv ← LoadRSAPrivateKey rsaKey;
  tail ← DecryptPKCS1v15 rsaPriv tailBlock;
  aesKey ← slice tail 0 32;
  let nonceSize := gcmNonceSize in
  nonce ← slice tail 32 (32 + nonceSize);
  timetampBytes ← slice tail (nonceSize + 32) (nonceSize + 40);
  extensionBytes ← slice tail (nonceSize + 40) (nonceSize + 56);
  lengthBytes ← slice tail (nonceSize + 56) (nonceSize + 60);
  hash ← slice tail (nonceSize + 60) (len tail);
  if negb (len hash =? 32) then Err ErrWrongHashLength
  else
    dataLength ← Uint32 lengthBytes;
    if uint32_wrap (len dataBlock) <? dataLength then Err ErrDataLengthTooHigh
    else
      ts ← Uint64 timetampBytes;
      let info := mkInfo (int64_wrap ts) extensionBytes dataLength hash in
      sealed ← slice dataBlock 0 dataLength;
      plainData ← gcmOpen aesKey nonce sealed;
      Ok (plainData, info).

(** *** encodeImage *)

Definition nonempty (s : string) : bool := negb (String.eqb s "").

(** The copy of the payload, the length and the hash, as encodeImage
    writes them into hiddenData. *)
Definition fillEnvelope (p : Program) (hiddenData data : list Z)
  : result (list Z) :=
  let sz := len data in
  _ ← slice hiddenData 0 sz;
  let hiddenData := copy_at hiddenData 0 data in
  let sizePos := len hiddenData - HASH_SIZE - FSIZE_LEN in
  _ ← slice hiddenData sizePos (sizePos + FSIZE_LEN);
  let hiddenData :=
    copy_at hiddenData (Z.to_nat sizePos) (PutUint32 (uint32_wrap sz)) in
  if doHash p then
    let hashPos := len hiddenData - HASH_SIZE in
    payload ← slice hiddenData 0 sz;
    let checksum := sha256.Sum256 payload in
    _ ← slice hiddenData hashPos (len hiddenData);
    Ok (copy_at hiddenData (Z.to_nat hashPos) checksum)
  else Ok hiddenData.

(** encodeImage up to the hash: the size checks, the extraction of the
    carrier bytes, then the payload, the length and the hash. *)
Definition buildEnvelope (p : Program) (i0 : Image) (data : list Z)
  : result (ImageByteWriter * list Z) :=
  ibw ← NewImageByteWriter i0;
  let sz := len data in
  if (sz <? 0) || (2 ^ 32 - 1 <? sz) then Err ErrInvalidDataSize
  else
    required ← (if nonempty (keyFile p)
                then overhead ← calculateRSAOverhead;
                     Ok (sz + overhead + RSA_SIZE)
                else Ok (sz + HASH_SIZE + FSIZE_LEN));
    if Capacity ibw <? required then Err ErrCapacityTooSmall
    else
      hiddenData ← GetHiddenBytesFromImage i0;
      hiddenData ← fillEnvelope p hiddenData data;
      Ok (ibw, hiddenData).

(** The encryption step of encodeImage. *)
Definition encryptEnvelope `{CR : Crypto} (p : Program) (extension : string)
    (sz : Z) (hiddenData : list Z) : result (list Z) :=
  let sizePos := len hiddenData - HASH_SIZE - FSIZE_LEN in
  payload ← slice hiddenData 0 sz;
  hashAndLength ← slice hiddenData sizePos (len hiddenData);
  t ← encryptDataWithRSA (keyFile p) payload extension hashAndLength;
  let encdata := fst t in
  let enctail := fst (snd t) in
  let hiddenData := copy_at hiddenData (Z.to_nat sizePos) (snd (snd t)) in
  if sz + gcmOverhead <? len encdata then Err ErrAESTooLarge
  else if negb (len enctail =? RSA_SIZE) then Err ErrRSASize
  else
    _ ← slice hiddenData 0 (len encdata);
    let hiddenData := copy_at hiddenData 0 encdata in
    _ ← slice hiddenData (len hiddenData - RSA_SIZE) (len hiddenData);
    Ok (copy_at hiddenData (Z.to_nat (len hiddenData - RSA_SIZE)) enctail).

(** encodeImage returns the image as the call leaves it.  Every image of
    the model has Set, so the assertion to WritableImage holds; where the
    source wraps a callee's error in a message, the callee's error is
    returned as it is. *)
Definition encodeImage `{RS : RandSource} `{CR : Crypto} (p : Program) (i0 : Image)
    (extension : string) (data : list Z) : result Image :=
  e ← buildEnvelope p i0 data;
  let ibw := fst e in
  hiddenData ← (if nonempty (keyFile p)
                then encryptEnvelope p extension (len data) (snd e)
                else Ok (snd e));
  hiddenData ← (if nonempty (shuffleSeed p)
                then shuffleRounds (shuffleSeed p) hiddenData
                else Ok hiddenData);
  r ← Write ibw hiddenData;
  match snd (snd r) with
  | Some err => Err (ErrWriteImage (fst (snd r)) err)
  | None => Ok (im (fst r))
  end.

(** *** decodeImage *)

(** The plain branch of decodeImage, on the unshuffled buffer. *)
Definition parsePlain (p : Program) (hiddenData : list Z) : result (list Z) :=
  let lenStart := len hiddenData - HASH_SIZE - FSIZE_LEN in
  field ← slice hiddenData lenStart (lenStart + FSIZE_LEN);
  dataLength ← Uint32 field;
  if dataLength =? 0 then Err ErrLengthZero
  else if uint32_wrap lenStart <? dataLength then Err ErrLengthTooLarge
  else
    _ ← (if doHash p then
           covered ← slice hiddenData 0 dataLength;
           let checksum := sha256.Sum256 covered in
           let hashStart := len hiddenData - HASH_SIZE in
           stored ← slice hiddenData hashStart (len hiddenData);
           if bool_decide (checksum = stored) then Ok tt
           else Err ErrHashVerification
         else Ok tt);
    slice hiddenData 0 dataLength.

(** The encrypted branch of decodeImage. *)
Definition parseEncrypted `{CR : Crypto} (p : Program) (hiddenData : list Z)
  : result (list Z) :=
  let pos := len hiddenData - RSA_SIZE in
  dataBlock ← slice hiddenData 0 pos;
  tailBlock ← slice hiddenData pos (len hiddenData);
  t ← decryptDataWithRSA (keyFile p) dataBlock tailBlock;
  let plainData := fst t in
  if doHash p then
    let hashCmp := sha256.Sum256 plainData in
    if bool_decide (hash (snd t) = hashCmp) then Ok plainData
    else Err ErrHashCheck
  else Ok plainData.

(** decodeImage returns the bytes it writes to [data]. *)
Definition decodeImage `{RS : RandSource} `{CR : Crypto} (p : Program) (i0 : Image)
  : result (list Z) :=
  hiddenData ← GetHiddenBytesFromImage i0;
  hiddenData ← (if nonempty (shuffleSeed p)
                then unshuffle (shuffleSeed p) hiddenData
                else Ok hiddenData);
  if nonempty (keyFile p) then parseEncrypted p hiddenData
  else parsePlain p hiddenData.

(** *** The command line and the files: ProgramFromArgs, run, main *)

(** The files the program sees: a path has contents or does not exist. *)
Definition Files : Type := string -> option (list Z).

(** os.Create followed by writes of [bytes]: the path holds [bytes]. *)
Definition writeFile (fs : Files) (path : string) (bytes : list Z) : Files :=
  fun q => if String.eqb q path then Some bytes else fs q.

(** The collaborators of run.  [imageDecode] is image.Decode on the bytes
    of a file (with the PNG decoder, the only one the program registers);
    [pngEncode] gives the bytes png.Encode writes and the error it returns;
    [creatable] tells whether os.Create of a path succeeds; [fileWrite]
    gives, for the Write of the given bytes to the created file of a
    path, the number of bytes it stored and the error it returns; [Ext]
    is filepath.Ext.  os.Open succeeds on the paths that exist. *)
Class Codec : Type :=
  { imageDecode : list Z -> result Image;
    pngEncode : Image -> list Z * option error;
    creatable : string -> bool;
    fileWrite : string -> list Z -> nat * option error;
    Ext : string -> string }.

(** The flags and positional arguments after flag.Parse. *)
Record Flags : Type := mkFlags
  { flag_v : bool;
    flag_nh : bool;
    flag_d : bool;
    flag_ss : string;
    flag_k : string;
    Args : list string }.

(** ProgramFromArgs; [None] is os.Exit(1) after the usage message. *)
Definition ProgramFromArgs (f : Flags) : option Program :=
  let doHash := negb (flag_nh f) in
  if flag_d f then
    match Args f with
    | [a0; a1] =>
        Some (mkProgram (flag_v f) doHash true (flag_ss f) a0 a1 "" (flag_k f))
    | _ => None
    end
  else
    match Args f with
    | [a0; a1; a2] =>
        Some (mkProgram (flag_v f) doHash false (flag_ss f) a0 a1 a2 (flag_k f))
    | _ => None
    end.

(** runEncode returns the files as the call leaves them and its error.
    The input image and the data file are read before the output is
    created; an error that wraps a callee's error is the callee's. *)
Definition runEncode `{RS : RandSource} `{CR : Crypto} `{CD : Codec}
    (p : Program) (fs : Files) : Files * result unit :=
  match fs (inputImage p) with
  | None => (fs, Err ErrCollaborator)
  | Some imageBytes =>
      match fs (dataFile p) with
      | None => (fs, Err ErrCollaborator)
      | Some data =>
          match imageDecode imageBytes with
          | Ok im0 =>
              match encodeImage p im0 (Ext (dataFile p)) data with
              | Ok im1 =>
                  if creatable (outputImage p) then
                    (writeFile fs (outputImage p) (fst (pngEncode im1)),
                     match snd (pngEncode im1) with
                     | Some _ => Err ErrCollaborator
                     | None => Ok tt
                     end)
                  else (fs, Err ErrCollaborator)
              | Err e => (fs, Err e)
              | Panic => (fs, Panic)
              | Unfinished => (fs, Unfinished)
              end
          | Err _ => (fs, Err ErrCollaborator)
          | Panic => (fs, Panic)
          | Unfinished => (fs, Unfinished)
          end
      end
  end.

(** runDecode creates the data file before it decodes the image, which
    it reads through the handle opened first: the bytes it decodes are
    those the path of the input image holds after the creation.  The
    bytes decodeImage hands to data.Write go through [fileWrite]: the
    file keeps the bytes that were stored, and an error of the Write is
    the error of the run. *)
Definition runDecode `{RS : RandSource} `{CR : Crypto} `{CD : Codec}
    (p : Program) (fs : Files) : Files * result unit :=
  match fs (inputImage p) with
  | None => (fs, Err ErrCollaborator)
  | Some _ =>
      if creatable (dataFile p) then
        (let fs1 := writeFile fs (dataFile p) [] in
         match fs1 (inputImage p) with
        | None => (fs1, Err ErrCollaborator)
        | Some imageBytes =>
            match imageDecode imageBytes with
            | Ok im0 =>
                match decodeImage p im0 with
                | Ok plainData =>
                    let w := fileWrite (dataFile p) plainData in
                    (writeFile fs1 (dataFile p) (take (fst w) plainData),
                     match snd w with
                     | Some _ => Err ErrCollaborator
                     | None => Ok tt
                     end)
                | Err e => (fs1, Err e)
                | Panic => (fs1, Panic)
                | Unfinished => (fs1, Unfinished)
                end
            | Err _ => (fs1, Err ErrCollaborator)
            | Panic => (fs1, Panic)
            | Unfinished => (fs1, Unfinished)
            end
        end)
      else (fs, Err ErrCollaborator)
  end.

Definition run `{RS : RandSource} `{CR : Crypto} `{CD : Codec}
    (p : Program) (fs : Files) : Files * result unit :=
  if decode p then runDecode p fs else runEncode p fs.

(** main returns the files and the exit status: 0, 1 for a usage error or
    an error of run, 2 for a panic. *)
Definition main `{RS : RandSource} `{CR : Crypto} `{CD : Codec}
    (f : Flags) (fs : Files) : Files * result Z :=
  match ProgramFromArgs f with
  | None => (fs, Ok 1)
  | Some p =>
      let r := run p fs in
      (fst r,
       match snd r with
       | Ok _ => Ok 0
       | Err _ => Ok 1
       | Panic => Ok 2
       | Unfinished => Unfinished
       end)
  end.

(* ===================================================================== *)
(** ** Reference collaborators for concrete runs *)
(* ===================================================================== *)

Module reference.

(** A linear congruential generator standing for math/rand in concrete
    runs; every statement that names no instance holds for every
    generator that meets the contract. *)
Definition lcg_next (r : Z) : Z :=
  (r * 6364136223846793005 + 1442695040888963407) mod 2 ^ 63.
Definition lcg_draw (r n : Z) : Z * Z :=
  ((lcg_next r / 2 ^ 16) mod n, lcg_next r).

#[export] Instance lcg : RandSource :=
  {| Rand := Z;
     New := fun seed => seed mod 2 ^ 63;
     Int63n := lcg_draw;
     int31n := lcg_draw;
     Int63n_range := fun r n H => Z.mod_pos_bound (lcg_next r / 2 ^ 16) n H;
     int31n_range := fun r n H => Z.mod_pos_bound (lcg_next r / 2 ^ 16) n H |}.

(** Stand-ins for the ciphers: sealing appends a 16-byte tag, the RSA
    step pads the tail plaintext to 256 bytes. *)
Definition toy_key : list Z := map Z.of_nat (seq 1 32).
Definition toy_nonce : list Z := map Z.of_nat (seq 101 12).

Definition ok_length (r : result (list Z)) (d : nat) : nat :=
  match r with
  | Ok l => length l
  | _ => d
  end.

#[export] Instance toy_crypto : Crypto :=
  {| PublicKey := unit;
     PrivateKey := unit;
     LoadRSAPublicKey := fun _ => Ok tt;
     LoadRSAPrivateKey := fun _ => Ok tt;
     randomKey := Ok toy_key;
     randomNonce := Ok toy_nonce;
     now := 1700000000;
     gcmSeal := fun _ _ data => data ++ repeat 0 16;
     gcmOpen := fun _ _ sealed => Ok (firstn (length sealed - 16) sealed);
     EncryptPKCS1v15 := fun _ m => Ok (m ++ repeat 0 (256 - length m));
     DecryptPKCS1v15 := fun _ c => Ok (firstn 104 c);
     randomKey_length := fun k H =>
       f_equal (fun r => ok_length r 32) (eq_sym H);
     randomNonce_length := fun n H =>
       f_equal (fun r => ok_length r 12) (eq_sym H) |}.

End reference.

Import reference.

(* ===================================================================== *)
(** ** Vocabulary of the statements *)
(* ===================================================================== *)

(** The bits writeByte takes from [data], in the order it writes them. *)
Definition byte_bits (data : Z) : list bool :=
  map (fun i => negb (Z.land data (Z.shiftl 1 i) =? 0)) (zrange 8).

(** Feeding a list of bits to a BitWriter. *)
Definition feed (bw : bitwriter.BitWriter) (bits : list bool)
  : bitwriter.BitWriter :=
  fold_left bitwriter.WriteBit bits bw.

(** A supported carrier: one of the two colour models, [Dx * Dy] pixels,
    and a size that Go can hold ([w * h * 3] is an int). *)
Definition wf_image (i0 : Image) : Prop :=
  supported (ColorModel i0) = true /\
  0 <= Dx i0 /\ 0 <= Dy i0 /\
  len (Pix i0) = Dx i0 * Dy i0 /\
  Dx i0 * Dy i0 * 3 < 2 ^ 63.

Definition chan_bits (c : channels) : list bool :=
  [lsb (R c); lsb (G c); lsb (B c)].

(** The least significant bits of R, G, B of every pixel, row by row. *)
Definition lsb_stream (i0 : Image) : list bool := flat_map chan_bits (Pix i0).

(** The bit position of the cursor: finalpos = ((y * w) + x) * 3 + rgb. *)
Definition cursor (ibw : ImageByteWriter) : Z :=
  (currentY ibw * w ibw + currentX ibw) * 3 + currentRGB ibw.

Definition cursor_ok (ibw : ImageByteWriter) : Prop :=
  w ibw = Dx (im ibw) /\ h ibw = Dy (im ibw) /\
  0 <= currentRGB ibw < 3 /\
  (0 <= currentX ibw /\ (currentX ibw < w ibw \/ w ibw = 0)) /\
  0 <= currentY ibw.

(** A writer whose cursor stands where its byte count says: the state of
    a writer that has only been written to since NewImageByteWriter. *)
Definition in_sync (ibw : ImageByteWriter) : Prop :=
  wf_image (im ibw) /\ cursor_ok ibw /\
  cursor ibw = 8 * currentByte ibw /\
  0 <= currentByte ibw <= capacity ibw /\
  capacity ibw = (3 * w ibw * h ibw) / 8.

(** The channels of a stored pixel are uint8 values. *)
Definition pixel_ok (c : channels) : bool :=
  is_byte (R c) && is_byte (G c) && is_byte (B c) && is_byte (A c).

(** The seven bits above the least significant one. *)
Definition upper7 (v : Z) : Z := Z.shiftr v 1.

(** [idx] tells where each element of [data] came from in [orig]. *)
Definition tracks {A} (orig data : list A) (idx : list nat) : Prop :=
  length data = length orig /\ length idx = length orig /\
  forall k, data !! k = idx !! k ≫= (orig !!.).

(** [idx] holds numbers below [n], each at most once. *)
Definition injective_below (n : nat) (idx : list nat) : Prop :=
  (forall k v, idx !! k = Some v -> (v < n)%nat) /\
  (forall k1 k2 v, idx !! k1 = Some v -> idx !! k2 = Some v -> k1 = k2).

(** The entries of [l], numbered from [off], that are not at their own
    number. *)
Fixpoint misplaced (off : nat) (l : list nat) : nat :=
  match l with
  | [] => 0
  | v :: l' => ((if decide (v = off) then 0 else 1) + misplaced (S off) l')%nat
  end.

(** The four 8-byte words of a 32-byte hash, most significant byte first. *)
Definition words64 (hash : list Z) : list Z :=
  [be_value (take 8 hash); be_value (take 8 (drop 8 hash));
   be_value (take 8 (drop 16 hash)); be_value (take 8 (drop 24 hash))].

(** One round of the loop over [i] in shuffleRounds. *)
Definition shuffleRound `{RS : RandSource} {A} (hash : list Z) (l : list A) (i : Z)
  : result (list A) :=
  seed ← roundSeed hash i;
  Shuffle (New seed) (length l) swapAt l.


(** The swaps of one pass of Shuffle that starts at index [i]: the index
    runs down to 1 and each partner is the next draw of the generator. *)
Fixpoint passSwaps `{RS : RandSource} (i : nat) (r : Rand) : list (nat * nat) :=
  match i with
  | O => []
  | S i' => (i, Z.to_nat (fst (draw r i))) :: passSwaps i' (snd (draw r i))
  end.

Definition applySwaps {A} (t : list (nat * nat)) (l : list A)
  : result (list A) :=
  foldM (fun l p => swapAt (fst p) (snd p) l) t l.

(** The envelope of a plain encode, as [buildEnvelope_layout] gives it. *)
Definition plainEnvelope (p : Program) (carrier data : list Z) : list Z :=
  let cap := len carrier in
  data ++ take (Z.to_nat (cap - 36 - len data)) (drop (length data) carrier)
       ++ PutUint32 (len data)
       ++ (if doHash p then sha256.Sum256 data
           else drop (Z.to_nat (cap - 32)) carrier).

(** The 4-byte big-endian length field at offset capacity - 36. *)
Definition lengthField (buf : list Z) : Z :=
  be_value (take 4 (drop (Z.to_nat (len buf - 36)) buf)).

(** The plaintext encodeImage hands to the RSA encryption: rsaData of
    encryptDataWithRSA, called by the encryption step on the envelope. *)
Definition tailPlaintext `{CR : Crypto} (p : Program) (i0 : Image)
    (extension : string) (data : list Z) : result (list Z) :=
  e ← buildEnvelope p i0 data;
  let hiddenData := snd e in
  let sizePos := len hiddenData - HASH_SIZE - FSIZE_LEN in
  payload ← slice hiddenData 0 (len data);
  hashAndLength ← slice hiddenData sizePos (len hiddenData);
  _ ← LoadRSAPublicKey (keyFile p);
  t ← sealAndTail payload extension hashAndLength;
  Ok (fst (snd t)).

(** The accumulator holds bytes and a position below 8. *)
Definition acc_ok (bw : bitwriter.BitWriter) : Prop :=
  bytes_ok (bitwriter.inner bw) = true /\
  0 <= bitwriter.currentByte bw < 256 /\
  0 <= bitwriter.currentPos bw < 8.

(** The number whose bit [i] is the [i]-th entry of [bits]. *)
Fixpoint bits_value (bits : list bool) : Z :=
  match bits with
  | [] => 0
  | b :: rest => Z.b2z b + 2 * bits_value rest
  end.

(** [i1] is [i0] up to the least significant bit of R, G and B: the same
    model and bounds, and pixel by pixel the same alpha and the same upper
    seven bits of the three colour channels. *)
Definition same_but_lsb (i0 i1 : Image) : Prop :=
  ColorModel i1 = ColorModel i0 /\ Dx i1 = Dx i0 /\ Dy i1 = Dy i0 /\
  length (Pix i1) = length (Pix i0) /\
  forall k o n, Pix i0 !! k = Some o -> Pix i1 !! k = Some n ->
    A n = A o /\
    upper7 (R n) = upper7 (R o) /\ upper7 (G n) = upper7 (G o) /\
    upper7 (B n) = upper7 (B o).

(** The buffer of length [n] that holds [x] at position [v] for every
    pair [(v, x)] of [ps] (and zero elsewhere). *)
Definition place (n : nat) (ps : list (nat * Z)) : list Z :=
  foldr (fun p o => <[fst p := snd p]> o) (repeat 0 n) ps.

(** The buffer decodeImage parses: the hidden bytes of the image, put
    back in order when a seed is set. *)
Definition decodeBuffer `{RS : RandSource} (p : Program) (i0 : Image)
  : result (list Z) :=
  hiddenData ← GetHiddenBytesFromImage i0;
  if nonempty (shuffleSeed p) then unshuffle (shuffleSeed p) hiddenData
  else Ok hiddenData.

(* ===================================================================== *)
(** ** Concrete inputs *)
(* ===================================================================== *)

(** SHA-256("abc") *)
Definition hex_abc : list Z :=
  [0xba;0x78;0x16;0xbf;0x8f;0x01;0xcf;0xea;0x41;0x41;0x40;0xde;0x5d;0xae;0x22;0x23;
   0xb0;0x03;0x61;0xa3;0x96;0x17;0x7a;0x9c;0xb4;0x10;0xff;0x61;0xf2;0x00;0x15;0xad].

Definition img_3x1 : Image :=
  mkImage RGBAModel 3 1
    [mkChannels 10 20 30 255; mkChannels 11 21 31 255;
     mkChannels 12 22 33 255].

Definition img_4x4 : Image :=
  mkImage RGBAModel 4 4 (repeat (mkChannels 0 0 0 255) 16).

Definition img_8x1 (v : Z) : Image :=
  mkImage NRGBAModel 8 1 (repeat (mkChannels v v v 255) 8).

Definition img_n (n v : Z) : Image :=
  mkImage RGBAModel n 1 (repeat (mkChannels v v v 255) (Z.to_nat n)).

Definition ibw_3x1 : ImageByteWriter := mkImageByteWriter img_3x1 0 0 0 0 3 1 1.

(** The same writer with its cursor on the last bit of the image. *)
Definition ibw_3x1_last : ImageByteWriter :=
  mkImageByteWriter img_3x1 2 0 2 0 3 1 1.

Definition buf_accept : list Z :=
  [1; 2; 3; 4] ++ PutUint32 4 ++ repeat 0 32.

Definition plain (hashing : bool) (seed : string) : Program :=
  mkProgram false hashing false seed "" "" "" "".

Definition keyed (hashing : bool) : Program :=
  mkProgram false hashing false "" "" "" "" "public_key.pem".

(** The image a plain encode of the one-byte payload "A" with hashing
    makes of [img_n 99 7]. *)
Definition img_encoded : Image :=
  Eval vm_compute in
    match encodeImage (RS := lcg) (CR := toy_crypto)
            (plain true "") (img_n 99 7) ".txt" [65] with
    | Ok i1 => i1
    | _ => img_n 99 7
    end.

(** The image an encode with a key file and hashing makes of
    [img_n 728 7] for the payload "A", with the stand-in ciphers. *)
Definition img_encoded_keyed : Image :=
  Eval vm_compute in
    match encodeImage (RS := lcg) (CR := toy_crypto)
            (keyed true) (img_n 728 7) ".txt" [65] with
    | Ok i1 => i1
    | _ => img_n 728 7
    end.

(** Collaborators whose RSA key gives 128-byte blocks (a 1024-bit key). *)
Definition short_block_crypto : Crypto :=
  {| PublicKey := unit;
     PrivateKey := unit;
     LoadRSAPublicKey := fun _ => Ok tt;
     LoadRSAPrivateKey := fun _ => Ok tt;
     randomKey := Ok toy_key;
     randomNonce := Ok toy_nonce;
     now := 1700000000;
     gcmSeal := fun _ _ data => data ++ repeat 0 16;
     gcmOpen := fun _ _ sealed => Ok (firstn (length sealed - 16) sealed);
     EncryptPKCS1v15 := fun _ m => Ok (m ++ repeat 0 (128 - length m));
     DecryptPKCS1v15 := fun _ c => Ok (firstn 104 c);
     randomKey_length := fun k H =>
       f_equal (fun r => ok_length r 32) (eq_sym H);
     randomNonce_length := fun n H =>
       f_equal (fun r => ok_length r 12) (eq_sym H) |}.

(** A stand-in for the PNG codec: the colour model, the bounds and the
    four channels of every pixel, one number each.  Every path can be
    created and every file has the extension ".bin". *)
Definition model_code (m : Model) : Z :=
  match m with RGBAModel => 0 | NRGBAModel => 1 | OtherModel => 2 end.

Definition model_of (z : Z) : Model :=
  if z =? 0 then RGBAModel else if z =? 1 then NRGBAModel else OtherModel.

Definition pixel_numbers (c : channels) : list Z := [R c; G c; B c; A c].

Fixpoint pixels_of (n : nat) (l : list Z) : list channels :=
  match n, l with
  | S n', r :: g :: b :: a :: rest => mkChannels r g b a :: pixels_of n' rest
  | _, _ => []
  end.

Definition toy_encode (i : Image) : list Z :=
  model_code (ColorModel i) :: Dx i :: Dy i :: flat_map pixel_numbers (Pix i).

Definition toy_decode (l : list Z) : result Image :=
  match l with
  | m :: dx :: dy :: rest =>
      Ok (mkImage (model_of m) dx dy (pixels_of (length rest) rest))
  | _ => Err ErrCollaborator
  end.

Definition toy_codec : Codec :=
  {| imageDecode := toy_decode;
     pngEncode := fun i => (toy_encode i, None);
     creatable := fun _ => true;
     fileWrite := fun _ bytes => (length bytes, None);
     Ext := fun _ => ".bin"%string |}.

(** The same codec on a full disk: a Write stores one byte and fails. *)
Definition short_write_codec : Codec :=
  {| imageDecode := toy_decode;
     pngEncode := fun i => (toy_encode i, None);
     creatable := fun _ => true;
     fileWrite := fun _ _ => (1%nat, Some ErrCollaborator);
     Ext := fun _ => ".bin"%string |}.

(** Files for the runs: a carrier image, a payload, an image too small to
    hold an envelope, and notes that a decode is asked to overwrite. *)
Definition sample_files : Files :=
  fun q =>
    if String.eqb q "in.png" then Some (toy_encode (img_n 110 7))
    else if String.eqb q "data.bin" then Some [72; 105; 33]
    else if String.eqb q "small.png" then Some (toy_encode img_3x1)
    else if String.eqb q "notes.txt" then Some [1; 2; 3]
    else None.

Definition flags_encode : Flags :=
  mkFlags false false false "abc" ""
    ["in.png"%string; "data.bin"%string; "out.png"%string].

Definition flags_decode : Flags :=
  mkFlags false false true "abc" "" ["out.png"%string; "copy.bin"%string].

Definition decode_small : Program :=
  mkProgram false true true "" "small.png" "notes.txt" "" "".

(** An image of a colour model the program does not support. *)
Definition img_other : Image := mkImage OtherModel 2 2 [].

(** Collaborators for a run in which no key file can be read. *)
Definition no_key_crypto : Crypto :=
  {| PublicKey := unit;
     PrivateKey := unit;
     LoadRSAPublicKey := fun _ => Err ErrCollaborator;
     LoadRSAPrivateKey := fun _ => Err ErrCollaborator;
     randomKey := Ok toy_key;
     randomNonce := Ok toy_nonce;
     now := 1700000000;
     gcmSeal := fun _ _ data => data ++ repeat 0 16;
     gcmOpen := fun _ _ sealed => Ok (firstn (length sealed - 16) sealed);
     EncryptPKCS1v15 := fun _ m => Ok (m ++ repeat 0 (256 - length m));
     DecryptPKCS1v15 := fun _ c => Ok (firstn 104 c);
     randomKey_length := fun k H =>
       f_equal (fun r => ok_length r 32) (eq_sym H);
     randomNonce_length := fun n H =>
       f_equal (fun r => ok_length r 12) (eq_sym H) |}.

(** After a Seek the cursor is no longer where the byte count says: here
    one byte of room is left and two are asked for, and Write returns 0
    with io.ErrUnexpectedEOF. *)
Definition seek_then_write : result (Z * (Z * option error)) :=
  ibw ← NewImageByteWriter img_3x1;
  s ← Seek ibw 0 SeekEnd;
  r ← Write (fst s) [170; 85];
  Ok (capacity (fst s) - currentByte (fst s), snd r).

(* ===================================================================== *)
(** ** Runs of the model on concrete inputs *)
(* ===================================================================== *)

Example sha_abc : sha256.Sum256 (bytes_of_string "abc") = hex_abc.
Proof. vm_compute. reflexivity. Qed.

Example ex_extract : GetHiddenBytesFromImage img_3x1 = Ok [56].
Proof. vm_compute. reflexivity. Qed.

Example ex_write :
  (ibw ← NewImageByteWriter (img_8x1 6);
   r ← Write ibw [1;2;255;77];
   b ← GetHiddenBytesFromImage (im (fst r));
   Ok (b, snd r)) = Ok ([1;2;255], (3, Some EOF)).
Proof. vm_compute. reflexivity. Qed.

(** A 4x4 image holds 6 bytes: a payload of one byte does not fit. *)
Example ex_capacity_too_small :
  encodeImage (RS := lcg) (CR := toy_crypto) (plain true "") img_4x4 ".bin" [65]
  = Err ErrCapacityTooSmall.
Proof. vm_compute. reflexivity. Qed.

(** Shuffling [0,1,2,3,4] with seed "abc", then unshuffling. *)
Example ex_shuffle_abc :
  (x ← shuffleRounds (RS := lcg) "abc" [0; 1; 2; 3; 4];
   unshuffle (RS := lcg) "abc" x) = Ok [0; 1; 2; 3; 4].
Proof. vm_compute. reflexivity. Qed.

(* ===================================================================== *)
(** ** Bits of a byte and the bit accumulator *)
(* ===================================================================== *)

Section BitAccumulator.

Import bitwriter.

Lemma feed_app bw l1 l2 : feed bw (l1 ++ l2) = feed (feed bw l1) l2.
Proof. unfold feed. apply fold_left_app. Qed.

Lemma WriteBit_pos bw b :
  0 <= currentPos bw < 8 ->
  0 <= currentPos (WriteBit bw b) < 8.
Proof.
  intros Hp. unfold WriteBit.
  destruct (8 <=? currentPos bw + 1) eqn:E; simpl; lia.
Qed.

Lemma WriteBit_length bw b :
  0 <= currentPos bw < 8 ->
  len (inner (WriteBit bw b)) * 8 + currentPos (WriteBit bw b)
  = len (inner bw) * 8 + currentPos bw + 1.
Proof.
  intros Hp. unfold WriteBit, len.
  destruct (8 <=? currentPos bw + 1) eqn:E; simpl.
  - rewrite length_app. simpl. lia.
  - lia.
Qed.

Lemma feed_length bits : forall bw,
  0 <= currentPos bw < 8 ->
  0 <= currentPos (feed bw bits) < 8 /\
  len (inner (feed bw bits)) * 8 + currentPos (feed bw bits)
  = len (inner bw) * 8 + currentPos bw + len bits.
Proof.
  induction bits as [|b bits IH]; intros bw Hp.
  - unfold len; simpl. lia.
  - change (feed bw (b :: bits)) with (feed (WriteBit bw b) bits).
    destruct (IH (WriteBit bw b) (WriteBit_pos bw b Hp)) as [H1 H2].
    split; [exact H1|]. rewrite H2, (WriteBit_length bw b Hp).
    unfold len; simpl length. lia.
Qed.

(** The bytes already in the sink stay in front. *)
Lemma WriteBit_prefix pre bw b :
  WriteBit (mkBitWriter (pre ++ inner bw) (currentByte bw) (currentPos bw)) b
  = mkBitWriter (pre ++ inner (WriteBit bw b))
                (currentByte (WriteBit bw b)) (currentPos (WriteBit bw b)).
Proof.
  unfold WriteBit; simpl.
  destruct (8 <=? currentPos bw + 1); simpl; [|reflexivity].
  unfold Flush; simpl. by rewrite app_assoc.
Qed.

Lemma feed_prefix pre bits : forall bw,
  feed (mkBitWriter (pre ++ inner bw) (currentByte bw) (currentPos bw)) bits
  = mkBitWriter (pre ++ inner (feed bw bits))
                (currentByte (feed bw bits)) (currentPos (feed bw bits)).
Proof.
  induction bits as [|b bits IH]; intros bw; [reflexivity|].
  change (feed ?x (b :: bits)) with (feed (WriteBit x b) bits).
  rewrite WriteBit_prefix. apply IH.
Qed.

(** Eight bits of a byte, fed to an empty accumulator, give the byte back. *)
Lemma feed_byte_bits_all :
  forallb (fun b =>
             let r := feed (mkBitWriter [] 0 0) (byte_bits b) in
             bool_decide (inner r = [b]) && (currentByte r =? 0)
               && (currentPos r =? 0))
          (zrange 256) = true.
Proof. vm_compute. reflexivity. Qed.

End BitAccumulator.

Section BytesThroughAccumulator.

Import bitwriter.

Lemma in_zrange n z : 0 <= z < n -> In z (zrange n).
Proof.
  intros Hz. unfold zrange. apply in_map_iff. exists (Z.to_nat z).
  split; [lia|]. apply in_seq. lia.
Qed.

Lemma bytes_ok_cons b l :
  bytes_ok (b :: l) = true <-> (0 <= b < 256) /\ bytes_ok l = true.
Proof.
  unfold bytes_ok, is_byte; simpl. rewrite andb_true_iff, andb_true_iff.
  rewrite Z.leb_le, Z.ltb_lt. tauto.
Qed.

Lemma bytes_ok_app l1 l2 :
  bytes_ok (l1 ++ l2) = bytes_ok l1 && bytes_ok l2.
Proof. unfold bytes_ok. apply forallb_app. Qed.

Lemma feed_byte pre b :
  0 <= b < 256 ->
  feed (mkBitWriter pre 0 0) (byte_bits b) = mkBitWriter (pre ++ [b]) 0 0.
Proof.
  intros Hb.
  pose proof (proj1 (forallb_forall _ _) feed_byte_bits_all b
                (in_zrange 256 b Hb)) as H.
  cbv zeta in H. apply andb_true_iff in H as [H H3].
  apply andb_true_iff in H as [H1 H2].
  apply bool_decide_eq_true in H1. apply Z.eqb_eq in H2, H3.
  pose proof (feed_prefix pre (byte_bits b) (mkBitWriter [] 0 0)) as P.
  cbn [inner currentByte currentPos] in P. rewrite app_nil_r in P.
  rewrite P, H1, H2, H3. reflexivity.
Qed.

Lemma feed_bytes buf : forall pre,
  bytes_ok buf = true ->
  feed (mkBitWriter pre 0 0) (flat_map byte_bits buf)
  = mkBitWriter (pre ++ buf) 0 0.
Proof.
  induction buf as [|b buf IH]; intros pre Hok.
  - simpl. by rewrite app_nil_r.
  - apply bytes_ok_cons in Hok as [Hb Hok].
    change (flat_map byte_bits (b :: buf))
      with (byte_bits b ++ flat_map byte_bits buf).
    rewrite feed_app, (feed_byte pre b Hb), (IH _ Hok).
    by rewrite <- app_assoc.
Qed.

Lemma feed_short bits : forall bw,
  0 <= currentPos bw -> currentPos bw + len bits < 8 ->
  inner (feed bw bits) = inner bw.
Proof.
  induction bits as [|b bits IH]; intros bw H0 H8; [reflexivity|].
  change (feed bw (b :: bits)) with (feed (WriteBit bw b) bits).
  unfold len in *. simpl length in H8.
  assert (E : (8 <=? currentPos bw + 1) = false) by (apply Z.leb_gt; lia).
  rewrite IH; unfold WriteBit; rewrite E; simpl; [reflexivity|lia|lia].
Qed.

(** What the extraction loop returns on a stream that starts with the
    bits of [buf] and goes on with fewer than eight more. *)
Lemma feed_bytes_rest buf rest :
  bytes_ok buf = true -> (length rest < 8)%nat ->
  inner (feed (NewBitWriter []) (flat_map byte_bits buf ++ rest)) = buf.
Proof.
  intros Hok Hr. unfold NewBitWriter.
  rewrite feed_app, (feed_bytes buf [] Hok), feed_short; simpl;
    [reflexivity|lia|unfold len; lia].
Qed.

Lemma feed_inner_length bits :
  len (inner (feed (NewBitWriter []) bits)) = len bits / 8.
Proof.
  destruct (feed_length bits (NewBitWriter [])) as [Hp Hl]; [simpl; lia|].
  simpl in Hl. unfold len in *. simpl in Hl.
  apply (Z.div_unique _ 8 _ (currentPos (feed (NewBitWriter []) bits))); lia.
Qed.

End BytesThroughAccumulator.

(* ===================================================================== *)
(** ** The hidden bit stream of an image *)
(* ===================================================================== *)

Section Stream.

Lemma foldM_fold {St A} (f : St -> A -> result St) (g : St -> A -> St) l :
  forall s, (forall s a, In a l -> f s a = Ok (g s a)) ->
  foldM f l s = Ok (fold_left g l s).
Proof.
  induction l as [|a l IH]; intros s Hf; [reflexivity|].
  simpl. rewrite Hf by (left; reflexivity). simpl.
  apply IH. intros s' a' Ha. apply Hf. right. exact Ha.
Qed.

Lemma fold_feed {A} (f : A -> list bool) l : forall bw,
  fold_left (fun bw a => feed bw (f a)) l bw = feed bw (flat_map f l).
Proof.
  induction l as [|a l IH]; intros bw; [reflexivity|].
  simpl. rewrite IH, feed_app. reflexivity.
Qed.

Lemma length_flat_map_const {A B} (f : A -> list B) m l :
  (forall a, length (f a) = m) -> length (flat_map f l) = (m * length l)%nat.
Proof.
  intros Hf. induction l as [|a l IH]; simpl; [lia|].
  rewrite length_app, Hf, IH. lia.
Qed.

Lemma length_lsb_stream i0 : length (lsb_stream i0) = (3 * length (Pix i0))%nat.
Proof. apply length_flat_map_const. reflexivity. Qed.

Lemma map_nth_seq {A} (l : list A) d a n :
  (a + n <= length l)%nat ->
  map (fun i => nth (a + i) l d) (seq 0 n) = take n (drop a l).
Proof.
  intros Hl. apply list_eq. intros i.
  rewrite list_lookup_fmap. destruct (decide (i < n)%nat) as [Hi|Hi].
  - rewrite lookup_seq_lt by exact Hi. simpl.
    rewrite lookup_take_lt, lookup_drop by exact Hi.
    destruct (nth_lookup_or_length l (a + i) d) as [->|]; [reflexivity|lia].
  - rewrite lookup_seq_ge, lookup_take_ge by lia. reflexivity.
Qed.

Lemma flat_map_map {A B C} (f : B -> list C) (g : A -> B) l :
  flat_map f (map g l) = flat_map (fun a => f (g a)) l.
Proof. induction l as [|a l IH]; simpl; [reflexivity|by rewrite IH]. Qed.

Lemma rows_flat_map {A B} (g : A -> list B) W : forall H l,
  length l = (H * W)%nat ->
  flat_map (fun j => flat_map g (take W (drop (j * W) l))) (seq 0 H)
  = flat_map g l.
Proof.
  induction H as [|H IH]; intros l Hl.
  - destruct l; [reflexivity|discriminate].
  - rewrite <- cons_seq, <- seq_shift.
    change (flat_map ?f (0%nat :: ?t)) with (f 0%nat ++ flat_map f t).
    rewrite flat_map_map. change (drop 0 l) with l.
    rewrite <- (take_drop W l) at 2. rewrite flat_map_app. f_equal.
    rewrite <- (IH (drop W l)) by (rewrite length_drop; lia).
    apply flat_map_ext. intros j. rewrite drop_drop.
    replace (S j * W)%nat with (W + j * W)%nat by lia. reflexivity.
Qed.

Lemma readPixel_feed i0 (i j : nat) bw :
  wf_image i0 ->
  (i < Z.to_nat (Dx i0))%nat -> (j < Z.to_nat (Dy i0))%nat ->
  readPixel i0 (Z.of_nat j) bw (Z.of_nat i)
  = Ok (feed bw (chan_bits (nth (j * Z.to_nat (Dx i0) + i) (Pix i0) image.zero))).
Proof.
  intros (Hm & Hw & Hh & _) Hi Hj. unfold readPixel, At.
  assert (Hin : inside i0 (Z.of_nat i) (Z.of_nat j) = true).
  { unfold inside. repeat (apply andb_true_iff; split);
      try apply Z.leb_le; try apply Z.ltb_lt; lia. }
  assert (Ho : PixOffset i0 (Z.of_nat i) (Z.of_nat j)
               = (j * Z.to_nat (Dx i0) + i)%nat).
  { unfold PixOffset. lia. }
  rewrite Hin, Ho.
  destruct (ColorModel i0); try discriminate; reflexivity.
Qed.

(** GetHiddenBytesFromImage feeds the whole stream to the accumulator. *)
Lemma GetHiddenBytes_stream i0 :
  wf_image i0 ->
  GetHiddenBytesFromImage i0
  = Ok (bitwriter.inner (feed (bitwriter.NewBitWriter []) (lsb_stream i0))).
Proof.
  intros Hwf. pose proof Hwf as (Hm & Hw & Hh & Hl & _).
  unfold GetHiddenBytesFromImage. rewrite Hm. simpl negb. cbv iota.
  set (W := Z.to_nat (Dx i0)). set (H := Z.to_nat (Dy i0)).
  rewrite (foldM_fold _
    (fun bw j => feed bw (flat_map chan_bits
        (take W (drop (Z.to_nat j * W) (Pix i0)))))).
  - simpl. f_equal. f_equal. rewrite fold_feed. f_equal.
    unfold zrange. rewrite flat_map_map.
    unfold lsb_stream. rewrite <- (rows_flat_map chan_bits W H (Pix i0)).
    + apply flat_map_ext. intros j. by rewrite Nat2Z.id.
    + unfold len in Hl. subst W H. nia.
  - intros bw j Hj. apply in_map_iff in Hj as (j' & <- & Hj').
    apply in_seq in Hj'. rewrite Nat2Z.id.
    rewrite (foldM_fold _
      (fun bw i => feed bw (chan_bits
          (nth (j' * W + Z.to_nat i) (Pix i0) image.zero)))).
    + f_equal. rewrite fold_feed. f_equal.
      unfold zrange. rewrite flat_map_map.
      rewrite <- (map_nth_seq _ image.zero).
      * rewrite flat_map_map.
        apply flat_map_ext. intros i. by rewrite Nat2Z.id.
      * unfold len in Hl. subst W H. nia.
    + intros bw' i Hi. apply in_map_iff in Hi as (i' & <- & Hi').
      apply in_seq in Hi'. rewrite Nat2Z.id.
      apply readPixel_feed; [exact Hwf|lia|lia].
Qed.

End Stream.

(* ===================================================================== *)
(** ** Writing through the carrier *)
(* ===================================================================== *)

Section CarrierWrite.

Lemma lsb_bitEmbed v bit : lsb (bitEmbed v bit) = bit.
Proof.
  unfold lsb, bitEmbed.
  assert (E : forall x, Z.land x 1 = Z.b2z (Z.testbit x 0)).
  { intros x. rewrite Z.bit0_mod. apply (Z.land_ones x 1). lia. }
  rewrite E. destruct bit.
  - rewrite Z.lor_spec, orb_true_r. reflexivity.
  - rewrite Z.land_spec. change (Z.testbit 254 0) with false.
    rewrite andb_false_r. reflexivity.
Qed.

Lemma chan_bits_embed ch rgb bit :
  0 <= rgb < 3 ->
  chan_bits (embedChannels ch rgb bit) = <[Z.to_nat rgb := bit]> (chan_bits ch).
Proof.
  intros Hr. unfold embedChannels, chan_bits.
  assert (rgb = 0 \/ rgb = 1 \/ rgb = 2) as [-> | [-> | ->]] by lia;
    simpl; rewrite lsb_bitEmbed; reflexivity.
Qed.

Lemma embed_stream pix : forall k ch rgb bit,
  pix !! k = Some ch -> 0 <= rgb < 3 ->
  flat_map chan_bits (<[k := embedChannels ch rgb bit]> pix)
  = <[(3 * k + Z.to_nat rgb)%nat := bit]> (flat_map chan_bits pix).
Proof.
  induction pix as [|a pix IH]; intros k ch rgb bit Hk Hr; [discriminate|].
  destruct k as [|k].
  - injection Hk as ->. simpl insert at 1.
    change (flat_map chan_bits (?x :: pix))
      with (chan_bits x ++ flat_map chan_bits pix).
    rewrite (chan_bits_embed ch rgb bit Hr).
    replace (3 * 0 + Z.to_nat rgb)%nat with (Z.to_nat rgb) by lia.
    assert (Z.to_nat rgb < 3)%nat by lia.
    destruct (Z.to_nat rgb) as [|[|[|?]]]; try lia; reflexivity.
  - simpl in Hk. simpl insert at 1.
    change (flat_map chan_bits (a :: ?t))
      with (chan_bits a ++ flat_map chan_bits t).
    rewrite (IH k ch rgb bit Hk Hr).
    replace (3 * S k + Z.to_nat rgb)%nat
      with (S (S (S (3 * k + Z.to_nat rgb)))) by lia.
    reflexivity.
Qed.

(** Reading the pixel under the cursor, embedding one bit and storing it
    back changes the pixel at PixOffset and nothing else. *)
Lemma embed_at i0 x y rgb bit :
  wf_image i0 -> inside i0 x y = true ->
  exists c',
    colorEmbed (At i0 x y) rgb bit = Ok c' /\
    Set_ i0 x y c'
    = mkImage (ColorModel i0) (Dx i0) (Dy i0)
        (<[PixOffset i0 x y :=
             embedChannels (nth (PixOffset i0 x y) (Pix i0) image.zero) rgb bit]>
           (Pix i0)).
Proof.
  intros (Hm & _) Hin. unfold At, Set_. rewrite Hin.
  destruct (ColorModel i0) eqn:E; try discriminate; simpl;
    eexists; (split; [reflexivity|]); simpl; reflexivity.
Qed.

Lemma inside_cursor ibw :
  wf_image (im ibw) -> cursor_ok ibw -> cursor ibw < 3 * w ibw * h ibw ->
  currentY ibw < h ibw /\
  inside (im ibw) (currentX ibw) (currentY ibw) = true /\
  Z.of_nat (PixOffset (im ibw) (currentX ibw) (currentY ibw)) * 3 + currentRGB ibw
  = cursor ibw /\
  (PixOffset (im ibw) (currentX ibw) (currentY ibw) < length (Pix (im ibw)))%nat.
Proof.
  intros (Hm & Hw & Hh & Hl & _) (Ew & Eh & Hr & (Hx0 & Hx) & Hy) Hc.
  unfold cursor in *. unfold len in Hl.
  assert (Hxw : currentX ibw < w ibw) by nia.
  assert (Hyh : currentY ibw < h ibw) by nia.
  split; [exact Hyh|]. split.
  - unfold inside. rewrite <- Ew, <- Eh.
    repeat (apply andb_true_iff; split);
      try apply Z.leb_le; try apply Z.ltb_lt; lia.
  - unfold PixOffset. rewrite <- Ew. split; [nia|].
    apply Nat2Z.inj_lt. rewrite Hl, <- Ew, <- Eh. nia.
Qed.

(** One iteration of the loop of writeByte. *)
Lemma writeBits_step i rest ibw data :
  wf_image (im ibw) -> cursor_ok ibw -> cursor ibw < 3 * w ibw * h ibw ->
  exists ibw2,
    writeBits (i :: rest) ibw data = writeBits rest ibw2 data /\
    wf_image (im ibw2) /\ cursor_ok ibw2 /\
    cursor ibw2 = cursor ibw + 1 /\
    lsb_stream (im ibw2)
    = <[Z.to_nat (cursor ibw) := negb (Z.land data (Z.shiftl 1 i) =? 0)]>
        (lsb_stream (im ibw)) /\
    currentByte ibw2 = currentByte ibw /\ capacity ibw2 = capacity ibw /\
    w ibw2 = w ibw /\ h ibw2 = h ibw.
Proof.
  intros Hwf Hok Hc.
  destruct (inside_cursor ibw Hwf Hok Hc) as (Hyh & Hin & Hoff & Hlt).
  set (bit := negb (Z.land data (Z.shiftl 1 i) =? 0)).
  destruct (embed_at (im ibw) (currentX ibw) (currentY ibw)
              (currentRGB ibw) bit Hwf Hin) as (c' & Hc' & Hset).
  pose proof Hwf as (Hm & Hw & Hh & Hl & Hb).
  pose proof Hok as (Ew & Eh & Hr & (Hx0 & _) & Hy).
  assert (Hx : currentX ibw < w ibw).
  { unfold inside in Hin. rewrite Ew.
    apply andb_true_iff in Hin as [Hin _]. apply andb_true_iff in Hin as [Hin _].
    apply andb_true_iff in Hin as [_ Hin]. by apply Z.ltb_lt. }
  set (k := PixOffset (im ibw) (currentX ibw) (currentY ibw)) in *.
  assert (Hs : lsb_stream (Set_ (im ibw) (currentX ibw) (currentY ibw) c')
               = <[Z.to_nat (cursor ibw) := bit]> (lsb_stream (im ibw))).
  { rewrite Hset. unfold lsb_stream. simpl Pix.
    rewrite embed_stream; [f_equal; lia| |exact Hr].
    destruct (nth_lookup_or_length (Pix (im ibw)) k image.zero); [done|lia]. }
  assert (Hwf' : wf_image (Set_ (im ibw) (currentX ibw) (currentY ibw) c')).
  { rewrite Hset. unfold wf_image, len. simpl.
    rewrite length_insert. exact Hwf. }
  assert (Hd : Dx (Set_ (im ibw) (currentX ibw) (currentY ibw) c') = Dx (im ibw)
               /\ Dy (Set_ (im ibw) (currentX ibw) (currentY ibw) c') = Dy (im ibw)).
  { rewrite Hset. split; reflexivity. }
  destruct Hd as [HDx HDy].
  cbn [writeBits]. fold bit. rewrite Hc'. cbn [mbind result_bind].
  unfold increment. cbn [h currentY currentRGB currentX w im currentByte capacity].
  assert (E1 : (h ibw <=? currentY ibw) = false) by (apply Z.leb_gt; lia).
  rewrite E1.
  destruct (2 <? currentRGB ibw + 1) eqn:E2;
    [destruct (w ibw <=? currentX ibw + 1) eqn:E3|];
    eexists; (split; [reflexivity|]);
    cbn [h currentY currentRGB currentX w im currentByte capacity];
    unfold cursor_ok, cursor;
    cbn [h currentY currentRGB currentX w im currentByte capacity];
    rewrite ?HDx, ?HDy; unfold cursor in Hs;
    try apply Z.ltb_lt in E2; try apply Z.ltb_ge in E2;
    try apply Z.leb_le in E3; try apply Z.leb_gt in E3;
    repeat split; try apply Hwf'; try exact Hs; try lia.
Qed.

Lemma cursor_nonneg ibw : wf_image (im ibw) -> cursor_ok ibw -> 0 <= cursor ibw.
Proof.
  intros (_ & Hw & _) (Ew & _ & Hr & (Hx & _) & Hy). unfold cursor. nia.
Qed.

Lemma stream_length_Z i0 :
  wf_image i0 -> Z.of_nat (length (lsb_stream i0)) = 3 * Dx i0 * Dy i0.
Proof.
  intros (_ & _ & _ & Hl & _). rewrite length_lsb_stream.
  unfold len in Hl. lia.
Qed.

Lemma splice_step {A} (s : list A) P b mid n :
  (P < length s)%nat ->
  take (S P) (<[P := b]> s) ++ mid ++ drop (S P + n) (<[P := b]> s)
  = take P s ++ (b :: mid) ++ drop (P + S n) s.
Proof.
  intros HP.
  rewrite (take_S_r _ _ b) by (apply list_lookup_insert_eq; exact HP).
  rewrite take_insert_ge by lia. rewrite drop_insert_lt by lia.
  rewrite <- app_assoc. simpl.
  replace (P + S n)%nat with (S (P + n)) by lia. reflexivity.
Qed.

(** The loop of writeByte writes its bits at the cursor, one after the
    other, as long as the stream has room for them. *)
Lemma writeBits_all data : forall todo ibw,
  wf_image (im ibw) -> cursor_ok ibw ->
  cursor ibw + len todo <= 3 * w ibw * h ibw ->
  exists ibw',
    writeBits todo ibw data = Ok (ibw', None) /\
    wf_image (im ibw') /\ cursor_ok ibw' /\
    cursor ibw' = cursor ibw + len todo /\
    lsb_stream (im ibw')
    = take (Z.to_nat (cursor ibw)) (lsb_stream (im ibw))
      ++ map (fun i => negb (Z.land data (Z.shiftl 1 i) =? 0)) todo
      ++ drop (Z.to_nat (cursor ibw) + length todo) (lsb_stream (im ibw)) /\
    currentByte ibw' = currentByte ibw /\ capacity ibw' = capacity ibw /\
    w ibw' = w ibw /\ h ibw' = h ibw.
Proof.
  induction todo as [|i rest IH]; intros ibw Hwf Hok Hc.
  - exists ibw. unfold len; simpl. rewrite Nat.add_0_r, take_drop.
    repeat split; try apply Hwf; try apply Hok; lia.
  - unfold len in Hc. simpl length in Hc.
    destruct (writeBits_step i rest ibw data Hwf Hok) as
      (ibw2 & Hrun & Hwf2 & Hok2 & Hc2 & Hs2 & Hb2 & Hcap2 & Hw2 & Hh2); [lia|].
    destruct (IH ibw2 Hwf2 Hok2) as
      (ibw' & Hrun' & Hwf' & Hok' & Hc' & Hs' & Hb' & Hcap' & Hw' & Hh').
    { rewrite Hc2, Hw2, Hh2. unfold len. lia. }
    exists ibw'. rewrite Hrun, Hrun'.
    pose proof (cursor_nonneg ibw Hwf Hok) as H0.
    pose proof (stream_length_Z (im ibw) Hwf) as HL.
    destruct Hok as (Ew & Eh & _).
    repeat split; try apply Hwf'; try apply Hok'; try congruence.
    + rewrite Hc'. unfold len. simpl length. lia.
    + rewrite Hs', Hs2, Hc2.
      replace (Z.to_nat (cursor ibw + 1)) with (S (Z.to_nat (cursor ibw))) by lia.
      simpl map. simpl length. apply splice_step. lia.
Qed.

Lemma writeBytes_all : forall data i ibw,
  wf_image (im ibw) -> cursor_ok ibw ->
  cursor ibw + 8 * len data <= 3 * w ibw * h ibw ->
  currentByte ibw + len data <= capacity ibw ->
  exists ibw',
    writeBytes i data ibw = Ok (ibw', (i + len data, None)) /\
    wf_image (im ibw') /\ cursor_ok ibw' /\
    cursor ibw' = cursor ibw + 8 * len data /\
    lsb_stream (im ibw')
    = take (Z.to_nat (cursor ibw)) (lsb_stream (im ibw))
      ++ flat_map byte_bits data
      ++ drop (Z.to_nat (cursor ibw) + 8 * length data) (lsb_stream (im ibw)) /\
    currentByte ibw' = currentByte ibw + len data /\
    capacity ibw' = capacity ibw /\ w ibw' = w ibw /\ h ibw' = h ibw.
Proof.
  induction data as [|b rest IH]; intros i ibw Hwf Hok Hc Hcap.
  - exists ibw. unfold len; simpl. rewrite Nat.add_0_r, take_drop.
    repeat split; try apply Hwf; try apply Hok; try lia.
    do 3 f_equal. lia.
  - unfold len in Hc, Hcap. simpl length in Hc, Hcap.
    destruct (writeBits_all b (zrange 8) ibw Hwf Hok) as
      (ibw1 & Hrun & Hwf1 & Hok1 & Hc1 & Hs1 & Hb1 & Hcap1 & Hw1 & Hh1).
    { change (len (zrange 8)) with 8. lia. }
    change (len (zrange 8)) with 8 in Hc1.
    change (length (zrange 8)) with 8%nat in Hs1.
    set (ibw2 := mkImageByteWriter (im ibw1) (currentX ibw1) (currentY ibw1)
                   (currentRGB ibw1) (currentByte ibw1 + 1) (w ibw1) (h ibw1)
                   (capacity ibw1)).
    destruct (IH (i + 1) ibw2) as
      (ibw' & Hrun' & Hwf' & Hok' & Hc' & Hs' & Hb' & Hcap' & Hw' & Hh');
      try assumption.
    { unfold cursor, ibw2; simpl. fold (cursor ibw1). unfold len. lia. }
    { unfold ibw2; simpl. unfold len. lia. }
    assert (Hcur2 : cursor ibw2 = cursor ibw1) by reflexivity.
    exists ibw'. cbn [writeBytes]. unfold writeByte.
    assert (E : (capacity ibw <=? currentByte ibw) = false)
      by (apply Z.leb_gt; lia).
    rewrite E, Hrun. cbn [mbind result_bind snd fst]. fold ibw2. rewrite Hrun'.
    pose proof (cursor_nonneg ibw Hwf Hok) as H0.
    repeat split; try apply Hwf'; try apply Hok'.
    + do 3 f_equal. unfold len. simpl length. lia.
    + rewrite Hc', Hcur2, Hc1. unfold len. simpl length. lia.
    + rewrite Hs', Hcur2. simpl im. rewrite Hs1, Hc1.
      fold (byte_bits b).
      change (flat_map byte_bits (b :: rest))
        with (byte_bits b ++ flat_map byte_bits rest).
      assert (Lb : length (byte_bits b) = 8%nat) by reflexivity.
      set (P := Z.to_nat (cursor ibw)).
      replace (Z.to_nat (cursor ibw + 8)) with (P + 8)%nat by lia.
      set (s := lsb_stream (im ibw)).
      assert (HP : (P + 8 <= length s)%nat).
      { pose proof (stream_length_Z (im ibw) Hwf) as HL.
        destruct Hok as (Ew & Eh & _). subst P s. lia. }
      rewrite take_app_ge by (rewrite length_take; lia).
      rewrite length_take, Nat.min_l by lia.
      rewrite take_app_ge by (rewrite Lb; lia).
      rewrite Lb. replace (P + 8 - P - 8)%nat with 0%nat by lia.
      rewrite take_0, app_nil_r.
      rewrite !drop_app_ge by (rewrite ?length_take, ?Lb; lia).
      rewrite length_take, Nat.min_l, Lb by lia.
      rewrite drop_drop. rewrite <- !app_assoc.
      replace (P + 8 + (P + 8 + 8 * length rest - P - 8))%nat
        with (P + 8 * length (b :: rest))%nat
        by (change (length (b :: rest)) with (S (length rest)); lia).
      reflexivity.
    + rewrite Hb'. unfold ibw2; simpl. unfold len; simpl length. lia.
    + rewrite Hcap'. unfold ibw2; simpl. lia.
    + rewrite Hw'. unfold ibw2; simpl. lia.
    + rewrite Hh'. unfold ibw2; simpl. lia.
Qed.

End CarrierWrite.

Section CarrierSync.

Lemma slice_prefix {A} (l : list A) n :
  0 <= n <= len l -> slice l 0 n = Ok (take (Z.to_nat n) l).
Proof.
  intros Hn. unfold slice, len in *.
  replace ((0 <=? 0) && (0 <=? n) && (n <=? Z.of_nat (length l))) with true.
  - rewrite Z.sub_0_r. reflexivity.
  - symmetry. repeat (apply andb_true_iff; split); apply Z.leb_le; lia.
Qed.

Lemma int64_wrap_small z : - 2 ^ 63 <= z < 2 ^ 63 -> int64_wrap z = z.
Proof. intros Hz. unfold int64_wrap. rewrite Z.mod_small; lia. Qed.

Lemma uint32_wrap_small z : 0 <= z < 2 ^ 32 -> uint32_wrap z = z.
Proof. intros Hz. unfold uint32_wrap. apply Z.mod_small. lia. Qed.

Lemma NewImageByteWriter_sync i0 :
  wf_image i0 ->
  exists ibw,
    NewImageByteWriter i0 = Ok ibw /\ in_sync ibw /\ im ibw = i0 /\
    currentByte ibw = 0 /\ capacity ibw = (Dx i0 * Dy i0 * 3) / 8.
Proof.
  intros Hwf. pose proof Hwf as (Hm & Hw & Hh & Hl & Hb).
  unfold NewImageByteWriter. rewrite Hm. simpl negb. cbv iota.
  eexists. split; [reflexivity|].
  assert (H0 : 0 <= Dx i0 * Dy i0 * 3) by nia.
  rewrite int64_wrap_small by lia.
  rewrite Z.quot_div_nonneg by lia.
  unfold in_sync, cursor_ok, cursor. simpl.
  pose proof (Z.div_pos (Dx i0 * Dy i0 * 3) 8 H0 ltac:(lia)).
  repeat split; try apply Hwf; try lia.
  f_equal. lia.
Qed.

(** Write on a writer in step: the data is cut to the room left, every
    byte kept is written, and the count is their number. *)
Lemma Write_sync ibw data :
  in_sync ibw ->
  let room := capacity ibw - currentByte ibw in
  let n := Z.min room (len data) in
  exists ibw',
    Write ibw data
    = Ok (ibw', (n, if room <? len data then Some EOF else None)) /\
    in_sync ibw' /\
    currentByte ibw' = currentByte ibw + n /\
    capacity ibw' = capacity ibw /\
    lsb_stream (im ibw')
    = take (Z.to_nat (8 * currentByte ibw)) (lsb_stream (im ibw))
      ++ flat_map byte_bits (take (Z.to_nat n) data)
      ++ drop (Z.to_nat (8 * (currentByte ibw + n))) (lsb_stream (im ibw)) /\
    w ibw' = w ibw /\ h ibw' = h ibw.
Proof.
  intros (Hwf & Hok & Hcur & Hcb & Hcap) room n.
  set (d := take (Z.to_nat n) data).
  assert (Hn : 0 <= n <= len data) by (unfold n, room, len; lia).
  assert (Hd : len d = n).
  { unfold d, len in *. rewrite length_take. lia. }
  assert (H8 : 8 * capacity ibw <= 3 * w ibw * h ibw).
  { rewrite Hcap. apply Z.mul_div_le. lia. }
  destruct (writeBytes_all d 0 ibw Hwf Hok) as
    (ibw' & Hrun & Hwf' & Hok' & Hc' & Hs' & Hb' & Hcap' & Hw' & Hh').
  { rewrite Hcur, Hd. unfold n, room. lia. }
  { rewrite Hd. unfold n, room. lia. }
  exists ibw'. split.
  - unfold Write. fold room. change (Z.of_nat (length data)) with (len data).
    destruct (room <? len data) eqn:E.
    + apply Z.ltb_lt in E.
      assert (En : n = room) by (unfold n; lia).
      rewrite slice_prefix by lia. cbn [mbind result_bind snd fst].
      rewrite <- En. fold d. rewrite Hrun. cbn [mbind result_bind snd fst].
      unfold len in Hd. rewrite Hd. reflexivity.
    + apply Z.ltb_ge in E.
      assert (En : n = len data) by (unfold n; lia).
      assert (Ed : d = data).
      { unfold d. apply take_ge. unfold len in En. lia. }
      cbn [mbind result_bind snd fst]. rewrite <- Ed. rewrite Hrun.
      cbn [mbind result_bind snd fst]. unfold len in Hd. rewrite Hd.
      reflexivity.
  - rewrite Hd in *. repeat split; try apply Hwf'; try apply Hok'; try lia.
    + congruence.
    + rewrite Hs', Hcur. do 3 f_equal. unfold len in Hd. lia.
Qed.

(** Writing a buffer of capacity bytes to a fresh writer, then extracting
    the hidden bytes, gives the buffer back. *)
Lemma write_then_extract i0 ibw buf :
  wf_image i0 -> NewImageByteWriter i0 = Ok ibw ->
  len buf = capacity ibw -> bytes_ok buf = true ->
  exists ibw',
    Write ibw buf = Ok (ibw', (len buf, None)) /\
    wf_image (im ibw') /\
    Dx (im ibw') = Dx i0 /\ Dy (im ibw') = Dy i0 /\
    GetHiddenBytesFromImage (im ibw') = Ok buf.
Proof.
  intros Hwf Hnew Hlen Hok.
  destruct (NewImageByteWriter_sync i0 Hwf) as (ibw0 & Hnew0 & Hsync & Him & Hcb & Hcap).
  rewrite Hnew in Hnew0. injection Hnew0 as <-.
  destruct (Write_sync ibw buf Hsync)
    as (ibw' & Hrun & Hsync' & Hb' & Hcap' & Hs' & Hw' & Hh').
  cbv zeta in Hrun, Hb', Hs'. rewrite Hcb, Z.sub_0_r, <- Hlen in Hrun, Hb', Hs'.
  rewrite Z.min_id, Z.ltb_irrefl in Hrun. rewrite Z.min_id in Hb', Hs'.
  exists ibw'. split; [exact Hrun|].
  pose proof Hsync' as (Hwf' & (Ew' & Eh' & _) & _ & _ & Hc8).
  pose proof Hsync as (_ & (Ew & Eh & _) & _ & _ & Hc8').
  subst i0.
  assert (Hdim : Dx (im ibw') = Dx (im ibw) /\ Dy (im ibw') = Dy (im ibw))
    by (split; congruence).
  split; [exact Hwf'|]. split; [apply Hdim|]. split; [apply Hdim|].
  rewrite (GetHiddenBytes_stream _ Hwf'), Hs'. f_equal.
  change (Z.to_nat (8 * 0)) with 0%nat. rewrite take_0, app_nil_l.
  unfold len. rewrite Nat2Z.id, take_ge by lia.
  apply feed_bytes_rest; [exact Hok|].
  rewrite length_drop.
  pose proof (stream_length_Z (im ibw) Hwf) as HL.
  pose proof (Z.div_mod (Dx (im ibw) * Dy (im ibw) * 3) 8 ltac:(lia)) as HD.
  pose proof (Z.mod_pos_bound (Dx (im ibw) * Dy (im ibw) * 3) 8 ltac:(lia)).
  unfold len in Hlen. lia.
Qed.

End CarrierSync.

(* ===================================================================== *)
(** ** Capacity (C3) *)
(* ===================================================================== *)

(** C3. For every supported image the capacity fixed by
    NewImageByteWriter is floor(width*height*3/8), and
    GetHiddenBytesFromImage returns the bytes the bit accumulator makes of
    the stream of R, G, B least significant bits, pixel after pixel in
    row-major order; they are exactly capacity many, whatever
    width*height*3 is modulo 8 (the bits past the last full byte stay in
    the accumulator). *)
Theorem capacity_arithmetic (i0 : Image) :
  wf_image i0 ->
  exists ibw buf,
    NewImageByteWriter i0 = Ok ibw /\
    Capacity ibw = (Dx i0 * Dy i0 * 3) / 8 /\
    GetHiddenBytesFromImage i0 = Ok buf /\
    buf = bitwriter.inner (feed (bitwriter.NewBitWriter []) (lsb_stream i0)) /\
    len buf = Capacity ibw.
Proof.
  intros Hwf.
  destruct (NewImageByteWriter_sync i0 Hwf) as (ibw & Hnew & _ & _ & _ & Hcap).
  exists ibw. eexists. split; [exact Hnew|]. split; [exact Hcap|].
  split; [apply GetHiddenBytes_stream; exact Hwf|]. split; [reflexivity|].
  rewrite feed_inner_length. unfold Capacity. rewrite Hcap.
  unfold len. rewrite length_lsb_stream.
  destruct Hwf as (_ & _ & _ & Hl & _). unfold len in Hl.
  f_equal. lia.
Qed.

Lemma wf_img_3x1 : wf_image img_3x1.
Proof. unfold wf_image. repeat split; try reflexivity; simpl; lia. Qed.

Lemma capacity_arithmetic_witness :
  wf_image img_3x1 /\
  exists ibw buf,
    NewImageByteWriter img_3x1 = Ok ibw /\
    Capacity ibw = (Dx img_3x1 * Dy img_3x1 * 3) / 8 /\
    GetHiddenBytesFromImage img_3x1 = Ok buf /\
    buf = bitwriter.inner (feed (bitwriter.NewBitWriter []) (lsb_stream img_3x1)) /\
    len buf = Capacity ibw.
Proof.
  split; [exact wf_img_3x1|].
  apply (capacity_arithmetic img_3x1).
  unfold wf_image. repeat split; try reflexivity; simpl; lia.
Defined.

(* ===================================================================== *)
(** ** The frame of a pixel mutation (C9) *)
(* ===================================================================== *)

Section Frame.

Lemma bitEmbed_upper_all :
  forallb (fun v => (upper7 (bitEmbed v true) =? upper7 v)
                    && (upper7 (bitEmbed v false) =? upper7 v))
          (zrange 256) = true.
Proof. vm_compute. reflexivity. Qed.

Lemma bitEmbed_upper v bit :
  0 <= v < 256 -> upper7 (bitEmbed v bit) = upper7 v.
Proof.
  intros Hv.
  pose proof (proj1 (forallb_forall _ _) bitEmbed_upper_all v
                (in_zrange 256 v Hv)) as H.
  apply andb_true_iff in H as [H1 H2]. apply Z.eqb_eq in H1, H2.
  destruct bit; assumption.
Qed.

Lemma PixOffset_inj i0 x y x' y' :
  inside i0 x y = true -> inside i0 x' y' = true ->
  PixOffset i0 x y = PixOffset i0 x' y' -> x = x' /\ y = y'.
Proof.
  unfold inside, PixOffset. intros H1 H2 E.
  repeat (apply andb_true_iff in H1 as [H1 ?]).
  repeat (apply andb_true_iff in H2 as [H2 ?]).
  repeat match goal with
         | H : (_ <=? _) = true |- _ => apply Z.leb_le in H
         | H : (_ <? _) = true |- _ => apply Z.ltb_lt in H
         end.
  assert (y = y') by nia. subst y'. split; [nia|reflexivity].
Qed.

Lemma pixel_ok_nth pix k :
  forallb pixel_ok pix = true -> pixel_ok (nth k pix image.zero) = true.
Proof.
  intros H. destruct (nth_in_or_default k pix image.zero) as [Hin| ->].
  - exact (proj1 (forallb_forall _ _) H _ Hin).
  - reflexivity.
Qed.

Lemma pixel_ok_bytes c :
  pixel_ok c = true ->
  0 <= R c < 256 /\ 0 <= G c < 256 /\ 0 <= B c < 256.
Proof.
  unfold pixel_ok, is_byte. intros H.
  repeat (apply andb_true_iff in H as [H ?]).
  repeat match goal with
         | H : (_ <=? _) = true |- _ => apply Z.leb_le in H
         | H : (_ <? _) = true |- _ => apply Z.ltb_lt in H
         end.
  lia.
Qed.

Lemma embedChannels_frame c pos bit :
  pixel_ok c = true ->
  let n := embedChannels c pos bit in
  A n = A c /\
  upper7 (R n) = upper7 (R c) /\ upper7 (G n) = upper7 (G c) /\
  upper7 (B n) = upper7 (B c) /\
  (pos <> 0 -> R n = R c) /\ (pos <> 1 -> G n = G c) /\
  (pos <> 2 -> B n = B c).
Proof.
  intros Hc. destruct (pixel_ok_bytes c Hc) as (HR & HG & HB).
  unfold embedChannels.
  destruct (pos =? 0) eqn:E0; [|destruct (pos =? 1) eqn:E1;
                                 [|destruct (pos =? 2) eqn:E2]];
    simpl; rewrite ?bitEmbed_upper by assumption;
    try apply Z.eqb_eq in E0; try apply Z.eqb_eq in E1;
    try apply Z.eqb_eq in E2; repeat split; intros; congruence.
Qed.

End Frame.

(** C9. Every pixel mutation of the writer has the form
    [Set(x, y, colorEmbed(At(x, y), pos, bit))].  After it, every pixel of
    the image has its alpha and the upper seven bits of R, G and B as
    before, and a channel value differs only at the addressed pixel and the
    addressed channel (R for 0, G for 1, B for 2). *)
Theorem pixel_frame (i0 : Image) (x y pos : Z) (bit : bool) :
  wf_image i0 -> forallb pixel_ok (Pix i0) = true ->
  exists c',
    colorEmbed (At i0 x y) pos bit = Ok c' /\
    forall x' y', exists o n,
      colorToRGBA (At i0 x' y') = Ok o /\
      colorToRGBA (At (Set_ i0 x y c') x' y') = Ok n /\
      A n = A o /\
      upper7 (R n) = upper7 (R o) /\ upper7 (G n) = upper7 (G o) /\
      upper7 (B n) = upper7 (B o) /\
      ((x', y') <> (x, y) \/ pos <> 0 -> R n = R o) /\
      ((x', y') <> (x, y) \/ pos <> 1 -> G n = G o) /\
      ((x', y') <> (x, y) \/ pos <> 2 -> B n = B o).
Proof.
  intros Hwf Hpix. pose proof Hwf as (Hm & _).
  assert (Hsame : forall i1 x' y',
             ColorModel i1 = ColorModel i0 ->
             exists o, colorToRGBA (At i1 x' y') = Ok o /\
                       o = (if inside i1 x' y'
                            then nth (PixOffset i1 x' y') (Pix i1) image.zero
                            else image.zero)).
  { intros i1 x' y' E. unfold At. rewrite E.
    destruct (ColorModel i0); try discriminate; simpl;
      eexists; (split; [reflexivity|]);
      destruct (inside i1 x' y'); try reflexivity.
    by destruct (nth _ _ _). }
  destruct (inside i0 x y) eqn:Hin.
  - destruct (embed_at i0 x y pos bit Hwf Hin) as (c' & Hc' & Hset).
    exists c'. split; [exact Hc'|]. intros x' y'.
    destruct (Hsame i0 x' y' eq_refl) as (o & Ho & Eo).
    destruct (Hsame (Set_ i0 x y c') x' y') as (n & Hn & En).
    { rewrite Hset. reflexivity. }
    exists o, n. split; [exact Ho|]. split; [exact Hn|].
    rewrite Hset in En.
    set (i1 := mkImage _ _ _ _) in En.
    change (inside i1 x' y') with (inside i0 x' y') in En.
    change (PixOffset i1 x' y') with (PixOffset i0 x' y') in En.
    cbn [Pix i1] in En. clear i1.
    destruct (inside i0 x' y') eqn:Hin'.
    + rewrite nth_lookup, list_lookup_insert in En.
      destruct (decide (PixOffset i0 x y = PixOffset i0 x' y'
                        /\ (PixOffset i0 x y < length (Pix i0))%nat)) as [[E L]|N].
      * cbn [default] in En. destruct (PixOffset_inj i0 x y x' y' Hin Hin' E) as [-> ->].
        unfold id in En. subst o n.
        pose proof (embedChannels_frame _ pos bit
                      (pixel_ok_nth (Pix i0) (PixOffset i0 x' y') Hpix)) as F.
        cbv zeta in F. destruct F as (FA & FR & FG & FB & F0 & F1 & F2).
        repeat split; try assumption.
        -- intros [H|H]; [congruence|exact (F0 H)].
        -- intros [H|H]; [congruence|exact (F1 H)].
        -- intros [H|H]; [congruence|exact (F2 H)].
      * rewrite <- nth_lookup in En. subst o n. repeat split; reflexivity.
    + subst o n. repeat split; reflexivity.
  - assert (Hno : forall c', Set_ i0 x y c' = i0).
    { intros c'. unfold Set_. rewrite Hin. reflexivity. }
    assert (exists c', colorEmbed (At i0 x y) pos bit = Ok c') as [c' Hc'].
    { unfold At. destruct (ColorModel i0); try discriminate; simpl; eauto. }
    exists c'. split; [exact Hc'|]. intros x' y'. rewrite Hno.
    destruct (Hsame i0 x' y' eq_refl) as (o & Ho & _).
    exists o, o. repeat split; try exact Ho; reflexivity.
Qed.

Lemma pixel_frame_witness :
  exists c',
    colorEmbed (At img_3x1 1 0) 2 false = Ok c' /\
    forall x' y', exists o n,
      colorToRGBA (At img_3x1 x' y') = Ok o /\
      colorToRGBA (At (Set_ img_3x1 1 0 c') x' y') = Ok n /\
      A n = A o /\
      upper7 (R n) = upper7 (R o) /\ upper7 (G n) = upper7 (G o) /\
      upper7 (B n) = upper7 (B o) /\
      ((x', y') <> (1, 0) \/ 2 <> 0 -> R n = R o) /\
      ((x', y') <> (1, 0) \/ 2 <> 1 -> G n = G o) /\
      ((x', y') <> (1, 0) \/ 2 <> 2 -> B n = B o).
Proof.
  apply (pixel_frame img_3x1 1 0 2 false).
  - unfold wf_image. repeat split; try reflexivity; simpl; lia.
  - reflexivity.
Defined.

(* ===================================================================== *)
(** ** Write at the end of the capacity (C10) *)
(* ===================================================================== *)

(** C10 (as amended). On a writer in step with its byte count (the state
    after NewImageByteWriter and any number of Writes), a Write that asks
    for more bytes than the room left cuts the data to the room first,
    writes every byte it kept, returns their number and io.EOF. *)
Theorem write_truncation (ibw : ImageByteWriter) (data : list Z) :
  in_sync ibw ->
  capacity ibw - currentByte ibw < len data ->
  let room := capacity ibw - currentByte ibw in
  exists ibw',
    Write ibw data = Ok (ibw', (room, Some EOF)) /\
    lsb_stream (im ibw')
    = take (Z.to_nat (8 * currentByte ibw)) (lsb_stream (im ibw))
      ++ flat_map byte_bits (take (Z.to_nat room) data)
      ++ drop (Z.to_nat (8 * capacity ibw)) (lsb_stream (im ibw)) /\
    currentByte ibw' = capacity ibw /\
    in_sync ibw'.
Proof.
  intros Hsync Hlt room.
  destruct (Write_sync ibw data Hsync)
    as (ibw' & Hrun & Hsync' & Hb' & Hcap' & Hs' & _).
  cbv zeta in Hrun, Hb', Hs'. fold room in Hrun, Hb', Hs'.
  assert (E : Z.min room (len data) = room) by (unfold room; lia).
  rewrite E in Hrun, Hb', Hs'.
  apply Z.ltb_lt in Hlt. fold room in Hlt. rewrite Hlt in Hrun.
  exists ibw'. split; [exact Hrun|]. split.
  - rewrite Hs'. do 4 f_equal. unfold room. lia.
  - split; [unfold room in Hb'; lia|exact Hsync'].
Qed.

Lemma write_truncation_witness :
  exists ibw',
    Write ibw_3x1 [170; 85] = Ok (ibw', (1, Some EOF)) /\
    lsb_stream (im ibw')
    = take 0 (lsb_stream img_3x1) ++ flat_map byte_bits (take 1 [170; 85])
      ++ drop 8 (lsb_stream img_3x1) /\
    currentByte ibw' = 1 /\ in_sync ibw'.
Proof.
  apply (write_truncation ibw_3x1 [170; 85]).
  - unfold in_sync, cursor_ok, wf_image, cursor.
    repeat split; try reflexivity; simpl; lia.
  - simpl. unfold len. simpl. lia.
Defined.

Lemma write_truncation_counterexample :
  seek_then_write = Ok (1, (0, Some ErrUnexpectedEOF)).
Proof. vm_compute. reflexivity. Qed.

(* ===================================================================== *)
(** ** The seeded shuffle and its inversion *)
(* ===================================================================== *)

Section Swaps.

Context {A : Type}.
Implicit Types l : list A.

Lemma swapAt_Ok l i j :
  (i < length l)%nat -> (j < length l)%nat ->
  exists l',
    swapAt i j l = Ok l' /\ length l' = length l /\
    forall k, l' !! k = if decide (k = j) then l !! i
                        else if decide (k = i) then l !! j else l !! k.
Proof.
  intros Hi Hj. unfold swapAt.
  destruct (lookup_lt_is_Some_2 l i Hi) as [a Ha].
  destruct (lookup_lt_is_Some_2 l j Hj) as [b Hb].
  rewrite Ha, Hb. eexists. split; [reflexivity|].
  split; [by rewrite !length_insert|].
  intros k. destruct (decide (k = j)) as [->|Nj].
  - rewrite list_lookup_insert_eq by (rewrite length_insert; lia). done.
  - rewrite list_lookup_insert_ne by done.
    destruct (decide (k = i)) as [->|Ni].
    + rewrite list_lookup_insert_eq by lia. done.
    + by rewrite list_lookup_insert_ne.
Qed.

End Swaps.

Section Lockstep.

Context `{RS : RandSource} {A : Type}.
Variable orig : list A.

Lemma draw_range r i : (Z.to_nat (fst (draw r i)) <= i)%nat.
Proof.
  unfold draw. destruct (2 ^ 31 - 1 - 1 <? Z.of_nat i).
  - pose proof (Int63n_range r (Z.of_nat i + 1) ltac:(lia)). lia.
  - pose proof (int31n_range r (Z.of_nat i + 1) ltac:(lia)). lia.
Qed.

Lemma swapAt_tracks i j data idx :
  tracks orig data idx ->
  (i < length orig)%nat -> (j < length orig)%nat ->
  exists data' idx',
    swapAt i j data = Ok data' /\ swapAt i j idx = Ok idx' /\
    tracks orig data' idx' /\
    forall k, idx' !! k = if decide (k = j) then idx !! i
                          else if decide (k = i) then idx !! j else idx !! k.
Proof.
  intros (Ld & Li & Hk) Hi Hj.
  destruct (swapAt_Ok data i j) as (data' & Hd & Ld' & Kd); [lia|lia|].
  destruct (swapAt_Ok idx i j) as (idx' & Hx & Li' & Kx); [lia|lia|].
  exists data', idx'. repeat split; try assumption; try congruence.
  intros k. rewrite Kd, Kx.
  destruct (decide (k = j)); [apply Hk|].
  destruct (decide (k = i)); apply Hk.
Qed.

Lemma swap_injective_below n idx idx' i j :
  injective_below n idx ->
  (forall k, idx' !! k = if decide (k = j) then idx !! i
                         else if decide (k = i) then idx !! j else idx !! k) ->
  injective_below n idx'.
Proof.
  intros [Hb Hinj] K. split.
  - intros k v. rewrite K. repeat case_decide; apply Hb.
  - intros k1 k2 v. rewrite !K.
    repeat case_decide; subst; intros Hv1 Hv2;
      pose proof (Hinj _ _ _ Hv1 Hv2); congruence.
Qed.

Lemma shuffleFrom_lockstep : forall i r data idx,
  (i < length orig \/ i = 0)%nat ->
  tracks orig data idx -> injective_below (length orig) idx ->
  exists data' idx',
    shuffleFrom i r swapAt data = Ok data' /\
    shuffleFrom i r swapAt idx = Ok idx' /\
    tracks orig data' idx' /\ injective_below (length orig) idx'.
Proof.
  induction i as [|i IH]; intros r data idx Hi Ht Hinj.
  - exists data, idx. repeat split; try apply Ht; apply Hinj.
  - pose proof (draw_range r (S i)) as Hj.
    destruct (swapAt_tracks (S i) (Z.to_nat (fst (draw r (S i)))) data idx Ht)
      as (data1 & idx1 & Hd & Hx & Ht1 & K); [lia|lia|].
    destruct (IH (snd (draw r (S i))) data1 idx1) as
      (data' & idx' & Hd' & Hx' & Ht' & Hinj'); [lia|exact Ht1| |].
    { eapply swap_injective_below; eauto. }
    exists data', idx'. cbn [shuffleFrom]. rewrite Hd, Hx.
    cbn [mbind result_bind]. auto.
Qed.

End Lockstep.

Section Seeds.

Lemma Sum256_length msg : length (sha256.Sum256 msg) = 32%nat.
Proof. reflexivity. Qed.

Lemma be_bytes_ok n v : bytes_ok (be_bytes n v) = true.
Proof.
  unfold bytes_ok, be_bytes. apply forallb_forall. intros b Hb.
  apply in_map_iff in Hb as (k & <- & _). unfold is_byte.
  pose proof (Z.mod_pos_bound (v / 2 ^ (8 * Z.of_nat k)) 256 ltac:(lia)).
  apply andb_true_iff. split; [apply Z.leb_le|apply Z.ltb_lt]; lia.
Qed.

Lemma Sum256_bytes_ok msg : bytes_ok (sha256.Sum256 msg) = true.
Proof.
  unfold sha256.Sum256, sha256.digest.
  rewrite !bytes_ok_app, !be_bytes_ok. reflexivity.
Qed.

Lemma roundSeed_at hash (i : nat) :
  length hash = 32%nat -> (i <= 3)%nat ->
  roundSeed hash (Z.of_nat i)
  = Ok (int64_wrap (be_value (take 8 (drop (8 * i) hash)))).
Proof.
  intros Hl Hi. unfold roundSeed, slice.
  replace ((0 <=? Z.of_nat i * 8) && (Z.of_nat i * 8 <=? Z.of_nat i * 8 + 8)
           && (Z.of_nat i * 8 + 8 <=? Z.of_nat (length hash))) with true.
  - cbn [mbind result_bind]. unfold Uint64.
    replace (Z.to_nat (Z.of_nat i * 8 + 8 - Z.of_nat i * 8)) with 8%nat by lia.
    replace (Z.to_nat (Z.of_nat i * 8)) with (8 * i)%nat by lia.
    rewrite length_take, length_drop, Hl.
    replace (8 <=? 8 `min` (32 - 8 * i))%nat with true
      by (symmetry; apply Nat.leb_le; lia).
    cbn [mbind result_bind]. rewrite take_take. reflexivity.
  - symmetry. rewrite Hl.
    repeat (apply andb_true_iff; split); apply Z.leb_le; lia.
Qed.

Lemma roundSeed_words hash :
  length hash = 32%nat ->
  map (roundSeed hash) (zrange 4)
  = map (fun w => Ok (int64_wrap w)) (words64 hash).
Proof.
  intros Hl. unfold zrange, words64. simpl map.
  rewrite (roundSeed_at hash 0), (roundSeed_at hash 1),
    (roundSeed_at hash 2), (roundSeed_at hash 3) by lia.
  reflexivity.
Qed.

End Seeds.

Section Rounds.

Context `{RS : RandSource}.

Lemma shuffleRounds_unfold {A} seed (l : list A) :
  shuffleRounds seed l
  = foldM (shuffleRound (sha256.Sum256 (bytes_of_string seed))) (zrange 4) l.
Proof. reflexivity. Qed.

Lemma roundSeed_Ok hash i :
  length hash = 32%nat -> In i (zrange 4) ->
  exists s, roundSeed hash i = Ok s.
Proof.
  intros Hl Hi. pose proof (roundSeed_words hash Hl) as E.
  apply (in_map (roundSeed hash)) in Hi. rewrite E in Hi.
  apply in_map_iff in Hi as (w & Hw & _). eauto.
Qed.

Lemma shuffleRound_lockstep {A} (orig : list A) hash i data idx :
  length hash = 32%nat -> In i (zrange 4) ->
  tracks orig data idx -> injective_below (length orig) idx ->
  exists data' idx',
    shuffleRound hash data i = Ok data' /\
    shuffleRound hash idx i = Ok idx' /\
    tracks orig data' idx' /\ injective_below (length orig) idx'.
Proof.
  intros Hl Hi Ht Hinj. destruct (roundSeed_Ok hash i Hl Hi) as [s Hs].
  unfold shuffleRound, Shuffle. rewrite Hs. cbn [mbind result_bind].
  destruct Ht as (Ld & Lx & Hk). rewrite Ld, Lx.
  apply shuffleFrom_lockstep; [lia|by repeat split|exact Hinj].
Qed.

Lemma rounds_lockstep {A} (orig : list A) hash : forall todo data idx,
  length hash = 32%nat -> (forall i, In i todo -> In i (zrange 4)) ->
  tracks orig data idx -> injective_below (length orig) idx ->
  exists data' idx',
    foldM (shuffleRound hash) todo data = Ok data' /\
    foldM (shuffleRound hash) todo idx = Ok idx' /\
    tracks orig data' idx' /\ injective_below (length orig) idx'.
Proof.
  induction todo as [|i todo IH]; intros data idx Hl Hin Ht Hinj.
  - exists data, idx. auto.
  - destruct (shuffleRound_lockstep orig hash i data idx Hl) as
      (data1 & idx1 & Hd & Hx & Ht1 & Hinj1); auto using in_eq.
    destruct (IH data1 idx1 Hl) as (data' & idx' & Hd' & Hx' & Ht' & Hinj');
      auto using in_cons.
    exists data', idx'. cbn [foldM]. rewrite Hd, Hx. cbn [mbind result_bind].
    auto.
Qed.

Lemma tracks_identity {A} (orig : list A) :
  tracks orig orig (seq 0 (length orig)) /\
  injective_below (length orig) (seq 0 (length orig)).
Proof.
  split; [split; [reflexivity|split; [apply length_seq|]]|split].
  - intros k. destruct (decide (k < length orig)%nat) as [Hk|Hk].
    + rewrite lookup_seq_lt by exact Hk. reflexivity.
    + rewrite lookup_seq_ge by lia. simpl. apply lookup_ge_None. lia.
  - intros k v Hv. apply lookup_seq in Hv. lia.
  - intros k1 k2 v H1 H2. apply lookup_seq in H1, H2. lia.
Qed.

(** Shuffling the data and shuffling the identity indexes with the same
    seed go in lockstep. *)
Lemma shuffleRounds_tracks {A} seed (orig : list A) :
  exists data idx,
    shuffleRounds seed orig = Ok data /\
    shuffleRounds seed (seq 0 (length orig)) = Ok idx /\
    tracks orig data idx /\ injective_below (length orig) idx.
Proof.
  rewrite !shuffleRounds_unfold.
  destruct (tracks_identity orig) as [Ht Hinj].
  apply rounds_lockstep; auto using Sum256_length.
Qed.

End Rounds.

Section Restore.

Lemma misplaced_insert : forall l off k v x,
  l !! k = Some x ->
  (misplaced off (<[k := v]> l) + (if decide (x = off + k) then 0 else 1)
   = misplaced off l + (if decide (v = off + k) then 0 else 1))%nat.
Proof.
  induction l as [|a l IH]; intros off k v x Hk; [discriminate|].
  destruct k as [|k].
  - injection Hk as ->. change (<[0%nat := v]> (x :: l)) with (v :: l).
    cbn [misplaced]. rewrite Nat.add_0_r. lia.
  - simpl in Hk. change (<[S k := v]> (a :: l)) with (a :: <[k := v]> l).
    cbn [misplaced].
    pose proof (IH (S off) k v x Hk) as E.
    repeat case_decide; lia.
Qed.

Lemma misplaced_pos : forall l off k x,
  l !! k = Some x -> x <> (off + k)%nat -> (1 <= misplaced off l)%nat.
Proof.
  induction l as [|a l IH]; intros off k x Hk Hne; [discriminate|].
  destruct k as [|k].
  - injection Hk as ->. cbn [misplaced]. rewrite Nat.add_0_r in Hne.
    destruct (decide (x = off)); lia.
  - simpl in Hk. cbn [misplaced].
    pose proof (IH (S off) k x Hk ltac:(lia)). lia.
Qed.

Lemma misplaced_le_length : forall l off, (misplaced off l <= length l)%nat.
Proof.
  induction l as [|a l IH]; intros off; cbn [misplaced length]; [lia|].
  pose proof (IH (S off)). destruct (decide (a = off)); lia.
Qed.

Variable orig : list Z.

(** The inner loop ends within as many iterations as there are misplaced
    indexes, leaves [newidx] in place and moves no index that is in place. *)
Lemma cycleSwaps_ok : forall fuel newidx oldidx data idx,
  tracks orig data idx -> injective_below (length orig) idx ->
  idx !! newidx = Some oldidx ->
  (misplaced 0 idx <= fuel)%nat ->
  exists data' idx',
    cycleSwaps fuel newidx oldidx data idx = Ok (data', idx') /\
    tracks orig data' idx' /\ injective_below (length orig) idx' /\
    idx' !! newidx = Some newidx /\
    (forall k, idx !! k = Some k -> idx' !! k = Some k) /\
    (misplaced 0 idx' <= misplaced 0 idx)%nat.
Proof.
  induction fuel as [|fuel IH]; intros newidx oldidx data idx Ht Hinj Hn Hf.
  - destruct (decide (newidx = oldidx)) as [->|Hne].
    + exists data, idx. cbn [cycleSwaps]. rewrite Nat.eqb_refl.
      repeat split; solve [apply Ht | apply Hinj | auto].
    + pose proof (misplaced_pos idx 0 newidx oldidx Hn). lia.
  - destruct (decide (newidx = oldidx)) as [->|Hne].
    { exists data, idx. cbn [cycleSwaps]. rewrite Nat.eqb_refl.
      repeat split; solve [apply Ht | apply Hinj | auto]. }
    cbn [cycleSwaps]. rewrite (proj2 (Nat.eqb_neq _ _) Hne).
    pose proof Ht as (Ld & Lx & _). pose proof Hinj as (Hb & Hi).
    assert (Hnl : (newidx < length orig)%nat).
    { rewrite <- Lx. eapply lookup_lt_Some; eauto. }
    assert (Hol : (oldidx < length orig)%nat) by (eapply Hb; eauto).
    destruct (swapAt_tracks orig newidx oldidx data idx Ht Hnl Hol)
      as (data1 & idx1 & Hd & Hx & Ht1 & K).
    rewrite Hd, Hx. cbn [mbind result_bind].
    destruct (lookup_lt_is_Some_2 idx oldidx ltac:(lia)) as [nxt Hnxt].
    assert (Hnew1 : idx1 !! newidx = Some nxt).
    { rewrite K. rewrite decide_False by done. rewrite decide_True by done.
      exact Hnxt. }
    unfold index. rewrite Hnew1. cbn [mbind result_bind].
    assert (Hnxt_ne : nxt <> oldidx).
    { intros ->. apply Hne. eapply Hi; eauto. }
    assert (Hm : (misplaced 0 idx1 + 1 <= misplaced 0 idx)%nat).
    { unfold swapAt in Hx. rewrite Hn, Hnxt in Hx. injection Hx as <-.
      pose proof (misplaced_insert idx 0 newidx nxt oldidx Hn) as E1.
      pose proof (misplaced_insert (<[newidx := nxt]> idx) 0 oldidx oldidx nxt) as E2.
      rewrite list_lookup_insert_ne in E2 by done. specialize (E2 Hnxt).
      simpl in E1, E2.
      rewrite (decide_False (P := oldidx = newidx)) in E1 by congruence.
      rewrite (decide_False (P := nxt = oldidx)) in E2 by done.
      rewrite (decide_True (P := oldidx = oldidx)) in E2 by done.
      destruct (decide (nxt = newidx)); lia. }
    destruct (IH newidx nxt data1 idx1 Ht1) as
      (data' & idx' & Hrun & Ht' & Hinj' & Hfix & Hkeep & Hm'); auto.
    { eapply swap_injective_below; eauto. }
    { lia. }
    exists data', idx'. repeat split; try assumption; try apply Ht';
      try apply Hinj'; try lia.
    intros k Hk. apply Hkeep. rewrite K.
    rewrite decide_False.
    + rewrite decide_False; [exact Hk|]. intros ->. congruence.
    + intros ->. apply Hne. eapply Hi; eauto.
Qed.

Lemma restoreStep_at fuel data idx a o :
  idx !! a = Some o ->
  restoreStep fuel (data, idx) a = cycleSwaps fuel a o data idx.
Proof. intros H. unfold restoreStep, index. cbn [fst snd]. by rewrite H. Qed.

Lemma restore_loop : forall m a data idx,
  (a + m = length orig)%nat ->
  tracks orig data idx -> injective_below (length orig) idx ->
  (forall k, (k < a)%nat -> idx !! k = Some k) ->
  exists data' idx',
    foldM (restoreStep (length orig)) (seq a m) (data, idx)
    = Ok (data', idx') /\
    tracks orig data' idx' /\
    (forall k, (k < length orig)%nat -> idx' !! k = Some k).
Proof.
  induction m as [|m IH]; intros a data idx Ham Ht Hinj Hfix.
  - exists data, idx. repeat split; try apply Ht.
    intros k Hk. apply Hfix. lia.
  - pose proof Ht as (Ld & Lx & _).
    destruct (lookup_lt_is_Some_2 idx a ltac:(lia)) as [o Ho].
    destruct (cycleSwaps_ok (length orig) a o data idx Ht Hinj Ho)
      as (data1 & idx1 & Hrun & Ht1 & Hinj1 & Ha & Hkeep & _).
    { rewrite <- Lx. apply misplaced_le_length. }
    destruct (IH (S a) data1 idx1) as (data' & idx' & Hrun' & Ht' & Hall);
      auto; [lia| |].
    { intros k Hk. destruct (decide (k = a)) as [->|]; [exact Ha|].
      apply Hkeep, Hfix. lia. }
    exists data', idx'. cbn [seq foldM].
    rewrite (restoreStep_at _ _ _ _ _ Ho), Hrun.
    cbn [mbind result_bind]. auto.
Qed.

Lemma restoreOrder_ok data idx :
  tracks orig data idx -> injective_below (length orig) idx ->
  exists idx', restoreOrder (length orig) data idx = Ok (orig, idx').
Proof.
  intros Ht Hinj. pose proof Ht as (Ld & Lx & _).
  destruct (restore_loop (length orig) 0 data idx) as
    (data' & idx' & Hrun & (Ld' & Lx' & Hk) & Hall); auto; [lia|].
  exists idx'. unfold restoreOrder. rewrite Lx, Hrun. do 2 f_equal.
  apply list_eq. intros k. rewrite Hk.
  destruct (decide (k < length orig)%nat) as [Hlt|Hge].
  - rewrite Hall by exact Hlt. reflexivity.
  - rewrite !(lookup_ge_None_2 _ k) by lia. reflexivity.
Qed.

End Restore.

(* ===================================================================== *)
(** ** Shuffle and unshuffle (C2) *)
(* ===================================================================== *)

Lemma shuffle_inverted `{RS : RandSource} (seed : string) (buf : list Z) :
  exists shuffled,
    shuffleRounds seed buf = Ok shuffled /\
    length shuffled = length buf /\
    unshuffle seed shuffled = Ok buf.
Proof.
  destruct (shuffleRounds_tracks seed buf) as (data & idx & Hd & Hx & Ht & Hinj).
  exists data. pose proof Ht as (Ld & _).
  split; [exact Hd|]. split; [exact Ld|].
  unfold unshuffle. rewrite Ld, Hx. cbn [mbind result_bind].
  destruct (restoreOrder_ok buf data idx Ht Hinj) as (idx' & Hr).
  rewrite Hr. reflexivity.
Qed.

(** C2. For every generator, buffer and seed string, the four-round
    shuffle of encodeImage succeeds, and the unshuffle of decodeImage (the
    replay on the identity indexes followed by the cycle-following swaps)
    applied to its result ends and gives the buffer back; the length of
    the buffer is arbitrary. *)
Theorem unshuffle_shuffle `{RS : RandSource} (seed : string) (buf : list Z) :
  exists shuffled,
    shuffleRounds seed buf = Ok shuffled /\
    length shuffled = length buf /\
    unshuffle seed shuffled = Ok buf.
Proof. apply shuffle_inverted. Qed.

Example shuffle_37_restored :
  exists shuffled,
    shuffleRounds (RS := lcg) "abc" (zrange 37) = Ok shuffled /\
    shuffled <> zrange 37 /\
    unshuffle (RS := lcg) "abc" shuffled = Ok (zrange 37).
Proof. eexists. split; [vm_compute; reflexivity|]. split; [discriminate|]. vm_compute. reflexivity. Qed.

(* ===================================================================== *)
(** ** The index array of the unshuffle (C6) *)
(* ===================================================================== *)



(* ===================================================================== *)
(** ** Seed derivation and the rounds (C7) *)
(* ===================================================================== *)

Section Passes.

Context `{RS : RandSource}.

Lemma shuffleFrom_swaps {St} (swap : nat -> nat -> St -> result St) :
  forall i r s,
    shuffleFrom i r swap s
    = foldM (fun s p => swap (fst p) (snd p) s) (passSwaps i r) s.
Proof.
  induction i as [|i IH]; intros r s; [reflexivity|].
  cbn [shuffleFrom passSwaps foldM fst snd].
  destruct (swap (S i) (Z.to_nat (fst (draw r (S i)))) s); try reflexivity.
  cbn [mbind result_bind]. apply IH.
Qed.

Lemma passSwaps_indexes : forall i r,
  map fst (passSwaps i r) = rev (seq 1 i).
Proof.
  induction i as [|i IH]; intros r; [reflexivity|].
  cbn [passSwaps map fst]. rewrite IH.
  replace (seq 1 (S i)) with (seq 1 i ++ [S i]) by (by rewrite seq_S).
  by rewrite rev_app_distr.
Qed.

Lemma passSwaps_partners : forall i r,
  Forall (fun p => (snd p <= fst p)%nat) (passSwaps i r).
Proof.
  induction i as [|i IH]; intros r; cbn [passSwaps]; constructor.
  - apply draw_range.
  - apply IH.
Qed.

Lemma swapAt_length {A} i j (l l' : list A) :
  swapAt i j l = Ok l' -> length l' = length l.
Proof.
  unfold swapAt. destruct (l !! i), (l !! j); try discriminate.
  intros [= <-]. by rewrite !length_insert.
Qed.

Lemma applySwaps_length {A} t : forall (l l' : list A),
  applySwaps t l = Ok l' -> length l' = length l.
Proof.
  induction t as [|p t IH]; intros l l' H.
  - by injection H as <-.
  - cbn [applySwaps foldM] in H.
    destruct (swapAt (fst p) (snd p) l) as [l1| | |] eqn:E; try discriminate.
    cbn [mbind result_bind] in H. rewrite (IH _ _ H).
    eapply swapAt_length; eauto.
Qed.

Lemma shuffleRound_swaps {A} hash i s (l : list A) :
  roundSeed hash i = Ok s ->
  shuffleRound hash l i = applySwaps (passSwaps (length l - 1) (New s)) l.
Proof.
  intros Hi. unfold shuffleRound. rewrite Hi. cbn [mbind result_bind].
  unfold Shuffle. apply shuffleFrom_swaps.
Qed.

Lemma rounds_swaps {A} hash : forall todo ws (l : list A),
  Forall2 (fun i w => roundSeed hash i = Ok (int64_wrap w)) todo ws ->
  foldM (shuffleRound hash) todo l
  = foldM (fun l w =>
             applySwaps (passSwaps (length l - 1) (New (int64_wrap w))) l)
          ws l.
Proof.
  intros todo ws l H. revert l.
  induction H as [|i w todo ws Hi _ IH]; intros l; [reflexivity|].
  cbn [foldM]. rewrite (shuffleRound_swaps hash i _ l Hi).
  destruct (applySwaps _ l); try reflexivity.
  cbn [mbind result_bind]. apply IH.
Qed.

Lemma swapAt_perm {A} i j (l l' : list A) :
  swapAt i j l = Ok l' -> l' ≡ₚ l.
Proof.
  unfold swapAt.
  destruct (l !! i) as [a|] eqn:Ei; [|discriminate].
  destruct (l !! j) as [b|] eqn:Ej; [|discriminate].
  intros [= <-]. by apply Permutation_insert_swap.
Qed.

Lemma applySwaps_perm {A} t : forall (l l' : list A),
  applySwaps t l = Ok l' -> l' ≡ₚ l.
Proof.
  induction t as [|p t IH]; intros l l' H.
  - injection H as <-. reflexivity.
  - unfold applySwaps in H. cbn [foldM] in H.
    destruct (swapAt (fst p) (snd p) l) as [l1| | |] eqn:E; try discriminate.
    cbn [mbind result_bind] in H.
    rewrite (IH l1 l' H). by apply swapAt_perm in E.
Qed.

(** The partner of an index is the draw the generator makes for the
    bound index + 1. *)
Lemma passSwaps_step (i : nat) (r : Rand) :
  passSwaps (S i) r
  = (S i, Z.to_nat (fst (if 2 ^ 31 - 1 - 1 <? Z.of_nat (S i)
                         then Int63n r (Z.of_nat (S i) + 1)
                         else int31n r (Z.of_nat (S i) + 1))))
    :: passSwaps i (snd (if 2 ^ 31 - 1 - 1 <? Z.of_nat (S i)
                         then Int63n r (Z.of_nat (S i) + 1)
                         else int31n r (Z.of_nat (S i) + 1))).
Proof. reflexivity. Qed.

Lemma swapAt_exchanges {A} (l : list A) i j :
  (i < length l)%nat -> (j < length l)%nat ->
  exists l',
    swapAt i j l = Ok l' /\ length l' = length l /\
    l' !! i = l !! j /\ l' !! j = l !! i /\
    forall k, k <> i -> k <> j -> l' !! k = l !! k.
Proof.
  intros Hi Hj. destruct (swapAt_Ok l i j Hi Hj) as (l' & E & Ll & Hk).
  exists l'. split; [exact E|]. split; [exact Ll|]. split; [|split].
  - rewrite Hk. destruct (decide (i = j)) as [->|N]; [reflexivity|].
    by rewrite decide_True.
  - rewrite Hk. by rewrite decide_True.
  - intros k Ni Nj. rewrite Hk. by rewrite !decide_False.
Qed.

Lemma swapAt_inv {A} i j (l l' : list A) :
  swapAt i j l = Ok l' ->
  (i < length l)%nat /\ (j < length l)%nat /\
  l' !! i = l !! j /\ forall k, k <> i -> k <> j -> l' !! k = l !! k.
Proof.
  intros H.
  assert (Hi : (i < length l)%nat).
  { apply lookup_lt_is_Some. unfold swapAt in H.
    destruct (l !! i); [eauto|discriminate]. }
  assert (Hj : (j < length l)%nat).
  { apply lookup_lt_is_Some. unfold swapAt in H.
    destruct (l !! i); [|discriminate]. destruct (l !! j); [eauto|discriminate]. }
  destruct (swapAt_exchanges l i j Hi Hj) as (l2 & E & _ & Hij & _ & Hk).
  rewrite H in E. injection E as <-. auto.
Qed.

(** Swaps below [b] leave the positions from [b] on as they are. *)
Lemma applySwaps_frame {A} (b : nat) : forall t (l out : list A),
  Forall (fun p => (fst p < b)%nat /\ (snd p < b)%nat) t ->
  applySwaps t l = Ok out ->
  forall k, (b <= k)%nat -> out !! k = l !! k.
Proof.
  induction t as [|p t IH]; intros l out Ht H k Hk.
  - by injection H as <-.
  - unfold applySwaps in H. cbn [foldM] in H.
    destruct (swapAt (fst p) (snd p) l) as [l1| | |] eqn:E; try discriminate.
    cbn [mbind result_bind] in H.
    apply Forall_cons in Ht as [[Hp1 Hp2] Ht].
    rewrite (IH l1 out Ht H k Hk).
    apply swapAt_inv in E as (_ & _ & _ & Ho). apply Ho; lia.
Qed.

Lemma pass_shape_cons (m : nat) (t : list (nat * nat)) :
  map fst t = rev (seq 1 (S m)) ->
  Forall (fun p => (snd p <= fst p)%nat) t ->
  exists j t1,
    t = (S m, j) :: t1 /\ (j <= S m)%nat /\
    map fst t1 = rev (seq 1 m) /\
    Forall (fun p => (snd p <= fst p)%nat) t1 /\
    Forall (fun p => (fst p < S m)%nat /\ (snd p < S m)%nat) t1.
Proof.
  intros Hm Hp.
  replace (seq 1 (S m)) with (seq 1 m ++ [S m]) in Hm by (by rewrite seq_S).
  rewrite rev_app_distr in Hm. cbn [rev app] in Hm.
  destruct t as [|[i j] t1]; [discriminate|].
  cbn [map fst] in Hm. injection Hm as -> Hm.
  apply Forall_cons in Hp as [Hj Hp]. cbn [fst snd] in Hj.
  exists j, t1. split; [reflexivity|]. split; [exact Hj|].
  split; [exact Hm|]. split; [exact Hp|].
  apply Forall_forall. intros q Hq.
  assert (Hf : In (fst q) (map fst t1))
    by (apply in_map; by apply list_elem_of_In).
  rewrite Hm in Hf. apply in_rev, in_seq in Hf.
  pose proof (proj1 (Forall_forall _ _) Hp q Hq) as Hs. cbn beta in Hs. lia.
Qed.

(** A pass is unbiased: on a buffer of distinct elements, two choices of
    partners that give the same arrangement are the same choice. *)
Lemma pass_injective {A} : forall (m : nat) (l out : list A) t t',
  NoDup l ->
  map fst t = rev (seq 1 m) -> Forall (fun p => (snd p <= fst p)%nat) t ->
  map fst t' = rev (seq 1 m) -> Forall (fun p => (snd p <= fst p)%nat) t' ->
  applySwaps t l = Ok out -> applySwaps t' l = Ok out -> t = t'.
Proof.
  induction m as [|m IH]; intros l out t t' Hnd Hm Hp Hm' Hp' H H'.
  - destruct t; [|discriminate]. destruct t'; [reflexivity|discriminate].
  - destruct (pass_shape_cons m t Hm Hp) as (j & t1 & -> & Hj & Hm1 & Hp1 & Hb1).
    destruct (pass_shape_cons m t' Hm' Hp')
      as (j' & t1' & -> & Hj' & Hm1' & Hp1' & Hb1').
    unfold applySwaps in H, H'. cbn [foldM fst snd] in H, H'.
    destruct (swapAt (S m) j l) as [l1| | |] eqn:E; try discriminate.
    destruct (swapAt (S m) j' l) as [l1'| | |] eqn:E'; try discriminate.
    cbn [mbind result_bind] in H, H'.
    pose proof (applySwaps_frame (S m) t1 l1 out Hb1 H (S m) (le_n _)) as F.
    pose proof (applySwaps_frame (S m) t1' l1' out Hb1' H' (S m) (le_n _)) as F'.
    pose proof (swapAt_inv _ _ _ _ E) as (_ & Lj & Ej & _).
    pose proof (swapAt_inv _ _ _ _ E') as (_ & Lj' & Ej' & _).
    assert (Ejj : j = j').
    { destruct (lookup_lt_is_Some_2 l j Lj) as [x Hx].
      apply (NoDup_lookup l j j' x Hnd Hx). congruence. }
    subst j'. rewrite E in E'. injection E' as <-.
    f_equal. apply (IH l1 out t1 t1'); try assumption.
    apply swapAt_perm in E. by rewrite E.
Qed.

(** The swaps of the rounds are fixed by the seed words and the length of
    the buffer. *)
Lemma rounds_fixed_swaps {A} (n : nat) : forall ws (l : list A),
  length l = n ->
  foldM (fun l w =>
           applySwaps (passSwaps (length l - 1) (New (int64_wrap w))) l) ws l
  = foldM (fun l t => applySwaps t l)
      (map (fun w => passSwaps (n - 1) (New (int64_wrap w))) ws) l.
Proof.
  induction ws as [|w ws IH]; intros l Hl; [reflexivity|].
  cbn [map foldM]. rewrite Hl.
  destruct (applySwaps (passSwaps (n - 1) (New (int64_wrap w))) l)
    as [l1| | |] eqn:E; try reflexivity.
  cbn [mbind result_bind]. apply IH.
  rewrite (applySwaps_length _ _ _ E). exact Hl.
Qed.

End Passes.

(** C7. For every generator and seed string:
    - the four generator seeds are the four consecutive 8-byte big-endian
      words of SHA-256 of the seed string (as int64), taken in order;
    - a pass over [n] elements swaps at the indexes n-1, ..., 1; the
      partner of index i is the number the generator of the round returns
      for the bound i+1 (Int63n above 2^31-2, int31n below, the draws
      that math/rand documents as uniform over [0, i+1)), made on the
      state the draws before it left, so it lies in [0, i];
    - a swap exchanges the elements at the two positions and leaves every
      other position as it is;
    - the pass has no bias of its own: on a buffer of distinct elements,
      two choices of partners within these ranges that give the same
      arrangement are the same choice;
    - the four rounds, on any slice (hiddenData in encodeImage, indexes in
      decodeImage), are the four passes in order, each with a generator
      newly seeded with its word; the swaps depend on the seed string and
      the length only, and the rounds return a slice of the same
      length. *)
Theorem seeded_rounds `{RS : RandSource} (seed : string) :
  let hash := sha256.Sum256 (bytes_of_string seed) in
  length hash = 32%nat /\
  map (roundSeed hash) (zrange 4)
  = map (fun w => Ok (int64_wrap w)) (words64 hash) /\
  (forall (n : nat) (r : Rand),
      map fst (passSwaps (n - 1) r) = rev (seq 1 (n - 1)) /\
      Forall (fun p => (snd p <= fst p)%nat) (passSwaps (n - 1) r)) /\
  (forall (i : nat) (r : Rand),
      passSwaps (S i) r
      = (S i, Z.to_nat (fst (if 2 ^ 31 - 1 - 1 <? Z.of_nat (S i)
                             then Int63n r (Z.of_nat (S i) + 1)
                             else int31n r (Z.of_nat (S i) + 1))))
        :: passSwaps i (snd (if 2 ^ 31 - 1 - 1 <? Z.of_nat (S i)
                             then Int63n r (Z.of_nat (S i) + 1)
                             else int31n r (Z.of_nat (S i) + 1)))) /\
  (forall (A : Type) (l : list A) (i j : nat),
      (i < length l)%nat -> (j < length l)%nat ->
      exists l',
        swapAt i j l = Ok l' /\ length l' = length l /\
        l' !! i = l !! j /\ l' !! j = l !! i /\
        forall k, k <> i -> k <> j -> l' !! k = l !! k) /\
  (forall (A : Type) (l out : list A) (t t' : list (nat * nat)),
      NoDup l ->
      map fst t = rev (seq 1 (length l - 1)) ->
      Forall (fun p => (snd p <= fst p)%nat) t ->
      map fst t' = rev (seq 1 (length l - 1)) ->
      Forall (fun p => (snd p <= fst p)%nat) t' ->
      applySwaps t l = Ok out -> applySwaps t' l = Ok out -> t = t') /\
  (forall (A : Type) (l : list A),
      shuffleRounds seed l
      = foldM (fun l w =>
                 applySwaps (passSwaps (length l - 1) (New (int64_wrap w))) l)
              (words64 hash) l /\
      shuffleRounds seed l
      = foldM (fun l t => applySwaps t l)
          (map (fun w => passSwaps (length l - 1) (New (int64_wrap w)))
               (words64 hash)) l /\
      exists l', shuffleRounds seed l = Ok l' /\ length l' = length l).
Proof.
  intros hash. pose proof (Sum256_length (bytes_of_string seed)) as Hl.
  fold hash in Hl. split; [exact Hl|].
  split; [apply roundSeed_words; exact Hl|]. split.
  { intros n r. split; [apply passSwaps_indexes|apply passSwaps_partners]. }
  split; [exact passSwaps_step|].
  split; [intros A l i j; apply swapAt_exchanges|].
  split; [intros A l out t t'; apply pass_injective|].
  intros A l.
  assert (E : shuffleRounds seed l
              = foldM (fun l w =>
                         applySwaps
                           (passSwaps (length l - 1) (New (int64_wrap w))) l)
                      (words64 hash) l).
  { rewrite shuffleRounds_unfold. fold hash.
    apply rounds_swaps. unfold zrange, words64. simpl map.
    repeat (constructor;
            [first [exact (roundSeed_at hash 0 Hl ltac:(lia))
                   |exact (roundSeed_at hash 1 Hl ltac:(lia))
                   |exact (roundSeed_at hash 2 Hl ltac:(lia))
                   |exact (roundSeed_at hash 3 Hl ltac:(lia))]|]).
    constructor. }
  split; [exact E|]. split.
  - rewrite E. by apply rounds_fixed_swaps.
  - destruct (shuffleRounds_tracks seed l)
      as (data & idx & Hd & _ & (Ld & _) & _).
    exists data. by split.
Qed.

(** The seeds of "abc": SHA-256("abc") read as four big-endian words. *)
Example seeds_abc :
  map (roundSeed hex_abc) (zrange 4)
  = [Ok (0xba7816bf8f01cfea - 2 ^ 64); Ok 0x414140de5dae2223;
     Ok (0xb00361a396177a9c - 2 ^ 64); Ok (0xb410ff61f20015ad - 2 ^ 64)].
Proof. vm_compute. reflexivity. Qed.

(* ===================================================================== *)
(** ** Buffers: slices, copies, big-endian fields *)
(* ===================================================================== *)

Section Buffers.

Lemma slice_Ok {A} (l : list A) lo hi :
  0 <= lo <= hi -> hi <= len l ->
  slice l lo hi = Ok (take (Z.to_nat (hi - lo)) (drop (Z.to_nat lo) l)).
Proof.
  intros H1 H2. unfold slice, len in *.
  replace ((0 <=? lo) && (lo <=? hi) && (hi <=? Z.of_nat (length l))) with true;
    [reflexivity|].
  symmetry. repeat (apply andb_true_iff; split); apply Z.leb_le; lia.
Qed.

Lemma slice_suffix {A} (l : list A) lo :
  0 <= lo <= len l -> slice l lo (len l) = Ok (drop (Z.to_nat lo) l).
Proof.
  intros H. rewrite slice_Ok by lia. f_equal. apply take_ge.
  rewrite length_drop. unfold len. lia.
Qed.

(** Overwriting the middle of three segments. *)
Lemma copy_at_middle {A} (pre mid post src : list A) :
  length src = length mid ->
  copy_at (pre ++ mid ++ post) (length pre) src = pre ++ src ++ post.
Proof.
  intros Hs. unfold copy_at.
  rewrite take_app_length. f_equal.
  rewrite take_ge by (rewrite !length_app; lia). f_equal.
  rewrite drop_app_ge by lia.
  replace (length pre + length src - length pre)%nat with (length mid) by lia.
  apply drop_app_length.
Qed.

Lemma segments {A} (c : list A) (s n : nat) :
  length c = n -> (s + 36 <= n)%nat ->
  c = take s c ++ take (n - 36 - s) (drop s c)
        ++ take 4 (drop (n - 36) c) ++ drop (n - 32) c.
Proof.
  intros Hn Hs.
  rewrite <- (take_drop s c) at 1. f_equal.
  rewrite <- (take_drop (n - 36 - s) (drop s c)) at 1. f_equal.
  rewrite drop_drop. replace (s + (n - 36 - s))%nat with (n - 36)%nat by lia.
  rewrite <- (take_drop 4 (drop (n - 36) c)) at 1. f_equal.
  rewrite drop_drop. f_equal. lia.
Qed.

Lemma be_value_be_bytes_4 v :
  0 <= v < 2 ^ 32 -> be_value (be_bytes 4 v) = v.
Proof.
  intros Hv. unfold be_value, be_bytes. simpl.
  change (2 ^ 24) with 16777216. change (2 ^ 16) with 65536.
  change (2 ^ 8) with 256. change (2 ^ 0) with 1.
  Z.div_mod_to_equations. lia.
Qed.

Lemma be_bytes_length n v : length (be_bytes n v) = n.
Proof. unfold be_bytes. by rewrite length_map, length_rev, length_seq. Qed.

Lemma PutUint32_length v : length (PutUint32 v) = 4%nat.
Proof. apply be_bytes_length. Qed.

Lemma bytes_ok_take n l : bytes_ok l = true -> bytes_ok (take n l) = true.
Proof.
  intros H. rewrite <- (take_drop n l), bytes_ok_app in H.
  by apply andb_true_iff in H as [H _].
Qed.

Lemma bytes_ok_drop n l : bytes_ok l = true -> bytes_ok (drop n l) = true.
Proof.
  intros H. rewrite <- (take_drop n l), bytes_ok_app in H.
  by apply andb_true_iff in H as [_ H].
Qed.

End Buffers.

(* ===================================================================== *)
(** ** The extracted bytes are bytes *)
(* ===================================================================== *)

Section ExtractedBytes.

Import bitwriter.

Lemma lor_bit_all :
  forallb (fun cb => forallb (fun pos =>
             is_byte (Z.lor cb (Z.shiftl 1 pos mod 256))) (zrange 8))
          (zrange 256) = true.
Proof. vm_compute. reflexivity. Qed.

Lemma WriteBit_acc_ok bw b : acc_ok bw -> acc_ok (WriteBit bw b).
Proof.
  intros (Hi & Hc & Hp).
  assert (Hcb : 0 <= (if b then Z.lor (currentByte bw)
                                      (Z.shiftl 1 (currentPos bw) mod 256)
                      else currentByte bw) < 256).
  { destruct b; [|exact Hc].
    pose proof (proj1 (forallb_forall _ _) lor_bit_all _
                  (in_zrange 256 _ Hc)) as H1.
    pose proof (proj1 (forallb_forall _ _) H1 _ (in_zrange 8 _ Hp)) as H2.
    unfold is_byte in H2. apply andb_true_iff in H2 as [H2 H3].
    apply Z.leb_le in H2. apply Z.ltb_lt in H3. lia. }
  unfold WriteBit, acc_ok.
  set (cb := if b then _ else _) in *.
  destruct (8 <=? currentPos bw + 1) eqn:E;
    cbn [Flush inner currentByte currentPos].
  - split; [|lia]. rewrite bytes_ok_app, Hi.
    cbn [bytes_ok forallb andb]. unfold is_byte. rewrite andb_true_r.
    apply andb_true_iff. split; [apply Z.leb_le|apply Z.ltb_lt]; lia.
  - apply Z.leb_gt in E. repeat split; try assumption; lia.
Qed.

Lemma feed_acc_ok bits : forall bw, acc_ok bw -> acc_ok (feed bw bits).
Proof.
  induction bits as [|b bits IH]; intros bw H; [exact H|].
  apply IH, WriteBit_acc_ok, H.
Qed.

Lemma GetHiddenBytes_ok i0 :
  wf_image i0 ->
  exists carrier,
    GetHiddenBytesFromImage i0 = Ok carrier /\
    len carrier = (Dx i0 * Dy i0 * 3) / 8 /\
    bytes_ok carrier = true.
Proof.
  intros Hwf. eexists. split; [apply GetHiddenBytes_stream; exact Hwf|]. split.
  - rewrite feed_inner_length. unfold len. rewrite length_lsb_stream.
    destruct Hwf as (_ & _ & _ & Hl & _). unfold len in Hl. f_equal. lia.
  - apply feed_acc_ok. unfold acc_ok, NewBitWriter. simpl. repeat split; lia.
Qed.

End ExtractedBytes.

(* ===================================================================== *)
(** ** The plain envelope *)
(* ===================================================================== *)

Section Envelope.

Lemma fillEnvelope_segments p data seg0 seg1 seg2 seg3 :
  length seg0 = length data -> length seg2 = 4%nat -> length seg3 = 32%nat ->
  len data < 2 ^ 32 ->
  fillEnvelope p (seg0 ++ seg1 ++ seg2 ++ seg3) data
  = Ok (data ++ seg1 ++ PutUint32 (len data)
          ++ (if doHash p then sha256.Sum256 data else seg3)).
Proof.
  intros L0 L2 L3 Hsz.
  set (c := seg0 ++ seg1 ++ seg2 ++ seg3).
  set (h1 := data ++ seg1 ++ seg2 ++ seg3).
  set (h2 := (data ++ seg1) ++ PutUint32 (len data) ++ seg3).
  assert (Lc : len c = len data + len seg1 + 36).
  { unfold c, len. rewrite !length_app. lia. }
  assert (Lh1 : len h1 = len data + len seg1 + 36).
  { unfold h1, len. rewrite !length_app. lia. }
  assert (Lh2 : len h2 = len data + len seg1 + 36).
  { unfold h2, len, PutUint32. rewrite !length_app, be_bytes_length. lia. }
  assert (H0 : 0 <= len data /\ 0 <= len seg1) by (unfold len; lia).
  assert (C1 : copy_at c 0 data = h1).
  { change (copy_at c 0 data)
      with (copy_at ([] ++ seg0 ++ seg1 ++ seg2 ++ seg3) (length (@nil Z)) data).
    by rewrite copy_at_middle by lia. }
  assert (C2 : copy_at h1 (Z.to_nat (len h1 - HASH_SIZE - FSIZE_LEN))
                 (PutUint32 (uint32_wrap (len data))) = h2).
  { replace (Z.to_nat (len h1 - HASH_SIZE - FSIZE_LEN))
      with (length (data ++ seg1))
      by (rewrite Lh1, length_app; unfold HASH_SIZE, sha256.Size, FSIZE_LEN, len; lia).
    unfold h1. rewrite (app_assoc data seg1).
    rewrite copy_at_middle
      by (unfold PutUint32; rewrite be_bytes_length; lia).
    by rewrite uint32_wrap_small by lia. }
  assert (C3 : copy_at h2 (Z.to_nat (len h2 - HASH_SIZE)) (sha256.Sum256 data)
               = data ++ seg1 ++ PutUint32 (len data) ++ sha256.Sum256 data).
  { replace (Z.to_nat (len h2 - HASH_SIZE))
      with (length ((data ++ seg1) ++ PutUint32 (len data)))
      by (rewrite Lh2, !length_app; unfold PutUint32;
          rewrite be_bytes_length; unfold HASH_SIZE, sha256.Size, len; lia).
    unfold h2. rewrite (app_assoc (data ++ seg1)).
    rewrite <- (app_nil_r seg3).
    rewrite copy_at_middle by (rewrite Sum256_length; lia).
    by rewrite app_nil_r, <- !app_assoc. }
  assert (P : slice h2 0 (len data) = Ok data).
  { rewrite slice_Ok by lia. f_equal. unfold h2.
    rewrite <- !app_assoc. cbn [Z.to_nat drop].
    apply take_app_length'. unfold len. lia. }
  unfold fillEnvelope.
  rewrite (slice_Ok c 0 (len data)) by lia. cbn [mbind result_bind].
  rewrite C1.
  rewrite (slice_Ok h1 (len h1 - HASH_SIZE - FSIZE_LEN))
    by (unfold HASH_SIZE, sha256.Size, FSIZE_LEN; lia).
  cbn [mbind result_bind]. rewrite C2.
  destruct (doHash p).
  - rewrite P. cbn [mbind result_bind].
    rewrite (slice_Ok h2 (len h2 - HASH_SIZE))
      by (unfold HASH_SIZE, sha256.Size; lia).
    cbn [mbind result_bind]. by rewrite C3.
  - unfold h2. by rewrite <- app_assoc.
Qed.

(** The envelope encodeImage builds: the payload, the carrier bytes it
    leaves alone, the length, and the hash or the carrier bytes there. *)
Lemma buildEnvelope_layout p i0 data :
  wf_image i0 ->
  let cap := (Dx i0 * Dy i0 * 3) / 8 in
  len data < 2 ^ 32 ->
  (if nonempty (keyFile p) then len data + 16 + 256 else len data + 36) <= cap ->
  exists ibw carrier,
    NewImageByteWriter i0 = Ok ibw /\ capacity ibw = cap /\
    GetHiddenBytesFromImage i0 = Ok carrier /\ len carrier = cap /\
    bytes_ok carrier = true /\
    buildEnvelope p i0 data
    = Ok (ibw, data
               ++ take (Z.to_nat (cap - 36 - len data)) (drop (length data) carrier)
               ++ PutUint32 (len data)
               ++ (if doHash p then sha256.Sum256 data
                   else drop (Z.to_nat (cap - 32)) carrier)).
Proof.
  intros Hwf cap Hsz Hreq.
  destruct (NewImageByteWriter_sync i0 Hwf) as (ibw & Hnew & _ & _ & _ & Hcap).
  destruct (GetHiddenBytes_ok i0 Hwf) as (carrier & Hget & Hlen & Hok).
  fold cap in Hcap, Hlen.
  exists ibw, carrier. repeat split; try assumption.
  assert (H0 : 0 <= len data) by (unfold len; lia).
  assert (H36 : len data + 36 <= cap) by (destruct (nonempty (keyFile p)); lia).
  unfold buildEnvelope. rewrite Hnew. cbn [mbind result_bind].
  replace ((len data <? 0) || (2 ^ 32 - 1 <? len data)) with false
    by (symmetry; apply orb_false_iff; split; apply Z.ltb_ge; lia).
  assert (Hchk : forall required, required <= cap ->
            (Capacity ibw <? required) = false).
  { intros r Hr. apply Z.ltb_ge. unfold Capacity. lia. }
  assert (Hfill : fillEnvelope p carrier data
                  = Ok (data
                        ++ take (Z.to_nat (cap - 36 - len data))
                             (drop (length data) carrier)
                        ++ PutUint32 (len data)
                        ++ (if doHash p then sha256.Sum256 data
                            else drop (Z.to_nat (cap - 32)) carrier))).
  { rewrite (segments carrier (length data) (length carrier)) at 1
      by (unfold len in *; lia).
    replace (length carrier - 36 - length data)%nat
      with (Z.to_nat (cap - 36 - len data)) by (unfold len in *; lia).
    replace (length carrier - 32)%nat with (Z.to_nat (cap - 32))
      by (unfold len in *; lia).
    apply fillEnvelope_segments; try exact Hsz.
    - rewrite length_take. unfold len in *. lia.
    - rewrite length_take, length_drop. unfold len in *. lia.
    - rewrite length_drop. unfold len in *. lia. }
  destruct (nonempty (keyFile p)); cbn [mbind result_bind calculateRSAOverhead];
    unfold gcmOverhead, RSA_SIZE, HASH_SIZE, sha256.Size, FSIZE_LEN;
    rewrite Hchk by lia; rewrite Hget; cbn [mbind result_bind];
    rewrite Hfill; reflexivity.
Qed.

End Envelope.

(* ===================================================================== *)
(** ** The plain pipeline *)
(* ===================================================================== *)

Section PlainPipeline.

Context `{RS : RandSource} `{CR : Crypto}.

Lemma plainEnvelope_length p carrier data :
  len data + 36 <= len carrier ->
  len (plainEnvelope p carrier data) = len carrier.
Proof.
  intros H. unfold plainEnvelope, len in *.
  rewrite !length_app, length_take, length_drop.
  unfold PutUint32. rewrite be_bytes_length.
  destruct (doHash p); rewrite ?Sum256_length, ?length_drop; lia.
Qed.

Lemma plainEnvelope_bytes_ok p carrier data :
  bytes_ok carrier = true -> bytes_ok data = true ->
  bytes_ok (plainEnvelope p carrier data) = true.
Proof.
  intros Hc Hd. unfold plainEnvelope. rewrite !bytes_ok_app, Hd.
  rewrite bytes_ok_take by (by apply bytes_ok_drop).
  unfold PutUint32. rewrite be_bytes_ok.
  destruct (doHash p); [by rewrite Sum256_bytes_ok|].
  by rewrite bytes_ok_drop.
Qed.

Lemma bytes_ok_lookup l :
  bytes_ok l = true <-> forall k b, l !! k = Some b -> is_byte b = true.
Proof.
  unfold bytes_ok. rewrite forallb_forall. split.
  - intros H k b Hk. apply H. apply list_elem_of_In.
    eapply list_elem_of_lookup_2; eauto.
  - intros H b Hb. apply list_elem_of_In, list_elem_of_lookup_1 in Hb as [k Hk].
    eauto.
Qed.

Lemma shuffled_bytes_ok seed buf shuffled :
  bytes_ok buf = true -> shuffleRounds seed buf = Ok shuffled ->
  bytes_ok shuffled = true.
Proof.
  intros Hb Hs.
  destruct (shuffleRounds_tracks seed buf) as (data & idx & Hd & _ & Ht & _).
  rewrite Hs in Hd. injection Hd as <-. destruct Ht as (_ & _ & Hk).
  apply bytes_ok_lookup. intros k b Hkb. rewrite Hk in Hkb.
  destruct (idx !! k) as [v|]; [simpl in Hkb|discriminate].
  eapply bytes_ok_lookup; eauto.
Qed.

(** A plain encode succeeds; the image it leaves holds the envelope, or
    its shuffle when a seed is given. *)
Lemma encodeImage_plain p i0 ext data :
  wf_image i0 -> bytes_ok data = true -> nonempty (keyFile p) = false ->
  len data < 2 ^ 32 -> len data + 36 <= (Dx i0 * Dy i0 * 3) / 8 ->
  exists carrier written i1,
    GetHiddenBytesFromImage i0 = Ok carrier /\
    len carrier = (Dx i0 * Dy i0 * 3) / 8 /\
    (if nonempty (shuffleSeed p)
     then shuffleRounds (shuffleSeed p) (plainEnvelope p carrier data)
     else Ok (plainEnvelope p carrier data)) = Ok written /\
    encodeImage p i0 ext data = Ok i1 /\
    wf_image i1 /\ Dx i1 = Dx i0 /\ Dy i1 = Dy i0 /\
    GetHiddenBytesFromImage i1 = Ok written.
Proof.
  intros Hwf Hd Hk Hsz Hfit.
  destruct (buildEnvelope_layout p i0 data Hwf Hsz) as
    (ibw & carrier & Hnew & Hcap & Hget & Hlen & Hok & Hbuild).
  { rewrite Hk. exact Hfit. }
  cbv zeta in Hbuild. rewrite <- Hlen in Hbuild. fold (plainEnvelope p carrier data) in Hbuild.
  set (env := plainEnvelope p carrier data) in *.
  assert (Lenv : len env = len carrier)
    by (apply plainEnvelope_length; lia).
  assert (Benv : bytes_ok env = true) by (by apply plainEnvelope_bytes_ok).
  assert (exists written,
             (if nonempty (shuffleSeed p) then shuffleRounds (shuffleSeed p) env
              else Ok env) = Ok written /\
             len written = len env /\ bytes_ok written = true)
    as (written & Hw & Lw & Bw).
  { destruct (nonempty (shuffleSeed p)).
    - destruct (shuffle_inverted (shuffleSeed p) env) as (sh & Hs & Ls & _).
      exists sh. split; [exact Hs|]. split; [unfold len; lia|].
      eapply shuffled_bytes_ok; eauto.
    - exists env. auto. }
  destruct (write_then_extract i0 ibw written Hwf Hnew) as
    (ibw' & Hrun & Hwf' & HDx & HDy & Hget'); [lia|exact Bw|].
  exists carrier, written, (im ibw').
  repeat split; try assumption; try apply Hwf'.
  unfold encodeImage. rewrite Hbuild. cbn [mbind result_bind fst snd].
  rewrite Hk. cbn [mbind result_bind]. rewrite Hw. cbn [mbind result_bind].
  rewrite Hrun. reflexivity.
Qed.

End PlainPipeline.

(* ===================================================================== *)
(** ** Parsing the plain envelope (C4) *)
(* ===================================================================== *)

Section Parse.

Lemma be_value_snoc l b : be_value (l ++ [b]) = be_value l * 256 + b.
Proof. unfold be_value. by rewrite fold_left_app. Qed.

Lemma be_value_bound l :
  bytes_ok l = true -> 0 <= be_value l < 256 ^ Z.of_nat (length l).
Proof.
  induction l as [|b l IH] using rev_ind; intros H.
  - simpl. unfold be_value. simpl. lia.
  - rewrite bytes_ok_app in H. apply andb_true_iff in H as [Hl Hb].
    apply bytes_ok_cons in Hb as [Hb _]. specialize (IH Hl).
    rewrite be_value_snoc, length_app. simpl length.
    replace (Z.of_nat (length l + 1)) with (Z.of_nat (length l) + 1) by lia.
    rewrite Z.pow_add_r by lia. lia.
Qed.

Lemma lengthField_bound buf :
  bytes_ok buf = true -> 0 <= lengthField buf < 2 ^ 32.
Proof.
  intros H. unfold lengthField.
  set (f := take 4 (drop _ buf)).
  assert (Hf : bytes_ok f = true) by (by apply bytes_ok_take, bytes_ok_drop).
  assert (Lf : (length f <= 4)%nat) by (unfold f; rewrite length_take; lia).
  pose proof (be_value_bound f Hf) as B.
  assert (256 ^ Z.of_nat (length f) <= 256 ^ 4)
    by (apply Z.pow_le_mono_r; lia).
  change (256 ^ 4) with (2 ^ 32) in *. lia.
Qed.

(** parsePlain, with its slices resolved. *)
Lemma parsePlain_unfold p buf :
  36 <= len buf ->
  parsePlain p buf
  = if lengthField buf =? 0 then Err ErrLengthZero
    else if uint32_wrap (len buf - 36) <? lengthField buf
         then Err ErrLengthTooLarge
         else
           payload ← slice buf 0 (lengthField buf);
           if doHash p then
             if bool_decide (sha256.Sum256 payload
                             = drop (Z.to_nat (len buf - 32)) buf)
             then Ok payload else Err ErrHashVerification
           else Ok payload.
Proof.
  intros H36. unfold parsePlain, HASH_SIZE, sha256.Size, FSIZE_LEN.
  replace (len buf - 32 - 4) with (len buf - 36) by lia.
  rewrite (slice_Ok buf (len buf - 36)) by lia. cbn [mbind result_bind].
  replace (Z.to_nat (len buf - 36 + 4 - (len buf - 36))) with 4%nat by lia.
  unfold Uint32. rewrite length_take, length_drop.
  replace (4 <=? 4 `min` (length buf - Z.to_nat (len buf - 36)))%nat with true
    by (symmetry; apply Nat.leb_le; unfold len in *; lia).
  cbn [mbind result_bind]. rewrite take_take. change (4 `min` 4)%nat with 4%nat.
  fold (lengthField buf).
  destruct (lengthField buf =? 0); [reflexivity|].
  destruct (uint32_wrap (len buf - 36) <? lengthField buf); [reflexivity|].
  rewrite slice_suffix by lia.
  destruct (slice buf 0 (lengthField buf)), (doHash p);
    cbn [mbind result_bind]; try reflexivity.
  destruct (bool_decide _); reflexivity.
Qed.

End Parse.

(** C4 (as amended). For every buffer of capacity >= 36 bytes: parsing
    fails when the length field at capacity - 36 is zero; it fails when the
    field exceeds capacity - 36; and when the field equals capacity - 36
    and is not zero, parsing goes on to the hash verification (when hashing
    is on) and the output of the first capacity - 36 bytes. *)
Theorem parse_boundary (p : Program) (buf : list Z) :
  bytes_ok buf = true -> 36 <= len buf ->
  (lengthField buf = 0 -> parsePlain p buf = Err ErrLengthZero) /\
  (len buf - 36 < lengthField buf -> parsePlain p buf = Err ErrLengthTooLarge) /\
  (lengthField buf = len buf - 36 -> lengthField buf <> 0 ->
   parsePlain p buf
   = if doHash p then
       if bool_decide (sha256.Sum256 (take (Z.to_nat (len buf - 36)) buf)
                       = drop (Z.to_nat (len buf - 32)) buf)
       then Ok (take (Z.to_nat (len buf - 36)) buf)
       else Err ErrHashVerification
     else Ok (take (Z.to_nat (len buf - 36)) buf)).
Proof.
  intros Hok H36. rewrite (parsePlain_unfold p buf H36).
  pose proof (lengthField_bound buf Hok) as HL.
  split; [|split].
  - intros ->. reflexivity.
  - intros Hgt.
    replace (lengthField buf =? 0) with false by (symmetry; apply Z.eqb_neq; lia).
    replace (uint32_wrap (len buf - 36) <? lengthField buf) with true;
      [reflexivity|].
    symmetry. apply Z.ltb_lt. unfold uint32_wrap.
    pose proof (Z.mod_le (len buf - 36) (2 ^ 32) ltac:(lia) ltac:(lia)). lia.
  - intros He Hne.
    replace (lengthField buf =? 0) with false by (symmetry; apply Z.eqb_neq; lia).
    replace (uint32_wrap (len buf - 36) <? lengthField buf) with false.
    + rewrite He, slice_prefix by lia. reflexivity.
    + symmetry. apply Z.ltb_ge. rewrite uint32_wrap_small; lia.
Qed.

Lemma parse_boundary_witness :
  (lengthField buf_accept = 0 ->
   parsePlain (plain false "") buf_accept = Err ErrLengthZero) /\
  (len buf_accept - 36 < lengthField buf_accept ->
   parsePlain (plain false "") buf_accept = Err ErrLengthTooLarge) /\
  (lengthField buf_accept = len buf_accept - 36 ->
   lengthField buf_accept <> 0 ->
   parsePlain (plain false "") buf_accept
   = Ok (take (Z.to_nat (len buf_accept - 36)) buf_accept)).
Proof.
  apply (parse_boundary (plain false "") buf_accept).
  - reflexivity.
  - vm_compute. discriminate.
Defined.

(** An extracted buffer of exactly 36 bytes whose length field is zero:
    the field equals capacity - 36, and parsing fails. *)
Lemma parse_boundary_counterexample :
  GetHiddenBytesFromImage (img_n 96 6) = Ok (repeat 0 36) /\
  lengthField (repeat 0 36) = len (repeat 0 36) - 36 /\
  parsePlain (plain true "") (repeat 0 36) = Err ErrLengthZero /\
  parsePlain (plain false "") (repeat 0 36) = Err ErrLengthZero.
Proof. vm_compute. auto. Qed.

(* ===================================================================== *)
(** ** The plain round trip (C1) and the hash field (C8) *)
(* ===================================================================== *)

Section EnvelopeFields.

Variable p : Program.
Variables carrier data : list Z.
Hypothesis Hfit : len data + 36 <= len carrier.

Local Abbreviation env := (plainEnvelope p carrier data).

Lemma plainEnvelope_split :
  env = (data ++ take (Z.to_nat (len carrier - 36 - len data))
                   (drop (length data) carrier))
        ++ PutUint32 (len data)
        ++ (if doHash p then sha256.Sum256 data
            else drop (Z.to_nat (len carrier - 32)) carrier) /\
  length (data ++ take (Z.to_nat (len carrier - 36 - len data))
                    (drop (length data) carrier))
  = Z.to_nat (len carrier - 36).
Proof.
  split.
  - unfold plainEnvelope. cbv zeta. by rewrite <- app_assoc.
  - rewrite length_app, length_take, length_drop. unfold len in *. lia.
Qed.

Lemma plainEnvelope_lengthField :
  len data < 2 ^ 32 -> lengthField env = len data.
Proof.
  intros Hsz. unfold lengthField.
  rewrite (plainEnvelope_length p carrier data Hfit).
  destruct plainEnvelope_split as [-> L].
  rewrite drop_app_length' by (symmetry; exact L).
  rewrite take_app_length' by (unfold PutUint32; by rewrite be_bytes_length).
  apply be_value_be_bytes_4. unfold len in *. lia.
Qed.

Lemma plainEnvelope_hashField :
  drop (Z.to_nat (len env - 32)) env
  = if doHash p then sha256.Sum256 data
    else drop (Z.to_nat (len carrier - 32)) carrier.
Proof.
  rewrite (plainEnvelope_length p carrier data Hfit).
  destruct plainEnvelope_split as [-> L].
  rewrite app_assoc. apply drop_app_length'.
  rewrite length_app, L. unfold PutUint32. rewrite be_bytes_length.
  unfold len in *. lia.
Qed.

Lemma plainEnvelope_payload :
  take (length data) env = data.
Proof. unfold plainEnvelope. cbv zeta. by apply take_app_length'. Qed.

Lemma parsePlain_envelope :
  1 <= len data -> len carrier - 36 < 2 ^ 32 ->
  parsePlain p env = Ok data.
Proof.
  intros H1 H32.
  pose proof (plainEnvelope_length p carrier data Hfit) as Le.
  rewrite parsePlain_unfold by lia.
  rewrite plainEnvelope_lengthField by lia.
  replace (len data =? 0) with false by (symmetry; apply Z.eqb_neq; lia).
  replace (uint32_wrap (len env - 36) <? len data) with false
    by (symmetry; apply Z.ltb_ge; rewrite uint32_wrap_small; lia).
  rewrite slice_prefix by lia. cbn [mbind result_bind].
  assert (T : take (Z.to_nat (len data)) env = data).
  { unfold len. rewrite Nat2Z.id. apply plainEnvelope_payload. }
  rewrite T.
  destruct (doHash p) eqn:Eh; [|reflexivity].
  pose proof plainEnvelope_hashField as Hh. rewrite Eh in Hh.
  rewrite Hh. rewrite bool_decide_eq_true_2 by reflexivity. reflexivity.
Qed.

End EnvelopeFields.

(** C1 (as amended). For every supported carrier whose capacity is below
    2^32 + 36, every generator, every hash setting and every seed (none
    included): encoding without a key file a payload of 1 <= len(P) <=
    capacity - 36 bytes succeeds, and decoding the image it leaves with
    the same settings emits exactly the bytes of P. *)
Theorem plain_round_trip `{RS : RandSource} `{CR : Crypto}
    (p : Program) (i0 : Image) (ext : string) (data : list Z) :
  wf_image i0 -> bytes_ok data = true ->
  nonempty (keyFile p) = false ->
  1 <= len data -> len data + 36 <= (Dx i0 * Dy i0 * 3) / 8 ->
  (Dx i0 * Dy i0 * 3) / 8 - 36 < 2 ^ 32 ->
  exists i1,
    encodeImage p i0 ext data = Ok i1 /\
    decodeImage p i1 = Ok data.
Proof.
  intros Hwf Hd Hk H1 Hfit H32.
  destruct (encodeImage_plain p i0 ext data Hwf Hd Hk) as
    (carrier & written & i1 & Hget & Hlen & Hw & Henc & Hwf1 & _ & _ & Hget1);
    [lia|lia|].
  exists i1. split; [exact Henc|].
  unfold decodeImage. rewrite Hget1. cbn [mbind result_bind]. rewrite Hk.
  assert (Hun : (if nonempty (shuffleSeed p)
                 then unshuffle (shuffleSeed p) written else Ok written)
                = Ok (plainEnvelope p carrier data)).
  { destruct (nonempty (shuffleSeed p)); [|exact (eq_sym Hw)].
    destruct (shuffle_inverted (shuffleSeed p) (plainEnvelope p carrier data))
      as (sh & Hs & _ & Hu).
    rewrite Hw in Hs. injection Hs as <-. exact Hu. }
  rewrite Hun. cbn [mbind result_bind].
  apply parsePlain_envelope; lia.
Qed.

Lemma wf_img_n n v :
  0 <= n -> n * 3 < 2 ^ 63 -> wf_image (img_n n v).
Proof.
  intros H0 Hn. unfold wf_image, img_n, len. simpl.
  rewrite repeat_length. repeat split; lia.
Qed.

Lemma plain_round_trip_witness :
  exists i1,
    encodeImage (RS := lcg) (CR := toy_crypto)
      (plain true "abc") (img_n 110 7) ".txt" [72; 105; 33] = Ok i1 /\
    decodeImage (RS := lcg) (CR := toy_crypto) (plain true "abc") i1
    = Ok [72; 105; 33].
Proof.
  apply (plain_round_trip (plain true "abc") (img_n 110 7) ".txt" [72; 105; 33]).
  - apply wf_img_n; lia.
  - reflexivity.
  - reflexivity.
  - unfold len; simpl; lia.
  - vm_compute. discriminate.
  - vm_compute. reflexivity.
Defined.

(** The empty payload fits a carrier of 36 bytes and is encoded, with
    hashing on or off; decoding the result fails on its zero length. *)
Lemma plain_round_trip_counterexample :
  len (@nil Z) <= (Dx (img_n 96 7) * Dy (img_n 96 7) * 3) / 8 - 36 /\
  (exists i1,
     encodeImage (RS := lcg) (CR := toy_crypto)
       (plain true "") (img_n 96 7) ".txt" [] = Ok i1 /\
     decodeImage (RS := lcg) (CR := toy_crypto) (plain true "") i1
     = Err ErrLengthZero) /\
  (exists i1,
     encodeImage (RS := lcg) (CR := toy_crypto)
       (plain false "abc") (img_n 96 7) ".txt" [] = Ok i1 /\
     decodeImage (RS := lcg) (CR := toy_crypto) (plain false "abc") i1
     = Err ErrLengthZero).
Proof.
  split; [vm_compute; discriminate|].
  split; eexists; (split; [vm_compute; reflexivity|]); vm_compute; reflexivity.
Qed.

(** C8 (as amended). In the envelope a plain encode builds, which has
    capacity bytes, the 32 bytes at offset capacity - 32 are SHA-256 of the
    payload when hashing is enabled; when it is disabled they are the
    bytes the carrier held there before the encode. *)
Theorem envelope_hash_field (p : Program) (i0 : Image) (data : list Z) :
  wf_image i0 -> nonempty (keyFile p) = false ->
  len data < 2 ^ 32 -> len data + 36 <= (Dx i0 * Dy i0 * 3) / 8 ->
  let cap := (Dx i0 * Dy i0 * 3) / 8 in
  exists ibw carrier env,
    GetHiddenBytesFromImage i0 = Ok carrier /\
    buildEnvelope p i0 data = Ok (ibw, env) /\
    len env = cap /\
    drop (Z.to_nat (cap - 32)) env
    = if doHash p then sha256.Sum256 data
      else drop (Z.to_nat (cap - 32)) carrier.
Proof.
  intros Hwf Hk Hsz Hfit cap.
  destruct (buildEnvelope_layout p i0 data Hwf Hsz) as
    (ibw & carrier & Hnew & Hcap & Hget & Hlen & Hok & Hbuild).
  { rewrite Hk. exact Hfit. }
  cbv zeta in Hbuild. fold cap in Hlen, Hbuild. rewrite <- Hlen in Hbuild |- *.
  fold (plainEnvelope p carrier data) in Hbuild.
  exists ibw, carrier, (plainEnvelope p carrier data).
  assert (Hfit' : len data + 36 <= len carrier) by (fold cap in Hfit; lia).
  pose proof (plainEnvelope_length p carrier data Hfit') as Le.
  pose proof (plainEnvelope_hashField p carrier data Hfit') as Hh.
  rewrite Le in Hh. auto.
Qed.

Lemma envelope_hash_field_witness :
  exists ibw carrier env,
    GetHiddenBytesFromImage (img_n 99 7) = Ok carrier /\
    buildEnvelope (plain true "") (img_n 99 7) [65] = Ok (ibw, env) /\
    len env = (Dx (img_n 99 7) * Dy (img_n 99 7) * 3) / 8 /\
    drop (Z.to_nat ((Dx (img_n 99 7) * Dy (img_n 99 7) * 3) / 8 - 32)) env
    = if doHash (plain true "") then sha256.Sum256 [65]
      else drop (Z.to_nat ((Dx (img_n 99 7) * Dy (img_n 99 7) * 3) / 8 - 32))
             carrier.
Proof.
  apply (envelope_hash_field (plain true "") (img_n 99 7) [65]).
  - apply wf_img_n; lia.
  - reflexivity.
  - vm_compute. reflexivity.
  - vm_compute. discriminate.
Defined.

(** With hashing disabled the field is neither zero nor absent: on a
    carrier whose hidden bytes are all 0xFF it stays 0xFF, in the envelope
    and in the image the encode leaves. *)
Lemma envelope_hash_field_counterexample :
  exists ibw env i1,
    buildEnvelope (plain false "") (img_n 99 7) [65] = Ok (ibw, env) /\
    len env = 37 /\
    drop 5 env = repeat 255 32 /\
    encodeImage (RS := lcg) (CR := toy_crypto)
      (plain false "") (img_n 99 7) ".txt" [65] = Ok i1 /\
    GetHiddenBytesFromImage i1 = Ok env.
Proof.
  do 3 eexists. split; [vm_compute; reflexivity|].
  split; [reflexivity|]. split; [reflexivity|].
  split; [vm_compute; reflexivity|]. vm_compute. reflexivity.
Qed.

(* ===================================================================== *)
(** ** The tail of the encrypted mode (C5) *)
(* ===================================================================== *)

Section Tail.

Context `{CR : Crypto}.

Lemma copy_at_length {A} (dst src : list A) n :
  (n <= length dst)%nat -> length (copy_at dst n src) = length dst.
Proof.
  intros H. unfold copy_at. rewrite !length_app, !length_take, length_drop. lia.
Qed.

Lemma sealAndTail_layout data ext hl k nn :
  randomKey = Ok k -> randomNonce = Ok nn -> length hl = 36%nat ->
  exists aesResult lenField,
    length lenField = 4%nat /\
    sealAndTail data ext hl
    = Ok (aesResult,
          (k ++ nn ++ PutUint64 (now mod 2 ^ 64)
             ++ copy_at (repeat 0 16) 0 (bytes_of_string ext)
             ++ lenField ++ drop 4 hl,
           lenField ++ drop 4 hl)).
Proof.
  intros Hk Hn Hl. pose proof (randomNonce_length nn Hn) as Ln.
  unfold sealAndTail. rewrite Hk, Hn. cbn [mbind result_bind].
  set (sealed := gcmSeal k nn data).
  assert (L : len (nn ++ sealed) = 12 + len sealed)
    by (unfold len; rewrite length_app; lia).
  unfold gcmNonceSize.
  rewrite (slice_Ok (nn ++ sealed) 0 12) by (unfold len in *; lia).
  cbn [mbind result_bind].
  rewrite (slice_suffix (nn ++ sealed) 12) by (unfold len in *; lia).
  cbn [mbind result_bind].
  rewrite (slice_Ok hl 0 4) by (unfold len; lia). cbn [mbind result_bind].
  change (Z.to_nat (12 - 0)) with 12%nat. change (Z.to_nat 0) with 0%nat.
  change (Z.to_nat 12) with 12%nat. change (drop 0 (nn ++ sealed)) with (nn ++ sealed).
  rewrite take_app_length' by (symmetry; exact Ln).
  rewrite drop_app_length' by (symmetry; exact Ln).
  exists sealed, (PutUint32 (uint32_wrap (len sealed))).
  split; [apply be_bytes_length|].
  assert (C : copy_at hl 0 (PutUint32 (uint32_wrap (len sealed)))
              = PutUint32 (uint32_wrap (len sealed)) ++ drop 4 hl).
  { unfold copy_at. change (take 0 hl) with (@nil Z). cbn [app].
    rewrite take_ge by (rewrite PutUint32_length; lia).
    by rewrite PutUint32_length. }
  rewrite C. reflexivity.
Qed.

(** A successful encode with a key file has encrypted exactly
    [tailPlaintext] with the loaded key. *)
Lemma encodeImage_tail `{RS : RandSource} p i0 ext data i1 :
  nonempty (keyFile p) = true ->
  encodeImage p i0 ext data = Ok i1 ->
  exists pub rsaData enctail,
    LoadRSAPublicKey (keyFile p) = Ok pub /\
    tailPlaintext p i0 ext data = Ok rsaData /\
    EncryptPKCS1v15 pub rsaData = Ok enctail.
Proof.
  intros Hkey H. unfold encodeImage in H. unfold tailPlaintext.
  destruct (buildEnvelope p i0 data) as [e| | |]; try discriminate.
  cbn [mbind result_bind fst snd] in H |- *. rewrite Hkey in H.
  unfold encryptEnvelope, encryptDataWithRSA in H.
  destruct (slice (snd e) 0 (len data)) as [payload| | |]; try discriminate.
  cbn [mbind result_bind] in H |- *.
  destruct (slice (snd e) _ (len (snd e))) as [hl| | |]; try discriminate.
  cbn [mbind result_bind] in H |- *.
  destruct (LoadRSAPublicKey (keyFile p)) as [pub| | |]; try discriminate.
  cbn [mbind result_bind] in H |- *.
  destruct (sealAndTail payload ext hl) as [t| | |]; try discriminate.
  cbn [mbind result_bind] in H |- *.
  destruct (EncryptPKCS1v15 pub (fst (snd t))) as [enctail| | |] eqn:E;
    try discriminate.
  exists pub, (fst (snd t)), enctail. auto.
Qed.

End Tail.

(** C5 (as amended). For every encode with a key file that fits the
    capacity, under every collaborator whose key loads and whose random
    reads succeed, the RSA tail plaintext has 104 bytes and its last 32
    bytes, the hash field, are SHA-256 of the plaintext payload when
    hashing is enabled; when the hash-disable flag is set they are the
    bytes the carrier held at offset capacity - 32. *)
Theorem encrypted_tail_hash `{CR : Crypto}
    (p : Program) (i0 : Image) (ext : string) (data : list Z)
    (pub : PublicKey) (k nn : list Z) :
  wf_image i0 -> nonempty (keyFile p) = true ->
  len data < 2 ^ 32 ->
  len data + 16 + 256 <= (Dx i0 * Dy i0 * 3) / 8 ->
  LoadRSAPublicKey (keyFile p) = Ok pub ->
  randomKey = Ok k -> randomNonce = Ok nn ->
  let cap := (Dx i0 * Dy i0 * 3) / 8 in
  exists carrier rsaData,
    GetHiddenBytesFromImage i0 = Ok carrier /\
    tailPlaintext p i0 ext data = Ok rsaData /\
    length rsaData = 104%nat /\
    drop 72 rsaData
    = if doHash p then sha256.Sum256 data
      else drop (Z.to_nat (cap - 32)) carrier.
Proof.
  intros Hwf Hkey Hsz Hfit Hpub Hk Hn cap.
  destruct (buildEnvelope_layout p i0 data Hwf Hsz) as
    (ibw & carrier & Hnew & Hcap & Hget & Hlen & Hok & Hbuild).
  { rewrite Hkey. exact Hfit. }
  cbv zeta in Hbuild. fold cap in Hlen, Hbuild, Hfit.
  rewrite <- Hlen in Hbuild |- *.
  fold (plainEnvelope p carrier data) in Hbuild.
  set (env := plainEnvelope p carrier data) in *.
  assert (Hfit' : len data + 36 <= len carrier) by lia.
  pose proof (plainEnvelope_length p carrier data Hfit') as Le. fold env in Le.
  destruct (plainEnvelope_split p carrier data Hfit') as [Es L]. fold env in Es.
  set (hashField := if doHash p then sha256.Sum256 data
                    else drop (Z.to_nat (len carrier - 32)) carrier) in *.
  assert (Lh : length hashField = 32%nat).
  { unfold hashField. destruct (doHash p);
      [apply Sum256_length|rewrite length_drop; unfold len in *; lia]. }
  set (hl := PutUint32 (len data) ++ hashField).
  assert (Lhl : length hl = 36%nat).
  { unfold hl, PutUint32. rewrite length_app, be_bytes_length. lia. }
  assert (H0 : 0 <= len data) by (unfold len; lia).
  assert (Shl : slice env (len env - HASH_SIZE - FSIZE_LEN) (len env) = Ok hl).
  { unfold HASH_SIZE, sha256.Size, FSIZE_LEN.
    rewrite slice_suffix by lia. f_equal. rewrite Es at 2.
    apply drop_app_length'. rewrite L, Le. lia. }
  destruct (sealAndTail_layout data ext hl k nn Hk Hn Lhl)
    as (aesResult & lenField & Lf & Hseal).
  exists carrier. eexists. split; [exact Hget|]. split.
  - unfold tailPlaintext. rewrite Hbuild. cbn [mbind result_bind snd].
    rewrite slice_prefix by (unfold len in *; lia). cbn [mbind result_bind].
    rewrite Shl. cbn [mbind result_bind]. rewrite Hpub.
    cbn [mbind result_bind].
    replace (take (Z.to_nat (len data)) env) with data
      by (symmetry; unfold len; rewrite Nat2Z.id;
          apply (plainEnvelope_payload p carrier data)).
    rewrite Hseal. reflexivity.
  - pose proof (randomKey_length k Hk) as Lk.
    pose proof (randomNonce_length nn Hn) as Ln.
    assert (Ld : drop 4 hl = hashField).
    { unfold hl. apply drop_app_length'. unfold PutUint32.
      by rewrite be_bytes_length. }
    rewrite Ld. cbn [fst snd]. split.
    + rewrite !length_app, copy_at_length by (simpl; lia).
      unfold PutUint64. rewrite be_bytes_length, repeat_length. lia.
    + rewrite !app_assoc. apply drop_app_length'.
      rewrite !length_app, copy_at_length by (simpl; lia).
      unfold PutUint64. rewrite be_bytes_length, repeat_length. lia.
Qed.

Lemma encrypted_tail_hash_witness :
  exists carrier rsaData,
    GetHiddenBytesFromImage (img_n 728 7) = Ok carrier /\
    tailPlaintext (CR := toy_crypto) (keyed true) (img_n 728 7) ".txt" [65]
    = Ok rsaData /\
    length rsaData = 104%nat /\
    drop 72 rsaData
    = if doHash (keyed true) then sha256.Sum256 [65]
      else drop (Z.to_nat ((Dx (img_n 728 7) * Dy (img_n 728 7) * 3) / 8 - 32))
             carrier.
Proof.
  apply (encrypted_tail_hash (CR := toy_crypto) (keyed true) (img_n 728 7)
           ".txt" [65] tt toy_key toy_nonce).
  - apply wf_img_n; lia.
  - reflexivity.
  - vm_compute. reflexivity.
  - vm_compute. discriminate.
  - reflexivity.
  - reflexivity.
  - reflexivity.
Defined.

(** With the hash-disable flag set and a key file, the encode succeeds
    and the hash field of the tail is what the carrier held (here 0xFF
    bytes), not SHA-256 of the payload. *)
Lemma encrypted_tail_hash_counterexample :
  exists i1 rsaData,
    encodeImage (RS := lcg) (CR := toy_crypto)
      (keyed false) (img_n 728 7) ".txt" [65] = Ok i1 /\
    tailPlaintext (CR := toy_crypto) (keyed false) (img_n 728 7) ".txt" [65]
    = Ok rsaData /\
    length rsaData = 104%nat /\
    drop 72 rsaData = repeat 255 32 /\
    drop 72 rsaData <> sha256.Sum256 [65].
Proof.
  do 2 eexists. split; [vm_compute; reflexivity|].
  split; [vm_compute; reflexivity|]. split; [reflexivity|].
  split; [reflexivity|]. vm_compute. discriminate.
Qed.

(* ===================================================================== *)
(** * Further properties of the code *)
(* ===================================================================== *)

(* ===================================================================== *)
(** ** bitwriter.go: packing order, Flush and the byte count *)
(* ===================================================================== *)

Section BitChunks.

Import bitwriter.

Lemma feed_eight pre bits :
  length bits = 8%nat ->
  feed (NewBitWriter pre) bits = mkBitWriter (pre ++ [bits_value bits]) 0 0.
Proof.
  intros H.
  do 8 (destruct bits as [|? bits]; [discriminate H|]).
  destruct bits; [|discriminate H].
  repeat match goal with b : bool |- _ => destruct b end; reflexivity.
Qed.

(** A whole number of bytes' worth of bits, fed at a byte boundary, ends
    at a boundary. *)
Lemma feed_aligned : forall m bits pre,
  length bits = (8 * m)%nat ->
  exists bs,
    length bs = m /\ feed (NewBitWriter pre) bits = mkBitWriter (pre ++ bs) 0 0.
Proof.
  induction m as [|m IH]; intros bits pre Hl.
  - destruct bits; [|discriminate]. exists []. by rewrite app_nil_r.
  - rewrite <- (take_drop 8 bits), feed_app.
    rewrite feed_eight by (rewrite length_take; lia).
    destruct (IH (drop 8 bits) (pre ++ [bits_value (take 8 bits)]))
      as (bs & Hbs & Hf); [rewrite length_drop; lia|].
    exists (bits_value (take 8 bits) :: bs). split; [simpl; lia|].
    change (mkBitWriter (pre ++ [bits_value (take 8 bits)]) 0 0)
      with (NewBitWriter (pre ++ [bits_value (take 8 bits)])).
    rewrite Hf. by rewrite <- app_assoc.
Qed.

(** The bytes of a stream are those of its first [8 * k] bits followed by
    those of the rest. *)
Lemma feed_split k s :
  (8 * k <= length s)%nat ->
  exists bs,
    length bs = k /\
    feed (NewBitWriter []) (take (8 * k) s) = mkBitWriter bs 0 0 /\
    inner (feed (NewBitWriter []) s)
    = bs ++ inner (feed (NewBitWriter []) (drop (8 * k) s)).
Proof.
  intros Hk.
  destruct (feed_aligned k (take (8 * k) s) [])
    as (bs & Hbs & Hf); [rewrite length_take; lia|].
  change ([] ++ bs) with bs in Hf.
  exists bs. split; [exact Hbs|]. split; [exact Hf|].
  rewrite <- (take_drop (8 * k) s) at 1. rewrite feed_app, Hf.
  pose proof (feed_prefix bs (drop (8 * k) s) (NewBitWriter [])) as Hp.
  cbn [inner currentByte currentPos NewBitWriter] in Hp.
  rewrite app_nil_r in Hp. rewrite Hp. reflexivity.
Qed.

(** Replacing the bits of the bytes [k, k + n) of a stream by those of
    [data] replaces these bytes and no other. *)
Lemma splice_extract s k data :
  bytes_ok data = true -> (8 * (k + length data) <= length s)%nat ->
  inner (feed (NewBitWriter [])
           (take (8 * k) s ++ flat_map byte_bits data
              ++ drop (8 * k + 8 * length data) s))
  = take k (inner (feed (NewBitWriter []) s)) ++ data
      ++ drop (k + length data) (inner (feed (NewBitWriter []) s)).
Proof.
  intros Hok Hl.
  destruct (feed_split k s) as (bs1 & Hl1 & Hf1 & Hc1); [lia|].
  destruct (feed_split (k + length data) s) as (bs2 & Hl2 & _ & Hc2); [lia|].
  rewrite feed_app, Hf1, feed_app, (feed_bytes data bs1 Hok).
  pose proof (feed_prefix (bs1 ++ data) (drop (8 * k + 8 * length data) s)
                (NewBitWriter [])) as Hp.
  cbn [inner currentByte currentPos NewBitWriter] in Hp.
  rewrite app_nil_r in Hp. rewrite Hp. cbn [inner].
  rewrite Hc1 at 1. rewrite take_app_length' by (symmetry; exact Hl1).
  rewrite Hc2 at 1. rewrite drop_app_length' by (symmetry; exact Hl2).
  replace (8 * (k + length data))%nat with (8 * k + 8 * length data)%nat by lia.
  by rewrite <- app_assoc.
Qed.

End BitChunks.

(** X1. Eight bits written to a BitWriter that stands at a byte boundary give
    one byte in the sink, after the bytes it held: the first bit written
    is bit 0 of that byte, the last one bit 7, and the writer is at a
    boundary again. *)
Theorem bitwriter_byte_lsb_first (pre : list Z) (bits : list bool) :
  length bits = 8%nat ->
  feed (bitwriter.NewBitWriter pre) bits
  = bitwriter.mkBitWriter (pre ++ [bits_value bits]) 0 0.
Proof. apply feed_eight. Qed.

Lemma bitwriter_byte_lsb_first_witness :
  feed (bitwriter.NewBitWriter [7])
       [true; false; true; true; false; false; true; false]
  = bitwriter.mkBitWriter [7; 77] 0 0.
Proof.
  apply (bitwriter_byte_lsb_first [7]
           [true; false; true; true; false; false; true; false]).
  reflexivity.
Defined.

(** X2. Fewer than eight bits written from a byte boundary leave the sink as
    it was: they are held in the writer until Flush, which emits them as
    one byte whose upper bits are zero (and a Flush at a boundary emits a
    zero byte). *)
Theorem bitwriter_flush_partial (pre : list Z) (bits : list bool) :
  (length bits < 8)%nat ->
  bitwriter.inner (feed (bitwriter.NewBitWriter pre) bits) = pre /\
  bitwriter.Flush (feed (bitwriter.NewBitWriter pre) bits)
  = bitwriter.mkBitWriter (pre ++ [bits_value bits]) 0 0.
Proof.
  intros H.
  do 8 (try (destruct bits as [|? bits]; [|simpl in H]));
    try (exfalso; lia);
    repeat match goal with b : bool |- _ => destruct b end;
    split; reflexivity.
Qed.

Lemma bitwriter_flush_partial_witness :
  bitwriter.inner (feed (bitwriter.NewBitWriter [7]) [true; true; false]) = [7] /\
  bitwriter.Flush (feed (bitwriter.NewBitWriter [7]) [true; true; false])
  = bitwriter.mkBitWriter [7; 3] 0 0.
Proof.
  apply (bitwriter_flush_partial [7] [true; true; false]). simpl. lia.
Defined.

(** X3. WriteBit only appends to the sink: after any number of bits the bytes
    the sink held are still in front, the number of bytes added is the
    number of bits, counted from the position the writer had, divided by
    eight, and the remainder is the new position. *)
Theorem bitwriter_appends (bw : bitwriter.BitWriter) (bits : list bool) :
  0 <= bitwriter.currentPos bw < 8 ->
  exists added,
    bitwriter.inner (feed bw bits) = bitwriter.inner bw ++ added /\
    len added = (bitwriter.currentPos bw + len bits) / 8 /\
    bitwriter.currentPos (feed bw bits)
    = (bitwriter.currentPos bw + len bits) mod 8.
Proof.
  intros Hp.
  pose proof (feed_prefix (bitwriter.inner bw) bits
                (bitwriter.mkBitWriter [] (bitwriter.currentByte bw)
                                       (bitwriter.currentPos bw))) as Hpre.
  cbn [bitwriter.inner bitwriter.currentByte bitwriter.currentPos] in Hpre.
  rewrite app_nil_r in Hpre.
  replace (bitwriter.mkBitWriter (bitwriter.inner bw) (bitwriter.currentByte bw)
             (bitwriter.currentPos bw)) with bw in Hpre by (by destruct bw).
  set (bw0 := bitwriter.mkBitWriter [] (bitwriter.currentByte bw)
                (bitwriter.currentPos bw)) in *.
  destruct (feed_length bits bw0) as [Hp' Hl]; [exact Hp|].
  cbn [bw0 bitwriter.inner bitwriter.currentPos] in Hl.
  exists (bitwriter.inner (feed bw0 bits)).
  rewrite Hpre. cbn [bitwriter.inner bitwriter.currentPos].
  unfold len in *. cbn [length] in Hl.
  split; [reflexivity|].
  split.
  - apply (Z.div_unique _ 8 _ (bitwriter.currentPos (feed bw0 bits))); lia.
  - apply (Z.mod_unique _ 8 (Z.of_nat (length (bitwriter.inner (feed bw0 bits))))); lia.
Qed.

Lemma bitwriter_appends_witness :
  exists added,
    bitwriter.inner (feed (bitwriter.mkBitWriter [9] 1 1) (repeat true 9))
    = [9] ++ added /\
    len added = (1 + len (repeat true 9)) / 8 /\
    bitwriter.currentPos (feed (bitwriter.mkBitWriter [9] 1 1) (repeat true 9))
    = (1 + len (repeat true 9)) mod 8.
Proof.
  apply (bitwriter_appends (bitwriter.mkBitWriter [9] 1 1) (repeat true 9)).
  simpl. lia.
Defined.

(* ===================================================================== *)
(** ** The pixel carrier: one bit, the cursor and Seek *)
(* ===================================================================== *)

Section CursorMoves.

Lemma inside_bounds i0 x y :
  inside i0 x y = true -> 0 <= x < Dx i0 /\ 0 <= y < Dy i0.
Proof.
  unfold inside. intros H.
  repeat (apply andb_true_iff in H as [H ?]).
  repeat match goal with
         | H : (_ <=? _) = true |- _ => apply Z.leb_le in H
         | H : (_ <? _) = true |- _ => apply Z.ltb_lt in H
         end.
  lia.
Qed.

Lemma inside_offset i0 x y :
  wf_image i0 -> inside i0 x y = true ->
  Z.of_nat (PixOffset i0 x y) = y * Dx i0 + x /\
  (PixOffset i0 x y < length (Pix i0))%nat.
Proof.
  intros (_ & Hw & Hh & Hl & _) Hin.
  apply inside_bounds in Hin. unfold PixOffset, len in *.
  split; [rewrite Z2Nat.id; nia|]. apply Nat2Z.inj_lt. rewrite Z2Nat.id; nia.
Qed.

(** The position setBitPos reaches, for a position that is not negative. *)
Lemma setBitPos_at ibw b :
  0 < w ibw -> 0 <= h ibw -> 0 <= b ->
  exists ibw',
    setBitPos ibw b
    = Ok (ibw', if b <? 3 * w ibw * h ibw then None else Some EOF) /\
    cursor ibw' = Z.min b (3 * w ibw * h ibw) /\
    0 <= currentRGB ibw' < 3 /\ 0 <= currentX ibw' < w ibw /\
    0 <= currentY ibw' <= h ibw /\
    (b < 3 * w ibw * h ibw ->
     currentRGB ibw' = b mod 3 /\ currentX ibw' = (b / 3) mod w ibw /\
     currentY ibw' = b / 3 / w ibw) /\
    (3 * w ibw * h ibw <= b ->
     currentRGB ibw' = 0 /\ currentX ibw' = 0 /\ currentY ibw' = h ibw) /\
    im ibw' = im ibw /\ currentByte ibw' = currentByte ibw /\
    capacity ibw' = capacity ibw /\ w ibw' = w ibw /\ h ibw' = h ibw.
Proof.
  intros Hw Hh Hb. unfold setBitPos.
  assert (E0 : (b <? 0) = false) by (apply Z.ltb_ge; lia). rewrite E0.
  assert (E1 : (w ibw =? 0) = false) by (apply Z.eqb_neq; lia). rewrite E1.
  rewrite (Z.rem_mod_nonneg b 3), (Z.quot_div_nonneg b 3) by lia.
  assert (Hq : 0 <= b / 3) by (apply Z.div_pos; lia).
  rewrite (Z.rem_mod_nonneg (b / 3) (w ibw)),
          (Z.quot_div_nonneg (b / 3) (w ibw)) by lia.
  pose proof (Z.div_mod b 3 ltac:(lia)) as D1.
  pose proof (Z.mod_pos_bound b 3 ltac:(lia)) as M1.
  pose proof (Z.div_mod (b / 3) (w ibw) ltac:(lia)) as D2.
  pose proof (Z.mod_pos_bound (b / 3) (w ibw) ltac:(lia)) as M2.
  assert (Hy : 0 <= b / 3 / w ibw) by (apply Z.div_pos; lia).
  set (q := b / 3) in *. set (r := b mod 3) in *.
  set (x := q mod w ibw) in *. set (y := q / w ibw) in *.
  destruct (h ibw <=? y) eqn:E2.
  - apply Z.leb_le in E2.
    assert (E3 : (b <? 3 * w ibw * h ibw) = false) by (apply Z.ltb_ge; nia).
    rewrite E3. eexists. split; [reflexivity|].
    unfold cursor. cbn [currentX currentY currentRGB w h im currentByte capacity].
    apply Z.ltb_ge in E3.
    repeat split; try lia.
  - apply Z.leb_gt in E2.
    assert (E3 : (b <? 3 * w ibw * h ibw) = true) by (apply Z.ltb_lt; nia).
    rewrite E3. eexists. split; [reflexivity|].
    unfold cursor. cbn [currentX currentY currentRGB w h im currentByte capacity].
    apply Z.ltb_lt in E3.
    repeat split; try lia; nia.
Qed.

(** A bit position has one decomposition into row, column and channel. *)
Lemma cursor_unique w0 x y r x' y' r' :
  0 < w0 -> 0 <= r < 3 -> 0 <= r' < 3 -> 0 <= x < w0 -> 0 <= x' < w0 ->
  (y * w0 + x) * 3 + r = (y' * w0 + x') * 3 + r' ->
  r = r' /\ x = x' /\ y = y'.
Proof.
  intros Hw Hr Hr' Hx Hx' E.
  assert (E1 : y * w0 + x = y' * w0 + x') by lia.
  assert (E2 : y = y') by nia.
  subst y'. lia.
Qed.

(** Seek(k, io.SeekStart): where it puts the cursor, what it returns and
    what it leaves alone. *)
Lemma Seek_start_at ibw k :
  0 < w ibw -> 0 <= h ibw -> 3 * w ibw * h ibw < 2 ^ 63 ->
  - 2 ^ 60 < k < 2 ^ 60 ->
  let k' := Z.max 0 k in
  exists ibw',
    Seek ibw k SeekStart
    = Ok (ibw', (Z.min k' (3 * w ibw * h ibw / 8),
                 if 8 * k' <? 3 * w ibw * h ibw then None else Some EOF)) /\
    cursor ibw' = Z.min (8 * k') (3 * w ibw * h ibw) /\
    0 <= currentRGB ibw' < 3 /\ 0 <= currentX ibw' < w ibw /\
    0 <= currentY ibw' <= h ibw /\
    im ibw' = im ibw /\ currentByte ibw' = currentByte ibw /\
    capacity ibw' = capacity ibw /\ w ibw' = w ibw /\ h ibw' = h ibw.
Proof.
  intros Hw Hh Hb Hk k'. unfold Seek.
  change (SeekStart =? SeekCurrent) with false.
  change (SeekStart =? SeekStart) with true. cbv iota.
  rewrite Z.add_0_l, (int64_wrap_small k) by lia.
  rewrite (int64_wrap_small (k * 8)) by lia.
  assert (Hset : exists ibw',
            setBitPos ibw (k * 8)
            = Ok (ibw', if 8 * k' <? 3 * w ibw * h ibw then None else Some EOF) /\
            cursor ibw' = Z.min (8 * k') (3 * w ibw * h ibw) /\
            0 <= currentRGB ibw' < 3 /\ 0 <= currentX ibw' < w ibw /\
            0 <= currentY ibw' <= h ibw /\
            im ibw' = im ibw /\ currentByte ibw' = currentByte ibw /\
            capacity ibw' = capacity ibw /\ w ibw' = w ibw /\ h ibw' = h ibw).
  { destruct (Z.lt_ge_cases k 0) as [Hneg|Hpos].
    - destruct (setBitPos_at ibw 0 Hw Hh ltac:(lia))
        as (s & Hs & Hc & H1 & H2 & H3 & _ & _ & Hfr).
      exists s. subst k'. rewrite Z.max_l by lia. change (8 * 0) with 0.
      split; [|repeat split; try lia; try exact Hc; apply Hfr].
      rewrite <- Hs. unfold setBitPos.
      replace (k * 8 <? 0) with true by (symmetry; apply Z.ltb_lt; lia).
      reflexivity.
    - destruct (setBitPos_at ibw (k * 8) Hw Hh ltac:(lia))
        as (s & Hs & Hc & H1 & H2 & H3 & _ & _ & Hfr).
      exists s. subst k'. rewrite Z.max_r by lia.
      replace (8 * k) with (k * 8) by lia.
      repeat split; try lia; try assumption; apply Hfr. }
  destruct Hset as (s & Hs & Hc & H1 & H2 & H3 & Hfr).
  exists s. rewrite Hs. cbn [mbind result_bind fst snd].
  split; [|repeat split; try lia; try exact Hc; apply Hfr].
  do 3 f_equal. unfold BitPos. fold (cursor s).
  assert (0 <= 3 * w ibw * h ibw) by nia.
  rewrite int64_wrap_small by lia.
  rewrite Hc, Z.quot_div_nonneg by lia.
  pose proof (Z.div_mod (3 * w ibw * h ibw) 8 ltac:(lia)) as D.
  pose proof (Z.mod_pos_bound (3 * w ibw * h ibw) 8 ltac:(lia)) as M.
  destruct (Z.lt_ge_cases (8 * k') (3 * w ibw * h ibw)).
  - rewrite !Z.min_l by lia. symmetry.
    apply (Z.div_unique _ 8 _ 0); lia.
  - rewrite !Z.min_r by lia. reflexivity.
Qed.

End CursorMoves.

(** X4. One bit stored through the carrier's own step, Set(x, y,
    colorEmbed(At(x, y), pos, bit)) at a pixel of the image, sets bit
    number ((y * w) + x) * 3 + pos of the image's stream of least
    significant bits to that bit and leaves every other bit of the stream
    as it was; reading the stream back at that number gives the bit. *)
Theorem embedded_bit_reads_back (i0 : Image) (x y pos : Z) (bit : bool) :
  wf_image i0 -> inside i0 x y = true -> 0 <= pos < 3 ->
  exists c',
    colorEmbed (At i0 x y) pos bit = Ok c' /\
    lsb_stream (Set_ i0 x y c')
    = <[Z.to_nat ((y * Dx i0 + x) * 3 + pos) := bit]> (lsb_stream i0) /\
    lsb_stream (Set_ i0 x y c') !! Z.to_nat ((y * Dx i0 + x) * 3 + pos)
    = Some bit.
Proof.
  intros Hwf Hin Hpos.
  destruct (embed_at i0 x y pos bit Hwf Hin) as (c' & Hc' & Hset).
  destruct (inside_offset i0 x y Hwf Hin) as (Hoff & Hlt).
  exists c'. split; [exact Hc'|].
  assert (Hs : lsb_stream (Set_ i0 x y c')
               = <[Z.to_nat ((y * Dx i0 + x) * 3 + pos) := bit]> (lsb_stream i0)).
  { rewrite Hset. unfold lsb_stream. cbn [Pix].
    rewrite embed_stream; [f_equal; lia| |exact Hpos].
    destruct (nth_lookup_or_length (Pix i0) (PixOffset i0 x y) image.zero);
      [done|lia]. }
  split; [exact Hs|].
  rewrite Hs. apply list_lookup_insert_eq.
  rewrite length_lsb_stream. lia.
Qed.

Lemma embedded_bit_reads_back_witness :
  exists c',
    colorEmbed (At img_3x1 2 0) 1 true = Ok c' /\
    lsb_stream (Set_ img_3x1 2 0 c')
    = <[Z.to_nat ((0 * Dx img_3x1 + 2) * 3 + 1) := true]> (lsb_stream img_3x1) /\
    lsb_stream (Set_ img_3x1 2 0 c') !! Z.to_nat ((0 * Dx img_3x1 + 2) * 3 + 1)
    = Some true.
Proof.
  apply (embedded_bit_reads_back img_3x1 2 0 1 true);
    [exact wf_img_3x1|reflexivity|lia].
Defined.

(** X5. increment moves the cursor of a writer over an image of positive width
    by exactly one bit position, in the order R, G, B, next pixel, next
    row, and reports false; once the cursor is below the last row it
    reports true and leaves the writer as it is.  It never touches the
    image, the byte count or the capacity. *)
Theorem increment_advances (ibw : ImageByteWriter) :
  0 < w ibw -> 0 <= currentRGB ibw < 3 -> 0 <= currentX ibw < w ibw ->
  (currentY ibw < h ibw ->
   snd (increment ibw) = false /\
   cursor (fst (increment ibw)) = cursor ibw + 1 /\
   0 <= currentRGB (fst (increment ibw)) < 3 /\
   0 <= currentX (fst (increment ibw)) < w ibw /\
   currentY ibw <= currentY (fst (increment ibw)) <= h ibw) /\
  (h ibw <= currentY ibw -> increment ibw = (ibw, true)) /\
  im (fst (increment ibw)) = im ibw /\
  currentByte (fst (increment ibw)) = currentByte ibw /\
  capacity (fst (increment ibw)) = capacity ibw /\
  w (fst (increment ibw)) = w ibw /\ h (fst (increment ibw)) = h ibw.
Proof.
  intros Hw Hr Hx. unfold increment, cursor.
  destruct (h ibw <=? currentY ibw) eqn:E1;
    [|destruct (2 <? currentRGB ibw + 1) eqn:E2;
      [destruct (w ibw <=? currentX ibw + 1) eqn:E3|]];
    cbn [fst snd currentX currentY currentRGB w h im currentByte capacity];
    try apply Z.leb_le in E1; try apply Z.leb_gt in E1;
    try apply Z.ltb_lt in E2; try apply Z.ltb_ge in E2;
    try apply Z.leb_le in E3; try apply Z.leb_gt in E3;
    repeat split; intros; try reflexivity; try lia; try nia.
Qed.

Lemma increment_advances_witness :
  (currentY ibw_3x1_last < h ibw_3x1_last ->
   snd (increment ibw_3x1_last) = false /\
   cursor (fst (increment ibw_3x1_last)) = cursor ibw_3x1_last + 1 /\
   0 <= currentRGB (fst (increment ibw_3x1_last)) < 3 /\
   0 <= currentX (fst (increment ibw_3x1_last)) < w ibw_3x1_last /\
   currentY ibw_3x1_last <= currentY (fst (increment ibw_3x1_last))
   <= h ibw_3x1_last) /\
  (h ibw_3x1_last <= currentY ibw_3x1_last ->
   increment ibw_3x1_last = (ibw_3x1_last, true)) /\
  im (fst (increment ibw_3x1_last)) = im ibw_3x1_last /\
  currentByte (fst (increment ibw_3x1_last)) = currentByte ibw_3x1_last /\
  capacity (fst (increment ibw_3x1_last)) = capacity ibw_3x1_last /\
  w (fst (increment ibw_3x1_last)) = w ibw_3x1_last /\
  h (fst (increment ibw_3x1_last)) = h ibw_3x1_last.
Proof.
  apply (increment_advances ibw_3x1_last); unfold ibw_3x1_last; simpl; lia.
Defined.

(** X6. Seek moves the cursor only: whatever the offset and the whence, a Seek
    that returns leaves the image, the count of bytes written, the capacity
    and the bounds of the writer as they were.  (The room Write computes
    from the byte count is therefore the same before and after a Seek.) *)
Theorem seek_keeps_image_and_count
    (ibw ibw' : ImageByteWriter) (offset whence : Z) (r : Z * option error) :
  Seek ibw offset whence = Ok (ibw', r) ->
  im ibw' = im ibw /\ currentByte ibw' = currentByte ibw /\
  capacity ibw' = capacity ibw /\ w ibw' = w ibw /\ h ibw' = h ibw.
Proof.
  unfold Seek.
  assert (Hset : forall b s e, setBitPos ibw b = Ok (s, e) ->
            im s = im ibw /\ currentByte s = currentByte ibw /\
            capacity s = capacity ibw /\ w s = w ibw /\ h s = h ibw).
  { intros b s e. unfold setBitPos.
    destruct (w ibw =? 0); [discriminate|].
    match goal with |- context [if ?c then Ok _ else _] => destruct c end;
      intros [= <- <-]; repeat split. }
  destruct (whence =? SeekCurrent);
    [|destruct (whence =? SeekStart); [|destruct (whence =? SeekEnd)]];
    try (intros [= <- <-]; repeat split; fail);
    (match goal with
     | |- context [setBitPos ibw ?b] =>
         destruct (setBitPos ibw b) as [[s e]| | |] eqn:E; try discriminate
     end;
     cbn [mbind result_bind fst snd]; intros [= <- <-];
     exact (Hset _ _ _ E)).
Qed.

Lemma seek_keeps_image_and_count_witness :
  im (mkImageByteWriter img_3x1 0 1 0 0 3 1 1) = im ibw_3x1 /\
  currentByte (mkImageByteWriter img_3x1 0 1 0 0 3 1 1) = currentByte ibw_3x1 /\
  capacity (mkImageByteWriter img_3x1 0 1 0 0 3 1 1) = capacity ibw_3x1 /\
  w (mkImageByteWriter img_3x1 0 1 0 0 3 1 1) = w ibw_3x1 /\
  h (mkImageByteWriter img_3x1 0 1 0 0 3 1 1) = h ibw_3x1.
Proof.
  apply (seek_keeps_image_and_count ibw_3x1
           (mkImageByteWriter img_3x1 0 1 0 0 3 1 1) 5 SeekStart (1, Some EOF)).
  reflexivity.
Defined.

(** X7. Seek(k, io.SeekStart) with an offset -2^60 < k < 2^60 (so that 8k
    does not wrap in an int64), on a writer over an image of positive
    width w and height h >= 0 with 3wh < 2^63, puts the cursor on bit 8k
    of the stream and returns k with no error, as long as that bit exists
    (8k < 3wh).  From there on it puts the cursor behind the last bit and
    returns the number of whole bytes of the stream, floor(3wh / 8),
    together with io.EOF.  A negative offset in that range is taken as
    0. *)
Theorem seek_start_position (ibw : ImageByteWriter) (k : Z) :
  0 < w ibw -> 0 <= h ibw -> 3 * w ibw * h ibw < 2 ^ 63 ->
  - 2 ^ 60 < k < 2 ^ 60 ->
  let k' := Z.max 0 k in
  exists ibw',
    Seek ibw k SeekStart
    = Ok (ibw', (Z.min k' (3 * w ibw * h ibw / 8),
                 if 8 * k' <? 3 * w ibw * h ibw then None else Some EOF)) /\
    cursor ibw' = Z.min (8 * k') (3 * w ibw * h ibw) /\
    0 <= currentRGB ibw' < 3 /\ 0 <= currentX ibw' < w ibw /\
    0 <= currentY ibw' <= h ibw.
Proof.
  intros Hw Hh Hb Hk k'.
  destruct (Seek_start_at ibw k Hw Hh Hb Hk)
    as (s & Hs & Hc & H1 & H2 & H3 & _).
  exists s. split; [exact Hs|]. split; [exact Hc|].
  split; [exact H1|]. split; [exact H2|exact H3].
Qed.

Lemma seek_start_position_witness :
  let k' := Z.max 0 2 in
  exists ibw',
    Seek (mkImageByteWriter (img_8x1 6) 0 0 0 0 8 1 3) 2 SeekStart
    = Ok (ibw', (Z.min k' (3 * 8 * 1 / 8),
                 if 8 * k' <? 3 * 8 * 1 then None else Some EOF)) /\
    cursor ibw' = Z.min (8 * k') (3 * 8 * 1) /\
    0 <= currentRGB ibw' < 3 /\ 0 <= currentX ibw' < 8 /\
    0 <= currentY ibw' <= 1.
Proof.
  apply (seek_start_position (mkImageByteWriter (img_8x1 6) 0 0 0 0 8 1 3) 2);
    simpl; lia.
Defined.

(** X8. Seek(0, io.SeekCurrent) on a writer that has only been written to (its
    cursor stands on bit 8 * bytes written) over an image of positive width
    is the identity on the writer: it returns the number of bytes written
    so far, with io.EOF exactly when no bit is left behind the cursor. *)
Theorem seek_current_reports_position (ibw : ImageByteWriter) :
  in_sync ibw -> 0 < w ibw ->
  Seek ibw 0 SeekCurrent
  = Ok (ibw, (currentByte ibw,
              if 8 * currentByte ibw <? 3 * w ibw * h ibw
              then None else Some EOF)).
Proof.
  intros (Hwf & Hok & Hcur & Hcb & Hcap) Hw.
  pose proof Hwf as (Hm & HDx & HDy & Hl & Hb).
  pose proof Hok as (Ew & Eh & Hr & (Hx0 & Hx1) & Hy).
  assert (Hx : currentX ibw < w ibw) by lia.
  assert (Hh : 0 <= h ibw) by lia.
  assert (Hwh : 0 <= 3 * w ibw * h ibw < 2 ^ 63) by (rewrite Ew, Eh; nia).
  pose proof (Z.div_mod (3 * w ibw * h ibw) 8 ltac:(lia)) as D.
  pose proof (Z.mod_pos_bound (3 * w ibw * h ibw) 8 ltac:(lia)) as M.
  unfold Seek. change (SeekCurrent =? SeekCurrent) with true. cbv iota.
  assert (EBP : BitPos ibw = cursor ibw).
  { unfold BitPos. fold (cursor ibw). apply int64_wrap_small. lia. }
  rewrite EBP.
  assert (Eq : Z.quot (cursor ibw) 8 = currentByte ibw).
  { rewrite Z.quot_div_nonneg by lia. symmetry.
    apply (Z.div_unique _ 8 _ 0); lia. }
  rewrite Eq, Z.add_0_r, (int64_wrap_small (currentByte ibw)) by lia.
  rewrite (int64_wrap_small (currentByte ibw * 8)) by lia.
  destruct (setBitPos_at ibw (currentByte ibw * 8) Hw Hh ltac:(lia))
    as (s & Hs & Hc & H1 & H2 & H3 & Hin & Hout & Hi & Hbb & Hcc & Hww & Hhh).
  rewrite Hs. cbn [mbind result_bind fst snd].
  replace (currentByte ibw * 8) with (8 * currentByte ibw) in * by lia.
  assert (Es : s = ibw).
  { destruct s as [si sx sy sr sb sw sh sc], ibw as [ii ix iy ir ib iw ih ic].
    cbn [currentX currentY currentRGB w h im currentByte capacity] in *.
    unfold cursor in *.
    cbn [currentX currentY currentRGB w h im currentByte capacity] in *.
    subst si sb sc sw sh.
    assert (sr = ir /\ sx = ix /\ sy = iy) as (-> & -> & ->); [|reflexivity].
    rewrite Z.min_l in Hc by lia.
    apply (cursor_unique iw); try lia. }
  rewrite Es, EBP, Eq. reflexivity.
Qed.

Lemma wf_img_8x1 v : wf_image (img_8x1 v).
Proof. unfold wf_image, len. simpl. repeat split; lia. Qed.

Lemma seek_current_reports_position_witness :
  Seek (mkImageByteWriter (img_8x1 6) 2 0 2 1 8 1 3) 0 SeekCurrent
  = Ok (mkImageByteWriter (img_8x1 6) 2 0 2 1 8 1 3,
        (currentByte (mkImageByteWriter (img_8x1 6) 2 0 2 1 8 1 3),
         if 8 * currentByte (mkImageByteWriter (img_8x1 6) 2 0 2 1 8 1 3)
            <? 3 * w (mkImageByteWriter (img_8x1 6) 2 0 2 1 8 1 3)
               * h (mkImageByteWriter (img_8x1 6) 2 0 2 1 8 1 3)
         then None else Some EOF)).
Proof.
  apply (seek_current_reports_position
           (mkImageByteWriter (img_8x1 6) 2 0 2 1 8 1 3)).
  - split; [apply wf_img_8x1|].
    unfold cursor_ok, cursor. simpl. repeat split; lia.
  - simpl. lia.
Defined.

(* ===================================================================== *)
(** ** The pixel carrier: what Write stores and how Writes compose *)
(* ===================================================================== *)

Section WritePlaces.

(** A Write that has room for all of [data] is its loop. *)
Lemma Write_no_cut ibw data :
  len data <= capacity ibw - currentByte ibw ->
  Write ibw data
  = r ← writeBytes 0 data ibw;
    match snd (snd r) with
    | Some e2 => Ok r
    | None => Ok (fst r, (len data, None))
    end.
Proof.
  intros Hroom. unfold Write. cbv zeta. fold (len data).
  replace (capacity ibw - currentByte ibw <? len data) with false
    by (symmetry; apply Z.ltb_ge; lia).
  reflexivity.
Qed.

(** Writing [data] with the cursor on bit [8 * k] replaces the hidden
    bytes [k, k + len data) of the image. *)
Lemma Write_at ibw data k carrier :
  wf_image (im ibw) -> cursor_ok ibw -> cursor ibw = 8 * Z.of_nat k ->
  0 <= currentByte ibw -> currentByte ibw + len data <= capacity ibw ->
  8 * Z.of_nat k + 8 * len data <= 3 * w ibw * h ibw ->
  bytes_ok data = true ->
  GetHiddenBytesFromImage (im ibw) = Ok carrier ->
  exists ibw',
    Write ibw data = Ok (ibw', (len data, None)) /\
    wf_image (im ibw') /\ cursor_ok ibw' /\
    cursor ibw' = cursor ibw + 8 * len data /\
    currentByte ibw' = currentByte ibw + len data /\
    capacity ibw' = capacity ibw /\ w ibw' = w ibw /\ h ibw' = h ibw /\
    GetHiddenBytesFromImage (im ibw')
    = Ok (take k carrier ++ data ++ drop (k + length data) carrier).
Proof.
  intros Hwf Hok Hcur Hcb Hroom Hfit Hbytes Hcar.
  destruct (writeBytes_all data 0 ibw Hwf Hok ltac:(lia) Hroom)
    as (ibw' & Hrun & Hwf' & Hok' & Hc' & Hs' & Hb' & Hcap' & Hw' & Hh').
  exists ibw'. rewrite Write_no_cut by lia. rewrite Hrun.
  cbn [mbind result_bind fst snd].
  split; [reflexivity|].
  repeat (split; [assumption|]).
  rewrite (GetHiddenBytes_stream _ Hwf) in Hcar. injection Hcar as <-.
  rewrite (GetHiddenBytes_stream _ Hwf'), Hs', Hcur. f_equal.
  pose proof (stream_length_Z (im ibw) Hwf) as HL.
  pose proof Hok as (Ew & Eh & _).
  rewrite <- Ew, <- Eh in HL. unfold len in *.
  replace (Z.to_nat (8 * Z.of_nat k)) with (8 * k)%nat by lia.
  apply splice_extract; [exact Hbytes|lia].
Qed.

(** The loop of Write over [a ++ b] is the loop over [a] followed by the
    loop over [b]. *)
Lemma writeBytes_app b : forall a i ibw ibw1 i1,
  writeBytes i a ibw = Ok (ibw1, (i1, None)) ->
  i1 = i + len a /\
  writeBytes i (a ++ b) ibw = writeBytes (i + len a) b ibw1.
Proof.
  induction a as [|x a IH]; intros i ibw ibw1 i1 H.
  - cbn [writeBytes] in H. injection H as <- <-.
    unfold len. cbn [length app]. rewrite Z.add_0_r. by split.
  - cbn [writeBytes app] in H |- *.
    destruct (writeByte ibw x) as [[s e]| | |]; try discriminate.
    cbn [mbind result_bind fst snd] in H |- *.
    destruct e; [discriminate|].
    destruct (IH _ _ _ _ H) as (-> & Hrun).
    unfold len in *. cbn [length]. split; [lia|].
    rewrite Hrun. f_equal. lia.
Qed.

(** The index the loop starts from only shifts the count it returns. *)
Lemma writeBytes_index : forall data i j ibw ibw' n e,
  writeBytes i data ibw = Ok (ibw', (n, e)) ->
  writeBytes j data ibw = Ok (ibw', (n - i + j, e)).
Proof.
  induction data as [|x data IH]; intros i j ibw ibw' n e H.
  - cbn [writeBytes] in H |- *. injection H as <- <- <-.
    do 3 f_equal. lia.
  - cbn [writeBytes] in H |- *.
    destruct (writeByte ibw x) as [[s e0]| | |]; try discriminate.
    cbn [mbind result_bind fst snd] in H |- *.
    destruct e0.
    + injection H as <- <- <-. do 3 f_equal. lia.
    + rewrite (IH _ (j + 1) _ _ _ _ H). do 3 f_equal. lia.
Qed.

End WritePlaces.

(** X9. A Write of [data] to a fresh writer, with [data] no longer than the
    capacity, returns len(data) and a nil error, and the hidden bytes of
    the image are then [data] followed by the hidden bytes the image had
    from offset len(data) on: the bytes behind the written ones are not
    touched. *)
Theorem write_prefix_then_extract (i0 : Image) (data : list Z) :
  wf_image i0 -> bytes_ok data = true ->
  len data <= (Dx i0 * Dy i0 * 3) / 8 ->
  exists ibw ibw' carrier,
    NewImageByteWriter i0 = Ok ibw /\
    GetHiddenBytesFromImage i0 = Ok carrier /\
    Write ibw data = Ok (ibw', (len data, None)) /\
    GetHiddenBytesFromImage (im ibw')
    = Ok (data ++ drop (length data) carrier).
Proof.
  intros Hwf Hbytes Hfit.
  destruct (NewImageByteWriter_sync i0 Hwf)
    as (ibw & Hnew & Hsync & Him & Hcb & Hcap).
  destruct (GetHiddenBytes_ok i0 Hwf) as (carrier & Hcar & Hlen & _).
  pose proof Hsync as (Hwf0 & Hok & Hcur & _ & Hcap8).
  pose proof Hok as (Ew & Eh & _).
  pose proof Hwf as (_ & HDx & HDy & _).
  assert (0 <= Dx i0 * Dy i0 * 3) by nia.
  pose proof (Z.div_mod (Dx i0 * Dy i0 * 3) 8 ltac:(lia)) as D.
  pose proof (Z.mod_pos_bound (Dx i0 * Dy i0 * 3) 8 ltac:(lia)) as M.
  assert (E3 : 3 * w ibw * h ibw = Dx i0 * Dy i0 * 3)
    by (rewrite Ew, Eh, Him; lia).
  destruct (Write_at ibw data 0 carrier)
    as (ibw' & Hrun & _ & _ & _ & _ & _ & _ & _ & Hget);
    try assumption; try lia; try (by rewrite Him);
    try (unfold len in *; lia).
  exists ibw, ibw', carrier. repeat split; assumption.
Qed.

Lemma write_prefix_then_extract_witness :
  exists ibw ibw' carrier,
    NewImageByteWriter (img_8x1 6) = Ok ibw /\
    GetHiddenBytesFromImage (img_8x1 6) = Ok carrier /\
    Write ibw [255; 129] = Ok (ibw', (len [255; 129], None)) /\
    GetHiddenBytesFromImage (im ibw')
    = Ok ([255; 129] ++ drop (length [255; 129]) carrier).
Proof.
  apply (write_prefix_then_extract (img_8x1 6) [255; 129]);
    [apply wf_img_8x1|reflexivity|vm_compute; discriminate].
Defined.

(** X10. Seek(k, io.SeekStart) on a fresh writer followed by a Write of [data]
    that ends within the capacity overwrites the hidden bytes
    [k, k + len(data)) of the image and no other: the Seek returns k, the
    Write len(data), both with a nil error. *)
Theorem seek_then_write_overwrites (i0 : Image) (k : nat) (data : list Z) :
  wf_image i0 -> bytes_ok data = true -> 1 <= len data ->
  Z.of_nat k + len data <= (Dx i0 * Dy i0 * 3) / 8 ->
  exists ibw ibw1 ibw2 carrier,
    NewImageByteWriter i0 = Ok ibw /\
    GetHiddenBytesFromImage i0 = Ok carrier /\
    Seek ibw (Z.of_nat k) SeekStart = Ok (ibw1, (Z.of_nat k, None)) /\
    Write ibw1 data = Ok (ibw2, (len data, None)) /\
    GetHiddenBytesFromImage (im ibw2)
    = Ok (take k carrier ++ data ++ drop (k + length data) carrier).
Proof.
  intros Hwf Hbytes Hne Hfit.
  destruct (NewImageByteWriter_sync i0 Hwf)
    as (ibw & Hnew & Hsync & Him & Hcb & Hcap).
  destruct (GetHiddenBytes_ok i0 Hwf) as (carrier & Hcar & Hlen & _).
  pose proof Hsync as (Hwf0 & Hok & Hcur & _ & Hcap8).
  pose proof Hok as (Ew & Eh & _).
  pose proof Hwf as (_ & HDx & HDy & _ & Hbig).
  assert (H0 : 0 <= Dx i0 * Dy i0 * 3) by nia.
  pose proof (Z.div_mod (Dx i0 * Dy i0 * 3) 8 ltac:(lia)) as D.
  pose proof (Z.mod_pos_bound (Dx i0 * Dy i0 * 3) 8 ltac:(lia)) as M.
  assert (E3 : 3 * w ibw * h ibw = Dx i0 * Dy i0 * 3)
    by (rewrite Ew, Eh, Him; lia).
  assert (Hw : 0 < w ibw).
  { rewrite Ew, Him. destruct (Z.eq_dec (Dx i0) 0) as [E|E]; [|lia].
    exfalso. assert (Z0 : Dx i0 * Dy i0 * 3 = 0) by (rewrite E; lia).
    rewrite Z0 in Hfit. change (0 `div` 8) with 0 in Hfit. lia. }
  assert (Hh : 0 <= h ibw) by (rewrite Eh, Him; lia).
  destruct (Seek_start_at ibw (Z.of_nat k) Hw Hh ltac:(lia) ltac:(lia))
    as (ibw1 & Hseek & Hc1 & Hr1 & Hx1 & Hy1 & Hi1 & Hb1 & Hcap1 & Hw1 & Hh1).
  cbv zeta in Hseek, Hc1. rewrite Z.max_r in Hseek, Hc1 by lia.
  rewrite Z.min_l in Hseek, Hc1 by lia.
  replace (8 * Z.of_nat k <? 3 * w ibw * h ibw) with true in Hseek
    by (symmetry; apply Z.ltb_lt; lia).
  destruct (Write_at ibw1 data k carrier)
    as (ibw2 & Hrun & _ & _ & _ & _ & _ & _ & _ & Hget);
    try assumption; try lia; try (by rewrite Hi1, Him);
    try (unfold cursor_ok; rewrite Hi1, Hw1, Hh1; repeat split; lia).
  exists ibw, ibw1, ibw2, carrier. repeat split; assumption.
Qed.

Lemma seek_then_write_overwrites_witness :
  exists ibw ibw1 ibw2 carrier,
    NewImageByteWriter (img_8x1 6) = Ok ibw /\
    GetHiddenBytesFromImage (img_8x1 6) = Ok carrier /\
    Seek ibw (Z.of_nat 1) SeekStart = Ok (ibw1, (Z.of_nat 1, None)) /\
    Write ibw1 [255; 129] = Ok (ibw2, (len [255; 129], None)) /\
    GetHiddenBytesFromImage (im ibw2)
    = Ok (take 1 carrier ++ [255; 129] ++ drop (1 + length [255; 129]) carrier).
Proof.
  apply (seek_then_write_overwrites (img_8x1 6) 1 [255; 129]);
    [apply wf_img_8x1|reflexivity|vm_compute; discriminate
    |vm_compute; discriminate].
Defined.

(** X11. Writes compose: on a writer that has only been written to, a Write of
    [a] followed by a Write of [b] leaves the writer and the image exactly
    as one Write of [a ++ b] does, when the two fit into the room that is
    left; the counts returned add up and no error is reported. *)
Theorem writes_compose (ibw : ImageByteWriter) (a b : list Z) :
  in_sync ibw -> len a + len b <= capacity ibw - currentByte ibw ->
  exists ibw1 ibw2,
    Write ibw a = Ok (ibw1, (len a, None)) /\
    Write ibw1 b = Ok (ibw2, (len b, None)) /\
    Write ibw (a ++ b) = Ok (ibw2, (len a + len b, None)).
Proof.
  intros Hsync Hroom.
  assert (Ha : 0 <= len a) by (unfold len; lia).
  assert (Hb : 0 <= len b) by (unfold len; lia).
  destruct (Write_sync ibw a Hsync)
    as (ibw1 & Hrun1 & Hsync1 & Hb1 & Hcap1 & _).
  cbv zeta in Hrun1, Hb1. rewrite Z.min_r in Hrun1, Hb1 by lia.
  replace (capacity ibw - currentByte ibw <? len a) with false in Hrun1
    by (symmetry; apply Z.ltb_ge; lia).
  destruct (Write_sync ibw1 b Hsync1)
    as (ibw2 & Hrun2 & _ & Hb2 & Hcap2 & _).
  cbv zeta in Hrun2, Hb2. rewrite Z.min_r in Hrun2, Hb2 by lia.
  replace (capacity ibw1 - currentByte ibw1 <? len b) with false in Hrun2
    by (symmetry; apply Z.ltb_ge; lia).
  exists ibw1, ibw2. split; [exact Hrun1|]. split; [exact Hrun2|].
  rewrite Write_no_cut in Hrun1 by lia.
  rewrite Write_no_cut in Hrun2 by lia.
  rewrite Write_no_cut by (unfold len in *; rewrite length_app; lia).
  destruct (writeBytes 0 a ibw) as [[s1 [n1 e1]]| | |] eqn:E1; try discriminate.
  cbn [mbind result_bind fst snd] in Hrun1.
  destruct e1; [discriminate|]. injection Hrun1 as ->.
  destruct (writeBytes 0 b ibw1) as [[s2 [n2 e2]]| | |] eqn:E2; try discriminate.
  cbn [mbind result_bind fst snd] in Hrun2.
  destruct e2; [discriminate|]. injection Hrun2 as ->.
  destruct (writeBytes_app b a 0 ibw ibw1 n1 E1) as (-> & Happ).
  rewrite Happ, (writeBytes_index b 0 (0 + len a) ibw1 ibw2 n2 None E2).
  cbn [mbind result_bind fst snd]. do 3 f_equal.
  unfold len. rewrite length_app. lia.
Qed.

Lemma writes_compose_witness :
  exists ibw1 ibw2,
    Write (mkImageByteWriter (img_8x1 6) 0 0 0 0 8 1 3) [255]
    = Ok (ibw1, (len [255], None)) /\
    Write ibw1 [129; 0] = Ok (ibw2, (len [129; 0], None)) /\
    Write (mkImageByteWriter (img_8x1 6) 0 0 0 0 8 1 3) ([255] ++ [129; 0])
    = Ok (ibw2, (len [255] + len [129; 0], None)).
Proof.
  apply (writes_compose (mkImageByteWriter (img_8x1 6) 0 0 0 0 8 1 3)
           [255] [129; 0]).
  - split; [apply wf_img_8x1|].
    unfold cursor_ok, cursor. simpl. repeat split; lia.
  - vm_compute. discriminate.
Defined.

(* ===================================================================== *)
(** ** What a Write and an encode leave of the picture *)
(* ===================================================================== *)

Section LowBits.

Lemma bitEmbed_is_byte_all :
  forallb (fun v => is_byte (bitEmbed v true) && is_byte (bitEmbed v false))
          (zrange 256) = true.
Proof. vm_compute. reflexivity. Qed.

Lemma bitEmbed_is_byte v bit :
  is_byte v = true -> is_byte (bitEmbed v bit) = true.
Proof.
  intros Hv.
  assert (Hr : 0 <= v < 256).
  { unfold is_byte in Hv. apply andb_true_iff in Hv as [H1 H2].
    apply Z.leb_le in H1. apply Z.ltb_lt in H2. lia. }
  pose proof (proj1 (forallb_forall _ _) bitEmbed_is_byte_all v
                (in_zrange 256 v Hr)) as H.
  apply andb_true_iff in H as [H1 H2]. destruct bit; assumption.
Qed.

Lemma embedChannels_ok c pos bit :
  pixel_ok c = true -> pixel_ok (embedChannels c pos bit) = true.
Proof.
  unfold pixel_ok. intros H.
  apply andb_true_iff in H as [H HA]. apply andb_true_iff in H as [H HB].
  apply andb_true_iff in H as [HR HG].
  unfold embedChannels.
  destruct (pos =? 0); [|destruct (pos =? 1); [|destruct (pos =? 2)]];
    cbn [R G B A]; rewrite ?bitEmbed_is_byte by assumption;
    rewrite ?HR, ?HG, ?HB, ?HA; reflexivity.
Qed.

Lemma pixel_ok_insert e : forall l k,
  forallb pixel_ok l = true -> pixel_ok e = true ->
  forallb pixel_ok (<[k := e]> l) = true.
Proof.
  induction l as [|a l IH]; intros k Hl He; [reflexivity|].
  cbn [forallb] in Hl. apply andb_true_iff in Hl as [Ha Hl].
  destruct k as [|k].
  - change (<[0%nat := e]> (a :: l)) with (e :: l).
    cbn [forallb]. by rewrite He, Hl.
  - change (<[S k := e]> (a :: l)) with (a :: <[k := e]> l).
    cbn [forallb]. by rewrite Ha, IH.
Qed.

Lemma pixel_ok_lookup l k c :
  forallb pixel_ok l = true -> l !! k = Some c -> pixel_ok c = true.
Proof.
  intros Hl Hk. apply (proj1 (forallb_forall _ _) Hl).
  apply list_elem_of_In. by apply (list_elem_of_lookup_2 l k).
Qed.

Lemma same_but_lsb_refl i0 : same_but_lsb i0 i0.
Proof.
  repeat split; try reflexivity; intros; congruence.
Qed.

Lemma same_but_lsb_trans i0 i1 i2 :
  same_but_lsb i0 i1 -> same_but_lsb i1 i2 -> same_but_lsb i0 i2.
Proof.
  intros (M1 & X1 & Y1 & L1 & P1) (M2 & X2 & Y2 & L2 & P2).
  unfold same_but_lsb. do 4 (split; [congruence|]).
  intros k o n Ho Hn.
  assert (Hm : is_Some (Pix i1 !! k))
    by (apply lookup_lt_is_Some; rewrite L1;
        apply lookup_lt_is_Some; by eexists).
  destruct Hm as [m Hm].
  destruct (P1 k o m Ho Hm) as (A1 & R1 & G1 & B1).
  destruct (P2 k m n Hm Hn) as (A2 & R2 & G2 & B2).
  repeat split; congruence.
Qed.

(** The one mutation of the writer, on any image and at any cursor. *)
Lemma Set_embed_low i0 x y pos bit c' :
  forallb pixel_ok (Pix i0) = true ->
  colorEmbed (At i0 x y) pos bit = Ok c' ->
  same_but_lsb i0 (Set_ i0 x y c') /\
  forallb pixel_ok (Pix (Set_ i0 x y c')) = true.
Proof.
  intros Hok Hc. unfold Set_, At in *.
  destruct (inside i0 x y); [|split; [apply same_but_lsb_refl|exact Hok]].
  set (off := PixOffset i0 x y) in *.
  set (ch := nth off (Pix i0) image.zero) in *.
  assert (Hch : pixel_ok ch = true) by apply (pixel_ok_nth _ _ Hok).
  assert (Hnew : match color.Convert (ColorModel i0) c' with
                 | Some e => e = embedChannels ch pos bit
                 | None => True
                 end).
  { destruct (ColorModel i0); cbn [colorEmbed] in Hc; try discriminate;
      injection Hc as <-; reflexivity. }
  destruct (color.Convert (ColorModel i0) c') as [e|];
    [|split; [apply same_but_lsb_refl|exact Hok]].
  subst e. split.
  - unfold same_but_lsb. cbn [ColorModel Dx Dy Pix].
    rewrite length_insert. do 4 (split; [reflexivity|]).
    intros k o n Ho Hn.
    destruct (decide (k = off)) as [->|Hne].
    + assert (Hlt : (off < length (Pix i0))%nat)
        by (apply lookup_lt_is_Some; by eexists).
      rewrite list_lookup_insert_eq in Hn by exact Hlt.
      injection Hn as <-.
      assert (o = ch) as ->
        by (subst ch; symmetry; by apply nth_lookup_Some).
      pose proof (embedChannels_frame ch pos bit Hch) as F. cbv zeta in F.
      repeat split; apply F.
    + rewrite list_lookup_insert_ne in Hn by congruence.
      assert (n = o) as -> by congruence. by repeat split.
  - cbn [Pix]. apply pixel_ok_insert; [exact Hok|].
    by apply embedChannels_ok.
Qed.

Lemma increment_im ibw : im (fst (increment ibw)) = im ibw.
Proof.
  unfold increment.
  destruct (h ibw <=? currentY ibw); [reflexivity|].
  destruct (2 <? currentRGB ibw + 1); [|reflexivity].
  destruct (w ibw <=? currentX ibw + 1); reflexivity.
Qed.

Lemma writeBits_low data : forall todo ibw ibw' e,
  forallb pixel_ok (Pix (im ibw)) = true ->
  writeBits todo ibw data = Ok (ibw', e) ->
  same_but_lsb (im ibw) (im ibw') /\
  forallb pixel_ok (Pix (im ibw')) = true.
Proof.
  induction todo as [|i todo IH]; intros ibw ibw' e Hok H.
  - cbn [writeBits] in H. injection H as <- <-.
    split; [apply same_but_lsb_refl|exact Hok].
  - cbn [writeBits] in H.
    destruct (colorEmbed (At (im ibw) (currentX ibw) (currentY ibw))
                (currentRGB ibw) (negb (Z.land data (Z.shiftl 1 i) =? 0)))
      as [c'| | |] eqn:Ec; try discriminate.
    cbn [mbind result_bind] in H.
    destruct (Set_embed_low _ _ _ _ _ _ Hok Ec) as (Hs & Hok1).
    match type of H with
    | context [increment ?ibw1] =>
        pose proof (increment_im ibw1) as Hi;
        destruct (increment ibw1) as [ibw2 stop]
    end.
    cbn [fst im] in Hi.
    destruct stop.
    + injection H as <- <-. rewrite Hi. by split.
    + rewrite <- Hi in Hs, Hok1.
      destruct (IH ibw2 ibw' e Hok1 H) as (Hs2 & Hok2).
      split; [exact (same_but_lsb_trans _ _ _ Hs Hs2)|exact Hok2].
Qed.

Lemma writeBytes_low : forall data i ibw ibw' r,
  forallb pixel_ok (Pix (im ibw)) = true ->
  writeBytes i data ibw = Ok (ibw', r) ->
  same_but_lsb (im ibw) (im ibw') /\
  forallb pixel_ok (Pix (im ibw')) = true.
Proof.
  induction data as [|b data IH]; intros i ibw ibw' r Hok H.
  - cbn [writeBytes] in H. injection H as <- <-.
    split; [apply same_but_lsb_refl|exact Hok].
  - cbn [writeBytes] in H. unfold writeByte in H.
    destruct (capacity ibw <=? currentByte ibw).
    + cbn [mbind result_bind fst snd] in H. injection H as <- <-.
      split; [apply same_but_lsb_refl|exact Hok].
    + destruct (writeBits (zrange 8) ibw b) as [[s e]| | |] eqn:Eb;
        try discriminate.
      cbn [mbind result_bind fst snd] in H.
      destruct (writeBits_low b _ _ _ _ Hok Eb) as (Hs & Hok1).
      destruct e.
      * injection H as <- <-. by split.
      * destruct (IH _ _ _ _ (Hok1 : forallb pixel_ok (Pix (im
                    (mkImageByteWriter (im s) (currentX s) (currentY s)
                       (currentRGB s) (currentByte s + 1) (w s) (h s)
                       (capacity s)))) = true) H) as (Hs2 & Hok2).
        cbn [im] in Hs2.
        split; [exact (same_but_lsb_trans _ _ _ Hs Hs2)|exact Hok2].
Qed.

Lemma Write_low ibw data ibw' r :
  forallb pixel_ok (Pix (im ibw)) = true ->
  Write ibw data = Ok (ibw', r) ->
  same_but_lsb (im ibw) (im ibw') /\
  forallb pixel_ok (Pix (im ibw')) = true.
Proof.
  intros Hok H. unfold Write in H. cbv zeta in H.
  match type of H with
  | context [mbind _ ?c] => destruct c as [[e0 d]| | |]; try discriminate
  end.
  cbn [mbind result_bind fst snd] in H.
  destruct (writeBytes 0 d ibw) as [[s [n e]]| | |] eqn:Eb; try discriminate.
  cbn [mbind result_bind fst snd] in H.
  destruct (writeBytes_low _ _ _ _ _ Hok Eb) as (Hs & Hok1).
  destruct e; injection H as <- <-; by split.
Qed.

Lemma upper7_close a b : upper7 a = upper7 b -> Z.abs (a - b) <= 1.
Proof.
  unfold upper7. rewrite !Z.shiftr_div_pow2 by lia.
  change (2 ^ 1) with 2. intros E.
  pose proof (Z.div_mod a 2 ltac:(lia)).
  pose proof (Z.div_mod b 2 ltac:(lia)).
  pose proof (Z.mod_pos_bound a 2 ltac:(lia)).
  pose proof (Z.mod_pos_bound b 2 ltac:(lia)).
  lia.
Qed.

Lemma same_but_lsb_close i0 i1 :
  same_but_lsb i0 i1 ->
  forall k o n, Pix i0 !! k = Some o -> Pix i1 !! k = Some n ->
    A n = A o /\ Z.abs (R n - R o) <= 1 /\
    Z.abs (G n - G o) <= 1 /\ Z.abs (B n - B o) <= 1.
Proof.
  intros (_ & _ & _ & _ & P) k o n Ho Hn.
  destruct (P k o n Ho Hn) as (HA & HR & HG & HB).
  repeat split; [exact HA| | |]; by apply upper7_close.
Qed.

Lemma buildEnvelope_im p i0 data ibw env :
  buildEnvelope p i0 data = Ok (ibw, env) -> im ibw = i0.
Proof.
  unfold buildEnvelope, NewImageByteWriter.
  destruct (negb (supported (ColorModel i0))); [discriminate|].
  cbn [mbind result_bind]. cbv zeta.
  destruct ((len data <? 0) || (2 ^ 32 - 1 <? len data)); [discriminate|].
  match goal with
  | |- context [mbind _ ?c] => destruct c as [req| | |]; try discriminate
  end.
  cbn [mbind result_bind].
  match goal with
  | |- context [if ?c then Err _ else _] => destruct c; [discriminate|]
  end.
  destruct (GetHiddenBytesFromImage i0) as [hd| | |]; try discriminate.
  cbn [mbind result_bind].
  destruct (fillEnvelope p hd data) as [hd'| | |]; try discriminate.
  cbn [mbind result_bind]. intros [= <- <-]. reflexivity.
Qed.

Lemma encodeImage_low `{RS : RandSource} `{CR : Crypto} p i0 ext data i1 :
  forallb pixel_ok (Pix i0) = true ->
  encodeImage p i0 ext data = Ok i1 ->
  same_but_lsb i0 i1.
Proof.
  intros Hok H. unfold encodeImage in H.
  destruct (buildEnvelope p i0 data) as [[ibw env]| | |] eqn:Eb;
    try discriminate.
  apply buildEnvelope_im in Eb.
  cbn [mbind result_bind fst snd] in H.
  match type of H with
  | context [mbind _ ?c] => destruct c as [hd1| | |]; try discriminate
  end.
  cbn [mbind result_bind] in H.
  match type of H with
  | context [mbind _ ?c] => destruct c as [hd2| | |]; try discriminate
  end.
  cbn [mbind result_bind] in H.
  destruct (Write ibw hd2) as [[s [n e]]| | |] eqn:Ew; try discriminate.
  cbn [mbind result_bind fst snd] in H.
  destruct e; [discriminate|]. injection H as <-.
  rewrite <- Eb in Hok |- *.
  exact (proj1 (Write_low _ _ _ _ Hok Ew)).
Qed.

End LowBits.

(** X12. Whatever the state of the writer and whatever the data, a Write that
    returns has changed nothing of the picture but least significant bits
    of R, G and B: the colour model and the bounds are the same, and every
    pixel has the alpha it had and channel values within 1 of the old
    ones (the upper seven bits of each are kept).  This holds as well for
    a Write that stops with an error after some bytes. *)
Theorem write_changes_only_low_bits
    (ibw ibw' : ImageByteWriter) (data : list Z) (r : Z * option error) :
  forallb pixel_ok (Pix (im ibw)) = true ->
  Write ibw data = Ok (ibw', r) ->
  same_but_lsb (im ibw) (im ibw') /\
  forall k o n,
    Pix (im ibw) !! k = Some o -> Pix (im ibw') !! k = Some n ->
    A n = A o /\ Z.abs (R n - R o) <= 1 /\
    Z.abs (G n - G o) <= 1 /\ Z.abs (B n - B o) <= 1.
Proof.
  intros Hok H. destruct (Write_low _ _ _ _ Hok H) as (Hs & _).
  split; [exact Hs|]. by apply same_but_lsb_close.
Qed.

Lemma write_changes_only_low_bits_witness :
  exists ibw' r,
    Write ibw_3x1 [75] = Ok (ibw', r) /\
    same_but_lsb (im ibw_3x1) (im ibw') /\
    forall k o n,
      Pix (im ibw_3x1) !! k = Some o -> Pix (im ibw') !! k = Some n ->
      A n = A o /\ Z.abs (R n - R o) <= 1 /\
      Z.abs (G n - G o) <= 1 /\ Z.abs (B n - B o) <= 1.
Proof.
  do 2 eexists. split; [vm_compute; reflexivity|].
  apply (write_changes_only_low_bits ibw_3x1 _ [75] (1, None)).
  - reflexivity.
  - vm_compute. reflexivity.
Defined.

(** X13. An encode that succeeds returns the picture it was given up to least
    significant bits of R, G and B, whatever the payload, the seed, the
    hash setting and the key: same colour model and bounds, every alpha
    unchanged, every R, G and B value within 1 of the input's. *)
Theorem encode_changes_only_low_bits `{RS : RandSource} `{CR : Crypto}
    (p : Program) (i0 i1 : Image) (ext : string) (data : list Z) :
  forallb pixel_ok (Pix i0) = true ->
  encodeImage p i0 ext data = Ok i1 ->
  same_but_lsb i0 i1 /\
  forall k o n,
    Pix i0 !! k = Some o -> Pix i1 !! k = Some n ->
    A n = A o /\ Z.abs (R n - R o) <= 1 /\
    Z.abs (G n - G o) <= 1 /\ Z.abs (B n - B o) <= 1.
Proof.
  intros Hok H. pose proof (encodeImage_low _ _ _ _ _ Hok H) as Hs.
  split; [exact Hs|]. by apply same_but_lsb_close.
Qed.

Lemma encode_changes_only_low_bits_witness :
  exists i1,
    encodeImage (RS := lcg) (CR := toy_crypto)
      (plain true "abc") (img_n 99 7) ".txt" [65] = Ok i1 /\
    same_but_lsb (img_n 99 7) i1 /\
    forall k o n,
      Pix (img_n 99 7) !! k = Some o -> Pix i1 !! k = Some n ->
      A n = A o /\ Z.abs (R n - R o) <= 1 /\
      Z.abs (G n - G o) <= 1 /\ Z.abs (B n - B o) <= 1.
Proof.
  eexists. split; [vm_compute; reflexivity|].
  apply (encode_changes_only_low_bits (RS := lcg) (CR := toy_crypto)
           (plain true "abc") (img_n 99 7) _ ".txt" [65]).
  - vm_compute. reflexivity.
  - vm_compute. reflexivity.
Defined.

(* ===================================================================== *)
(** ** The seeded shuffle: no byte lost, and unshuffle on any buffer *)
(* ===================================================================== *)

Section ShufflePermutes.

Context `{RS : RandSource}.

Lemma shuffleRound_perm {A} hash i (l l' : list A) :
  shuffleRound hash l i = Ok l' -> l' ≡ₚ l.
Proof.
  intros H.
  destruct (roundSeed hash i) as [s| | |] eqn:Es;
    try (unfold shuffleRound in H; rewrite Es in H; discriminate).
  rewrite (shuffleRound_swaps hash i s l Es) in H.
  by apply applySwaps_perm in H.
Qed.

Lemma rounds_perm {A} hash : forall todo (l l' : list A),
  foldM (shuffleRound hash) todo l = Ok l' -> l' ≡ₚ l.
Proof.
  induction todo as [|i todo IH]; intros l l' H.
  - injection H as <-. reflexivity.
  - cbn [foldM] in H.
    destruct (shuffleRound hash l i) as [l1| | |] eqn:E; try discriminate.
    cbn [mbind result_bind] in H.
    rewrite (IH l1 l' H). by apply shuffleRound_perm in E.
Qed.

Lemma place_length n ps : length (place n ps) = n.
Proof.
  induction ps as [|p ps IH]; cbn [place foldr].
  - apply repeat_length.
  - fold (place n ps). by rewrite length_insert.
Qed.

Lemma place_lookup n : forall ps,
  NoDup (ps.*1) -> (forall p, p ∈ ps -> (fst p < n)%nat) ->
  forall k v x, ps !! k = Some (v, x) -> place n ps !! v = Some x.
Proof.
  induction ps as [|p ps IH]; intros Hnd Hlt k v x Hk; [discriminate|].
  cbn [place foldr]. fold (place n ps).
  rewrite fmap_cons in Hnd. apply NoDup_cons in Hnd as [Hnotin Hnd].
  destruct k as [|k].
  - injection Hk as ->. cbn [fst snd].
    apply list_lookup_insert_eq. rewrite place_length.
    apply (Hlt (v, x)). by left.
  - cbn in Hk.
    assert (Hin : (v, x) ∈ ps) by (by apply (list_elem_of_lookup_2 ps k)).
    assert (Hne : fst p <> v).
    { intros <-. apply Hnotin.
      apply list_elem_of_fmap. exists (fst p, x). by split. }
    rewrite list_lookup_insert_ne by exact Hne.
    apply (IH Hnd (fun q Hq => Hlt q (list_elem_of_further _ _ _ Hq)) k v x Hk).
Qed.

(** Every buffer is the image, under an injective index array of its
    length, of some buffer. *)
Lemma tracks_source (data : list Z) idx :
  length idx = length data -> injective_below (length data) idx ->
  exists orig, length orig = length data /\ tracks orig data idx.
Proof.
  intros Hl (Hlt & Hinj).
  exists (place (length data) (zip idx data)).
  assert (Hfst : (zip idx data).*1 = idx) by (apply fst_zip; lia).
  split; [apply place_length|].
  unfold tracks. rewrite place_length.
  split; [reflexivity|]. split; [exact Hl|].
  intros k. destruct (idx !! k) as [v|] eqn:Ev; cbn [mbind option_bind].
  - assert (Hk : (k < length data)%nat)
      by (rewrite <- Hl; apply lookup_lt_is_Some; by eexists).
    destruct (lookup_lt_is_Some_2 data k Hk) as [x Hx].
    rewrite Hx. symmetry.
    apply (place_lookup (length data) (zip idx data)) with (k := k).
    + rewrite Hfst. apply NoDup_alt. intros i j y Hi Hj.
      exact (Hinj i j y Hi Hj).
    + intros [v' x'] Hin. cbn [fst].
      apply list_elem_of_lookup in Hin as [i Hi].
      apply lookup_zip_with_Some in Hi as (a & b & E & Ha & Hb).
      injection E as -> ->. exact (Hlt i a Ha).
    + apply lookup_zip_with_Some. exists v, x. by repeat split.
  - apply lookup_ge_None. rewrite <- Hl. by apply lookup_ge_None.
Qed.

(** unshuffle returns on every buffer, and the four rounds put its result
    back in the order the buffer had. *)
Lemma unshuffle_any (seed : string) (data : list Z) :
  exists out,
    unshuffle seed data = Ok out /\ length out = length data /\
    shuffleRounds seed out = Ok data.
Proof.
  destruct (shuffleRounds_tracks seed data)
    as (d0 & idx & _ & Hidx & (_ & Hli & _) & Hinj).
  destruct (tracks_source data idx Hli Hinj) as (orig & Hlo & Htr).
  rewrite <- Hlo in Hinj.
  destruct (restoreOrder_ok orig data idx Htr Hinj) as (idx' & Hres).
  exists orig. split; [|split; [exact Hlo|]].
  - unfold unshuffle. rewrite Hidx. cbn [mbind result_bind].
    rewrite <- Hlo, Hres. reflexivity.
  - destruct (shuffleRounds_tracks seed orig)
      as (d1 & idx1 & Hd1 & Hidx1 & Htr1 & _).
    rewrite Hlo, Hidx in Hidx1. injection Hidx1 as <-.
    rewrite Hd1. f_equal. apply list_eq. intros k.
    destruct Htr as (_ & _ & Hk), Htr1 as (_ & _ & Hk1).
    by rewrite Hk, Hk1.
Qed.

End ShufflePermutes.

(** X14. The four seeded rounds lose and duplicate nothing: for every seed and
    every buffer they return a buffer that is a permutation of the one
    they were given (on encode the hidden data, on decode the indexes). *)
Theorem shuffle_is_permutation `{RS : RandSource} {A : Type}
    (seed : string) (l : list A) :
  exists l', shuffleRounds seed l = Ok l' /\ l' ≡ₚ l.
Proof.
  destruct (shuffleRounds_tracks seed l) as (l' & idx & Hl & _).
  exists l'. split; [exact Hl|].
  rewrite shuffleRounds_unfold in Hl. by apply rounds_perm in Hl.
Qed.

(** X15. The unshuffle of decodeImage returns on every buffer, shuffled by the
    program or not: its inner loop ends within len(buffer) swaps per
    index, the result has the length of the buffer, and the four rounds
    applied to the result give the buffer back.  With the round trip the
    other way (C2), shuffle and unshuffle under one seed are inverse
    bijections on buffers of each length. *)
Theorem unshuffle_total_right_inverse `{RS : RandSource}
    (seed : string) (data : list Z) :
  exists out,
    unshuffle seed data = Ok out /\ length out = length data /\
    shuffleRounds seed out = Ok data.
Proof. apply unshuffle_any. Qed.

(* ===================================================================== *)
(** ** encodeImage and decodeImage: refusals and what a decode returns *)
(* ===================================================================== *)

Section Refusals.

Context `{RS : RandSource} `{CR : Crypto}.

Lemma bytes_ok_perm l l' : l ≡ₚ l' -> bytes_ok l = true -> bytes_ok l' = true.
Proof.
  intros Hp Hl. apply forallb_forall. intros x Hx.
  apply (proj1 (forallb_forall _ _) Hl).
  apply list_elem_of_In. rewrite Hp. by apply list_elem_of_In.
Qed.

Lemma decodeImage_buffer p i0 :
  decodeImage p i0
  = buf ← decodeBuffer p i0;
    if nonempty (keyFile p) then parseEncrypted p buf else parsePlain p buf.
Proof.
  unfold decodeImage, decodeBuffer.
  destruct (GetHiddenBytesFromImage i0) as [hd| | |]; reflexivity.
Qed.

(** The buffer decodeImage parses exists for every supported image; it
    has capacity bytes. *)
Lemma decodeBuffer_ok p i0 :
  wf_image i0 ->
  exists buf,
    decodeBuffer p i0 = Ok buf /\
    len buf = (Dx i0 * Dy i0 * 3) / 8 /\ bytes_ok buf = true.
Proof.
  intros Hwf.
  destruct (GetHiddenBytes_ok i0 Hwf) as (carrier & Hcar & Hlen & Hok).
  unfold decodeBuffer. rewrite Hcar. cbn [mbind result_bind].
  destruct (nonempty (shuffleSeed p)).
  - destruct (unshuffle_any (shuffleSeed p) carrier)
      as (out & Hun & Hlo & Hback).
    exists out. split; [exact Hun|]. split.
    + unfold len in *. by rewrite Hlo.
    + rewrite shuffleRounds_unfold in Hback. apply rounds_perm in Hback.
      exact (bytes_ok_perm _ _ Hback Hok).
  - exists carrier. by repeat split.
Qed.

Lemma slice_negative {A} (l : list A) lo hi : lo < 0 -> slice l lo hi = Panic.
Proof.
  intros H. unfold slice.
  replace (0 <=? lo) with false by (symmetry; apply Z.leb_gt; lia).
  reflexivity.
Qed.

Lemma slice_inverted {A} (l : list A) lo hi : hi < lo -> slice l lo hi = Panic.
Proof.
  intros H. unfold slice.
  replace (lo <=? hi) with false by (symmetry; apply Z.leb_gt; lia).
  by rewrite andb_false_r.
Qed.

Lemma parsePlain_short p buf : len buf < 36 -> parsePlain p buf = Panic.
Proof.
  intros H. unfold parsePlain. cbv zeta.
  rewrite (slice_negative buf (len buf - HASH_SIZE - FSIZE_LEN));
    [reflexivity|].
  unfold HASH_SIZE, FSIZE_LEN, sha256.Size. lia.
Qed.

Lemma parseEncrypted_short p buf : len buf < 256 -> parseEncrypted p buf = Panic.
Proof.
  intros H. unfold parseEncrypted. cbv zeta.
  rewrite (slice_inverted buf 0 (len buf - RSA_SIZE)); [reflexivity|].
  unfold RSA_SIZE. lia.
Qed.

End Refusals.

(** X16. An image whose colour model is neither RGBA nor NRGBA is refused by
    every entry point with the "expected a RGB(A) image" error: by
    NewImageByteWriter and GetHiddenBytesFromImage, and so by encodeImage
    and decodeImage, whatever the flags and the payload. *)
Theorem unsupported_model_rejected `{RS : RandSource} `{CR : Crypto}
    (p : Program) (i0 : Image) (ext : string) (data : list Z) :
  supported (ColorModel i0) = false ->
  NewImageByteWriter i0 = Err ErrExpectedRGB /\
  GetHiddenBytesFromImage i0 = Err ErrExpectedRGB /\
  encodeImage p i0 ext data = Err ErrExpectedRGB /\
  decodeImage p i0 = Err ErrExpectedRGB.
Proof.
  intros H.
  assert (H1 : NewImageByteWriter i0 = Err ErrExpectedRGB)
    by (unfold NewImageByteWriter; by rewrite H).
  assert (H2 : GetHiddenBytesFromImage i0 = Err ErrExpectedRGB)
    by (unfold GetHiddenBytesFromImage; by rewrite H).
  repeat split; try assumption.
  - unfold encodeImage, buildEnvelope. by rewrite H1.
  - unfold decodeImage. by rewrite H2.
Qed.

Lemma unsupported_model_rejected_witness :
  NewImageByteWriter img_other = Err ErrExpectedRGB /\
  GetHiddenBytesFromImage img_other = Err ErrExpectedRGB /\
  encodeImage (RS := lcg) (CR := toy_crypto) (plain true "") img_other ".txt" [65]
  = Err ErrExpectedRGB /\
  decodeImage (RS := lcg) (CR := toy_crypto) (plain true "") img_other
  = Err ErrExpectedRGB.
Proof.
  apply (unsupported_model_rejected (RS := lcg) (CR := toy_crypto)
           (plain true "") img_other ".txt" [65]).
  reflexivity.
Defined.

(** X17. On a supported image, encodeImage refuses a payload shorter than
    2^32 bytes that does not fit, with the "image capacity is too small"
    error: in plain mode when len(payload) + 36 exceeds the capacity,
    with a key file when len(payload) + 16 + 256 does. *)
Theorem encode_capacity_too_small `{RS : RandSource} `{CR : Crypto}
    (p : Program) (i0 : Image) (ext : string) (data : list Z) :
  wf_image i0 -> len data < 2 ^ 32 ->
  (Dx i0 * Dy i0 * 3) / 8
  < (if nonempty (keyFile p) then len data + 16 + 256 else len data + 36) ->
  encodeImage p i0 ext data = Err ErrCapacityTooSmall.
Proof.
  intros Hwf Hsz Hcap.
  destruct (NewImageByteWriter_sync i0 Hwf)
    as (ibw & Hnew & _ & _ & _ & Hc).
  unfold encodeImage, buildEnvelope. rewrite Hnew.
  cbn [mbind result_bind]. cbv zeta.
  assert (H0 : 0 <= len data) by (unfold len; lia).
  replace ((len data <? 0) || (2 ^ 32 - 1 <? len data)) with false
    by (symmetry; apply orb_false_iff; split;
        [apply Z.ltb_ge|apply Z.ltb_ge]; lia).
  unfold calculateRSAOverhead, gcmOverhead, RSA_SIZE, HASH_SIZE, FSIZE_LEN,
    sha256.Size, Capacity.
  destruct (nonempty (keyFile p)); cbn [mbind result_bind];
    match goal with
    | |- context [if ?c then Err _ else _] =>
        replace c with true by (symmetry; apply Z.ltb_lt; lia)
    end; reflexivity.
Qed.

Lemma encode_capacity_too_small_witness :
  encodeImage (RS := lcg) (CR := toy_crypto)
    (keyed true) (img_n 99 7) ".txt" [65] = Err ErrCapacityTooSmall.
Proof.
  apply (encode_capacity_too_small (RS := lcg) (CR := toy_crypto)
           (keyed true) (img_n 99 7) ".txt" [65]).
  - apply (wf_img_n 99 7); lia.
  - vm_compute. reflexivity.
  - vm_compute. reflexivity.
Defined.

(** X18. decodeImage has no check that the image holds an envelope at all: on
    a supported image with fewer than 36 hidden bytes (fewer than 256 with
    a key file) it panics on a slice with a negative bound instead of
    returning an error, whatever the seed and the hash setting. *)
Theorem decode_small_image_panics `{RS : RandSource} `{CR : Crypto}
    (p : Program) (i0 : Image) :
  wf_image i0 ->
  (Dx i0 * Dy i0 * 3) / 8 < (if nonempty (keyFile p) then 256 else 36) ->
  decodeImage p i0 = Panic.
Proof.
  intros Hwf Hcap.
  destruct (decodeBuffer_ok p i0 Hwf) as (buf & Hbuf & Hlen & _).
  rewrite decodeImage_buffer, Hbuf. cbn [mbind result_bind].
  destruct (nonempty (keyFile p)).
  - apply parseEncrypted_short. lia.
  - apply parsePlain_short. lia.
Qed.

Lemma decode_small_image_panics_witness :
  decodeImage (RS := lcg) (CR := toy_crypto) (plain true "abc") (img_n 95 7)
  = Panic.
Proof.
  apply (decode_small_image_panics (RS := lcg) (CR := toy_crypto)
           (plain true "abc") (img_n 95 7)).
  - apply (wf_img_n 95 7); lia.
  - vm_compute. reflexivity.
Defined.

(** X19. What a plain decode returns.  Whenever decodeImage without a key
    file succeeds on a supported image (of fewer than 2^32 + 36 hidden
    bytes), the bytes it writes are the first L bytes of the buffer it
    parsed, where L is the big-endian length field at offset
    capacity - 36; L is at least 1 and at most capacity - 36; and with
    hashing enabled the SHA-256 of the bytes written equals the last 32
    bytes of the buffer.  So a decode with hashing never returns bytes
    whose hash differs from the stored one. *)
Theorem decode_plain_sound `{RS : RandSource} `{CR : Crypto}
    (p : Program) (i0 : Image) (out : list Z) :
  wf_image i0 -> nonempty (keyFile p) = false ->
  (Dx i0 * Dy i0 * 3) / 8 - 36 < 2 ^ 32 ->
  decodeImage p i0 = Ok out ->
  exists buf,
    decodeBuffer p i0 = Ok buf /\
    len buf = (Dx i0 * Dy i0 * 3) / 8 /\
    1 <= len out <= len buf - 36 /\
    lengthField buf = len out /\
    out = take (length out) buf /\
    (doHash p = true ->
     sha256.Sum256 out = drop (Z.to_nat (len buf - 32)) buf).
Proof.
  intros Hwf Hkey Hcap H.
  destruct (decodeBuffer_ok p i0 Hwf) as (buf & Hbuf & Hlen & Hok).
  rewrite decodeImage_buffer, Hbuf, Hkey in H. cbn [mbind result_bind] in H.
  exists buf. split; [exact Hbuf|]. split; [exact Hlen|].
  destruct (Z.lt_ge_cases (len buf) 36) as [Hs|Hs].
  { rewrite parsePlain_short in H by exact Hs. discriminate. }
  rewrite parsePlain_unfold in H by lia.
  pose proof (lengthField_bound buf Hok) as HL.
  destruct (lengthField buf =? 0) eqn:E0; [discriminate|].
  apply Z.eqb_neq in E0.
  rewrite uint32_wrap_small in H by lia.
  destruct (len buf - 36 <? lengthField buf) eqn:E1; [discriminate|].
  apply Z.ltb_ge in E1.
  rewrite slice_prefix in H by lia. cbn [mbind result_bind] in H.
  set (payload := take (Z.to_nat (lengthField buf)) buf) in *.
  assert (Lp : length payload = Z.to_nat (lengthField buf)).
  { unfold payload. rewrite length_take. unfold len in *. lia. }
  assert (Hout : out = payload /\
                 (doHash p = true ->
                  sha256.Sum256 payload = drop (Z.to_nat (len buf - 32)) buf)).
  { destruct (doHash p).
    - destruct (bool_decide (sha256.Sum256 payload
                             = drop (Z.to_nat (len buf - 32)) buf)) eqn:Eh;
        [|discriminate].
      apply bool_decide_eq_true in Eh. injection H as <-. by split.
    - injection H as <-. split; [reflexivity|discriminate]. }
  destruct Hout as [-> Hh].
  unfold len at 1 2 4. rewrite Lp.
  split; [lia|]. split; [lia|]. split; [reflexivity|exact Hh].
Qed.

Lemma decode_plain_sound_witness :
  exists buf,
    decodeBuffer (RS := lcg) (plain true "") img_encoded = Ok buf /\
    len buf = (Dx img_encoded * Dy img_encoded * 3) / 8 /\
    1 <= len [65] <= len buf - 36 /\
    lengthField buf = len [65] /\
    [65] = take (length [65]) buf /\
    (doHash (plain true "") = true ->
     sha256.Sum256 [65] = drop (Z.to_nat (len buf - 32)) buf).
Proof.
  apply (decode_plain_sound (RS := lcg) (CR := toy_crypto)
           (plain true "") img_encoded [65]).
  - unfold wf_image, len. repeat split; vm_compute; congruence.
  - reflexivity.
  - vm_compute. reflexivity.
  - vm_compute. reflexivity.
Defined.

(* ===================================================================== *)
(** ** The encrypted mode: layout, round trip and refusals *)
(* ===================================================================== *)

Section EncryptedPipeline.

Context `{RS : RandSource} `{CR : Crypto}.

Lemma slice_app3 {A} (pre mid post : list A) lo hi :
  lo = len pre -> hi = lo + len mid ->
  slice (pre ++ mid ++ post) lo hi = Ok mid.
Proof.
  intros -> ->. unfold len.
  rewrite slice_Ok by (unfold len; rewrite ?length_app; lia).
  f_equal. rewrite Nat2Z.id, drop_app_length.
  replace (Z.to_nat (Z.of_nat (length pre) + Z.of_nat (length mid)
                     - Z.of_nat (length pre))) with (length mid) by lia.
  apply take_app_length.
Qed.

Lemma bytes_of_string_ok s : bytes_ok (bytes_of_string s) = true.
Proof.
  unfold bytes_ok, bytes_of_string. apply forallb_forall.
  intros x Hx. apply in_map_iff in Hx as (a & <- & _).
  unfold is_byte. pose proof (N_ascii_bounded a) as Hb.
  apply andb_true_iff. split; [apply Z.leb_le|apply Z.ltb_lt]; lia.
Qed.

Lemma bytes_ok_repeat0 n : bytes_ok (repeat 0 n) = true.
Proof. induction n; [reflexivity|exact IHn]. Qed.

Lemma copy_at_bytes_ok dst n src :
  bytes_ok dst = true -> bytes_ok src = true ->
  bytes_ok (copy_at dst n src) = true.
Proof.
  intros Hd Hs. unfold copy_at.
  rewrite !bytes_ok_app.
  rewrite bytes_ok_take, bytes_ok_take, bytes_ok_drop by assumption.
  reflexivity.
Qed.

(** encryptDataWithRSA up to the RSA step, with the values it builds. *)
Lemma sealAndTail_exact data ext hl k nn :
  randomKey = Ok k -> randomNonce = Ok nn -> length hl = 36%nat ->
  sealAndTail data ext hl
  = Ok (gcmSeal k nn data,
        (k ++ nn ++ PutUint64 (now mod 2 ^ 64)
           ++ copy_at (repeat 0 16) 0 (bytes_of_string ext)
           ++ PutUint32 (uint32_wrap (len (gcmSeal k nn data))) ++ drop 4 hl,
         PutUint32 (uint32_wrap (len (gcmSeal k nn data))) ++ drop 4 hl)).
Proof.
  intros Hk Hn Hl. pose proof (randomNonce_length nn Hn) as Ln.
  unfold sealAndTail. rewrite Hk, Hn. cbn [mbind result_bind].
  set (sealed := gcmSeal k nn data).
  assert (L : len (nn ++ sealed) = 12 + len sealed)
    by (unfold len; rewrite length_app; lia).
  unfold gcmNonceSize.
  rewrite (slice_Ok (nn ++ sealed) 0 12) by (unfold len in *; lia).
  cbn [mbind result_bind].
  rewrite (slice_suffix (nn ++ sealed) 12) by (unfold len in *; lia).
  cbn [mbind result_bind].
  rewrite (slice_Ok hl 0 4) by (unfold len; lia). cbn [mbind result_bind].
  change (Z.to_nat (12 - 0)) with 12%nat. change (Z.to_nat 0) with 0%nat.
  change (Z.to_nat 12) with 12%nat.
  change (drop 0 (nn ++ sealed)) with (nn ++ sealed).
  rewrite take_app_length' by (symmetry; exact Ln).
  rewrite drop_app_length' by (symmetry; exact Ln).
  assert (C : copy_at hl 0 (PutUint32 (uint32_wrap (len sealed)))
              = PutUint32 (uint32_wrap (len sealed)) ++ drop 4 hl).
  { unfold copy_at. change (take 0 hl) with (@nil Z). cbn [app].
    rewrite take_ge by (rewrite PutUint32_length; lia).
    by rewrite PutUint32_length. }
  rewrite C. reflexivity.
Qed.

(** The encryption step on an envelope cut into the payload, the 16
    bytes behind it, the bytes up to the last 256, and these in two parts
    (the last 36 being the length and the hash): the sealed payload takes
    the place of the payload and the 16 bytes, the RSA block that of the
    last 256, and what lies between stays. *)
Lemma encryptEnvelope_segments p ext data segB segC segD hl pub k nn c :
  length segB = 16%nat -> length segD = 220%nat -> length hl = 36%nat ->
  randomKey = Ok k -> randomNonce = Ok nn ->
  LoadRSAPublicKey (keyFile p) = Ok pub ->
  length (gcmSeal k nn data) = (length data + 16)%nat ->
  EncryptPKCS1v15 pub
    (k ++ nn ++ PutUint64 (now mod 2 ^ 64)
       ++ copy_at (repeat 0 16) 0 (bytes_of_string ext)
       ++ PutUint32 (uint32_wrap (len (gcmSeal k nn data))) ++ drop 4 hl)
  = Ok c ->
  encryptEnvelope p ext (len data) (data ++ segB ++ segC ++ segD ++ hl)
  = if len c =? 256 then Ok (gcmSeal k nn data ++ segC ++ c)
    else Err ErrRSASize.
Proof.
  intros LB LD Lhl Hk Hn Hpub Lseal Henc.
  set (sealed := gcmSeal k nn data) in *.
  set (lf := PutUint32 (uint32_wrap (len sealed))) in *.
  assert (Llf : length lf = 4%nat) by apply PutUint32_length.
  assert (Ldrop : length (drop 4 hl) = 32%nat) by (rewrite length_drop; lia).
  set (env := data ++ segB ++ segC ++ segD ++ hl).
  assert (Lenv : length env
                 = (length data + 16 + length segC + 220 + 36)%nat)
    by (unfold env; rewrite !length_app; lia).
  unfold encryptEnvelope. cbv zeta.
  unfold HASH_SIZE, FSIZE_LEN, RSA_SIZE, sha256.Size, gcmOverhead.
  (* the payload and hashAndLength *)
  assert (S0 : slice env 0 (len data) = Ok data).
  { apply (slice_app3 [] data (segB ++ segC ++ segD ++ hl) 0 (len data));
      unfold len; cbn [length]; lia. }
  rewrite S0. cbn [mbind result_bind].
  assert (S1 : slice env (len env - 32 - 4) (len env) = Ok hl).
  { replace env with ((data ++ segB ++ segC ++ segD) ++ hl ++ [])
      by (unfold env; rewrite app_nil_r, <- !app_assoc; reflexivity).
    apply slice_app3; unfold len; rewrite ?length_app; cbn [length]; lia. }
  rewrite S1. cbn [mbind result_bind].
  unfold encryptDataWithRSA. rewrite Hpub. cbn [mbind result_bind].
  rewrite (sealAndTail_exact data ext hl k nn Hk Hn Lhl).
  cbn [mbind result_bind fst snd]. fold sealed. fold lf.
  rewrite Henc. cbn [mbind result_bind fst snd].
  (* the length written through the alias *)
  assert (C1 : copy_at env (Z.to_nat (len env - 32 - 4)) (lf ++ drop 4 hl)
               = data ++ segB ++ segC ++ segD ++ lf ++ drop 4 hl).
  { replace env with ((data ++ segB ++ segC ++ segD) ++ hl ++ [])
      by (unfold env; rewrite app_nil_r, <- !app_assoc; reflexivity).
    replace (Z.to_nat (len ((data ++ segB ++ segC ++ segD) ++ hl ++ []) - 32 - 4))
      with (length (data ++ segB ++ segC ++ segD))
      by (unfold len; rewrite ?length_app; cbn [length]; lia).
    rewrite copy_at_middle by (rewrite length_app; lia).
    by rewrite app_nil_r, <- !app_assoc. }
  rewrite C1.
  set (hd1 := data ++ segB ++ segC ++ segD ++ lf ++ drop 4 hl).
  assert (Lhd1 : length hd1 = length env)
    by (unfold hd1; rewrite Lenv, !length_app; lia).
  replace (len data + 16 <? len sealed) with false
    by (symmetry; apply Z.ltb_ge; unfold len; lia).
  destruct (len c =? 256) eqn:Ec; [|reflexivity].
  apply Z.eqb_eq in Ec.
  assert (Lc : length c = 256%nat) by (unfold len in Ec; lia).
  cbn [negb].
  rewrite (slice_prefix hd1 (len sealed)) by (unfold len; lia).
  cbn [mbind result_bind].
  assert (C2 : copy_at hd1 0 sealed
               = sealed ++ segC ++ segD ++ lf ++ drop 4 hl).
  { replace hd1 with ([] ++ (data ++ segB) ++ segC ++ segD ++ lf ++ drop 4 hl)
      by (unfold hd1; cbn [app]; rewrite <- !app_assoc; reflexivity).
    change 0%nat with (length (@nil Z)).
    rewrite copy_at_middle by (rewrite length_app; lia).
    reflexivity. }
  rewrite C2.
  set (hd2 := sealed ++ segC ++ segD ++ lf ++ drop 4 hl).
  assert (Lhd2 : length hd2 = length env)
    by (unfold hd2; rewrite Lenv, !length_app; lia).
  rewrite (slice_suffix hd2 (len hd2 - 256)) by (unfold len; lia).
  cbn [mbind result_bind]. f_equal.
  replace hd2 with ((sealed ++ segC) ++ (segD ++ lf ++ drop 4 hl) ++ [])
    by (unfold hd2; rewrite app_nil_r, <- !app_assoc; reflexivity).
  replace (Z.to_nat (len ((sealed ++ segC) ++ (segD ++ lf ++ drop 4 hl) ++ [])
                     - 256))
    with (length (sealed ++ segC))
    by (unfold len; rewrite ?length_app; cbn [length]; lia).
  rewrite copy_at_middle by (rewrite !length_app; lia).
  by rewrite app_nil_r, <- app_assoc.
Qed.

(** decryptDataWithRSA on a decrypted tail cut into its fields. *)
Lemma decryptDataWithRSA_fields rsaKey dataBlock tailBlock priv
    k nn ts extb lb hf :
  LoadRSAPrivateKey rsaKey = Ok priv ->
  DecryptPKCS1v15 priv tailBlock = Ok (k ++ nn ++ ts ++ extb ++ lb ++ hf) ->
  length k = 32%nat -> length nn = 12%nat -> length ts = 8%nat ->
  length extb = 16%nat -> length lb = 4%nat ->
  decryptDataWithRSA rsaKey dataBlock tailBlock
  = if negb (len hf =? 32) then Err ErrWrongHashLength
    else if uint32_wrap (len dataBlock) <? be_value lb
         then Err ErrDataLengthTooHigh
         else
           sealed ← slice dataBlock 0 (be_value lb);
           plainData ← gcmOpen k nn sealed;
           Ok (plainData, mkInfo (int64_wrap (be_value ts)) extb (be_value lb) hf).
Proof.
  intros Hpriv Hdec Lk Ln Lt Le Ll.
  unfold decryptDataWithRSA. rewrite Hpriv. cbn [mbind result_bind].
  rewrite Hdec. cbn [mbind result_bind]. unfold gcmNonceSize.
  set (tail := k ++ nn ++ ts ++ extb ++ lb ++ hf).
  assert (S1 : slice tail 0 32 = Ok k).
  { apply (slice_app3 [] k (nn ++ ts ++ extb ++ lb ++ hf));
      unfold len; cbn [length]; lia. }
  assert (S2 : slice tail 32 (32 + 12) = Ok nn).
  { apply (slice_app3 k nn (ts ++ extb ++ lb ++ hf)); unfold len; lia. }
  assert (S3 : slice tail (12 + 32) (12 + 40) = Ok ts).
  { replace tail with ((k ++ nn) ++ ts ++ extb ++ lb ++ hf)
      by (unfold tail; by rewrite <- !app_assoc).
    apply slice_app3; unfold len; rewrite ?length_app; lia. }
  assert (S4 : slice tail (12 + 40) (12 + 56) = Ok extb).
  { replace tail with ((k ++ nn ++ ts) ++ extb ++ lb ++ hf)
      by (unfold tail; by rewrite <- !app_assoc).
    apply slice_app3; unfold len; rewrite ?length_app; lia. }
  assert (S5 : slice tail (12 + 56) (12 + 60) = Ok lb).
  { replace tail with ((k ++ nn ++ ts ++ extb) ++ lb ++ hf)
      by (unfold tail; by rewrite <- !app_assoc).
    apply slice_app3; unfold len; rewrite ?length_app; lia. }
  assert (S6 : slice tail (12 + 60) (len tail) = Ok hf).
  { replace tail with ((k ++ nn ++ ts ++ extb ++ lb) ++ hf ++ [])
      by (unfold tail; by rewrite app_nil_r, <- !app_assoc).
    apply slice_app3; unfold len; rewrite ?length_app; cbn [length]; lia. }
  rewrite S1. cbn [mbind result_bind].
  rewrite S2. cbn [mbind result_bind].
  rewrite S3. cbn [mbind result_bind].
  rewrite S4. cbn [mbind result_bind].
  rewrite S5. cbn [mbind result_bind].
  rewrite S6. cbn [mbind result_bind].
  destruct (negb (len hf =? 32)); [reflexivity|].
  unfold Uint32, Uint64.
  replace (4 <=? length lb)%nat with true
    by (symmetry; apply Nat.leb_le; lia).
  replace (8 <=? length ts)%nat with true
    by (symmetry; apply Nat.leb_le; lia).
  cbn [mbind result_bind].
  rewrite (firstn_all2 lb) by lia. rewrite (firstn_all2 ts) by lia.
  reflexivity.
Qed.

(** The envelope of an encode with a key file and what the encryption
    step makes of it, for whatever block the RSA encryption returns. *)
Lemma encryptEnvelope_keyed p i0 ext data pub k nn :
  wf_image i0 -> nonempty (keyFile p) = true ->
  len data < 2 ^ 32 -> len data + 16 + 256 <= (Dx i0 * Dy i0 * 3) / 8 ->
  randomKey = Ok k -> randomNonce = Ok nn ->
  LoadRSAPublicKey (keyFile p) = Ok pub ->
  length (gcmSeal k nn data) = (length data + 16)%nat ->
  exists ibw carrier env,
    NewImageByteWriter i0 = Ok ibw /\ capacity ibw = len carrier /\
    GetHiddenBytesFromImage i0 = Ok carrier /\
    len carrier = (Dx i0 * Dy i0 * 3) / 8 /\ bytes_ok carrier = true /\
    buildEnvelope p i0 data = Ok (ibw, env) /\
    forall c,
      EncryptPKCS1v15 pub
        (k ++ nn ++ PutUint64 (now mod 2 ^ 64)
           ++ copy_at (repeat 0 16) 0 (bytes_of_string ext)
           ++ PutUint32 (uint32_wrap (len (gcmSeal k nn data)))
           ++ (if doHash p then sha256.Sum256 data
               else drop (length carrier - 32) carrier)) = Ok c ->
      encryptEnvelope p ext (len data) env
      = if len c =? 256
        then Ok (gcmSeal k nn data
                   ++ take (length carrier - 272 - length data)
                        (drop (length data + 16) carrier)
                   ++ c)
        else Err ErrRSASize.
Proof.
  intros Hwf Hkey Hsz Hfit Hk Hn Hpub Lseal.
  destruct (buildEnvelope_layout p i0 data Hwf Hsz) as
    (ibw & carrier & Hnew & Hcap & Hget & Hlen & Hok & Hbuild).
  { rewrite Hkey. exact Hfit. }
  cbv zeta in Hbuild. rewrite <- Hlen in Hbuild, Hfit, Hcap.
  assert (H0 : 0 <= len data) by (unfold len; lia).
  unfold len in Hfit.
  replace (Z.to_nat (len carrier - 36 - len data))
    with (length carrier - 36 - length data)%nat in Hbuild
    by (unfold len; lia).
  replace (Z.to_nat (len carrier - 32))
    with (length carrier - 32)%nat in Hbuild by (unfold len; lia).
  set (hf := if doHash p then sha256.Sum256 data
             else drop (length carrier - 32) carrier) in *.
  assert (Lhf : length hf = 32%nat).
  { unfold hf. destruct (doHash p);
      [apply Sum256_length|rewrite length_drop; lia]. }
  set (X := drop (length data) carrier) in *.
  set (cc := (length carrier - 272 - length data)%nat).
  set (M := take (length carrier - 36 - length data) X) in *.
  assert (LX : length X = (length carrier - length data)%nat)
    by (unfold X; apply length_drop).
  assert (LM : length M = (length carrier - 36 - length data)%nat)
    by (unfold M; rewrite length_take; lia).
  set (segB := take 16 M).
  set (segC := take cc (drop 16 M)).
  set (segD := drop (16 + cc) M).
  assert (EM : M = segB ++ segC ++ segD).
  { unfold segB, segC, segD.
    rewrite <- (take_drop 16 M) at 1. f_equal.
    rewrite <- (take_drop cc (drop 16 M)) at 1. f_equal.
    by rewrite drop_drop. }
  assert (EC : segC = take cc (drop (length data + 16) carrier)).
  { unfold segC, M. rewrite take_drop_commute, take_take.
    replace ((16 + cc) `min` (length carrier - 36 - length data))%nat
      with (16 + cc)%nat by (unfold cc; lia).
    rewrite <- take_drop_commute. unfold X. by rewrite drop_drop. }
  set (hl := PutUint32 (len data) ++ hf) in *.
  assert (Lhl : length hl = 36%nat)
    by (unfold hl; rewrite length_app, PutUint32_length; lia).
  assert (LB : length segB = 16%nat)
    by (unfold segB; rewrite length_take; lia).
  assert (LD : length segD = 220%nat)
    by (unfold segD; rewrite length_drop; unfold cc; lia).
  exists ibw, carrier, (data ++ M ++ hl).
  do 6 (split; [assumption|]).
  intros c Henc. fold cc. rewrite <- EC, EM, <- !app_assoc.
  exact (encryptEnvelope_segments p ext data segB segC segD hl pub k nn c
           LB LD Lhl Hk Hn Hpub Lseal Henc).
Qed.

(** An encode with a key file, from the carrier to the image: the hidden
    bytes of the image it returns are the sealed payload, the bytes the
    carrier had behind it up to the last 256, and the RSA block (shuffled
    when a seed is set). *)
Lemma encodeImage_keyed p i0 ext data pub k nn :
  wf_image i0 -> bytes_ok data = true -> nonempty (keyFile p) = true ->
  len data < 2 ^ 32 -> len data + 16 + 256 <= (Dx i0 * Dy i0 * 3) / 8 ->
  randomKey = Ok k -> randomNonce = Ok nn ->
  bytes_ok k = true -> bytes_ok nn = true ->
  LoadRSAPublicKey (keyFile p) = Ok pub ->
  length (gcmSeal k nn data) = (length data + 16)%nat ->
  bytes_ok (gcmSeal k nn data) = true ->
  (forall m, length m = 104%nat -> bytes_ok m = true ->
     exists c, EncryptPKCS1v15 pub m = Ok c /\ length c = 256%nat /\
               bytes_ok c = true) ->
  exists carrier c written i1,
    GetHiddenBytesFromImage i0 = Ok carrier /\
    length carrier = Z.to_nat ((Dx i0 * Dy i0 * 3) / 8) /\
    EncryptPKCS1v15 pub
      (k ++ nn ++ PutUint64 (now mod 2 ^ 64)
         ++ copy_at (repeat 0 16) 0 (bytes_of_string ext)
         ++ PutUint32 (uint32_wrap (len (gcmSeal k nn data)))
         ++ (if doHash p then sha256.Sum256 data
             else drop (length carrier - 32) carrier)) = Ok c /\
    length c = 256%nat /\
    (let final := gcmSeal k nn data
                  ++ take (length carrier - 272 - length data)
                       (drop (length data + 16) carrier)
                  ++ c in
     if nonempty (shuffleSeed p) then shuffleRounds (shuffleSeed p) final
     else Ok final) = Ok written /\
    encodeImage p i0 ext data = Ok i1 /\
    wf_image i1 /\ Dx i1 = Dx i0 /\ Dy i1 = Dy i0 /\
    GetHiddenBytesFromImage i1 = Ok written.
Proof.
  intros Hwf Hd Hkey Hsz Hfit Hk Hn Bk Bn Hpub Lseal Bseal Hrsa.
  destruct (encryptEnvelope_keyed p i0 ext data pub k nn Hwf Hkey Hsz Hfit
              Hk Hn Hpub Lseal)
    as (ibw & carrier & env & Hnew & Hcap & Hget & Hlen & Hok & Hbuild & Henv).
  assert (H0 : 0 <= len data) by (unfold len; lia).
  set (hf := if doHash p then sha256.Sum256 data
             else drop (length carrier - 32) carrier) in *.
  assert (Lhf : length hf = 32%nat).
  { unfold hf. destruct (doHash p);
      [apply Sum256_length|rewrite length_drop; unfold len in *; lia]. }
  assert (Bhf : bytes_ok hf = true).
  { unfold hf. destruct (doHash p);
      [apply Sum256_bytes_ok|by apply bytes_ok_drop]. }
  set (sealed := gcmSeal k nn data) in *.
  set (segC := take (length carrier - 272 - length data)
                    (drop (length data + 16) carrier)) in *.
  set (rsaData := k ++ nn ++ PutUint64 (now mod 2 ^ 64)
                    ++ copy_at (repeat 0 16) 0 (bytes_of_string ext)
                    ++ PutUint32 (uint32_wrap (len sealed)) ++ hf) in *.
  pose proof (randomKey_length k Hk) as Lk.
  pose proof (randomNonce_length nn Hn) as Ln.
  assert (Lrsa : length rsaData = 104%nat).
  { unfold rsaData. rewrite !length_app, copy_at_length by (simpl; lia).
    unfold PutUint64. rewrite be_bytes_length, repeat_length, PutUint32_length.
    lia. }
  assert (Brsa : bytes_ok rsaData = true).
  { unfold rsaData. rewrite !bytes_ok_app, Bk, Bn, Bhf.
    unfold PutUint64, PutUint32. rewrite !be_bytes_ok.
    rewrite copy_at_bytes_ok
      by (apply bytes_ok_repeat0 || apply bytes_of_string_ok).
    reflexivity. }
  destruct (Hrsa rsaData Lrsa Brsa) as (c & Henc & Lc & Bc).
  specialize (Henv c Henc).
  replace (len c =? 256) with true in Henv
    by (symmetry; apply Z.eqb_eq; unfold len; lia).
  set (final := sealed ++ segC ++ c) in *.
  assert (Lfinal : length final = length carrier).
  { unfold final, segC. rewrite !length_app, length_take, length_drop.
    fold sealed in Lseal. unfold len in *. lia. }
  assert (Bfinal : bytes_ok final = true).
  { unfold final, segC. rewrite !bytes_ok_app, Bseal, Bc.
    rewrite bytes_ok_take by (by apply bytes_ok_drop). reflexivity. }
  assert (exists written,
             (if nonempty (shuffleSeed p)
              then shuffleRounds (shuffleSeed p) final
              else Ok final) = Ok written /\
             length written = length final /\ bytes_ok written = true)
    as (written & Hw & Lw & Bw).
  { destruct (nonempty (shuffleSeed p)).
    - destruct (shuffle_inverted (shuffleSeed p) final) as (sh & Hs & Ls & _).
      exists sh. split; [exact Hs|]. split; [exact Ls|].
      eapply shuffled_bytes_ok; eauto.
    - exists final. auto. }
  destruct (write_then_extract i0 ibw written Hwf Hnew) as
    (ibw' & Hrun & Hwf' & HDx & HDy & Hget');
    [unfold len in *; lia|exact Bw|].
  exists carrier, c, written, (im ibw').
  split; [exact Hget|]. split; [unfold len in Hlen; lia|].
  split; [exact Henc|]. split; [exact Lc|].
  split; [exact Hw|].
  split; [|split; [exact Hwf'|split; [exact HDx|split; [exact HDy|exact Hget']]]].
  unfold encodeImage. rewrite Hbuild. cbn [mbind result_bind fst snd].
  rewrite Hkey, Henv. cbn [mbind result_bind].
  rewrite Hw. cbn [mbind result_bind]. rewrite Hrun. reflexivity.
Qed.

(** The encrypted branch of decodeImage on a buffer of that shape. *)
Lemma parseEncrypted_final p sealed segC c priv k nn ts extb hf data :
  length c = 256%nat -> len (sealed ++ segC) < 2 ^ 32 ->
  LoadRSAPrivateKey (keyFile p) = Ok priv ->
  DecryptPKCS1v15 priv c
  = Ok (k ++ nn ++ ts ++ extb ++ PutUint32 (len sealed) ++ hf) ->
  length k = 32%nat -> length nn = 12%nat -> length ts = 8%nat ->
  length extb = 16%nat -> length hf = 32%nat ->
  gcmOpen k nn sealed = Ok data ->
  (doHash p = true -> hf = sha256.Sum256 data) ->
  parseEncrypted p (sealed ++ segC ++ c) = Ok data.
Proof.
  intros Lc Lb Hpriv Hdec Lk Ln Lt Le Lh Hopen Hhash.
  assert (H0 : 0 <= len sealed) by (unfold len; lia).
  assert (Hs : len sealed <= len (sealed ++ segC))
    by (unfold len; rewrite length_app; lia).
  unfold parseEncrypted. cbv zeta. unfold RSA_SIZE.
  set (buf := sealed ++ segC ++ c).
  assert (Lbuf : len buf = len (sealed ++ segC) + 256)
    by (unfold buf, len; rewrite !length_app; lia).
  assert (S1 : slice buf 0 (len buf - 256) = Ok (sealed ++ segC)).
  { replace buf with ([] ++ (sealed ++ segC) ++ c)
      by (unfold buf; cbn [app]; by rewrite <- app_assoc).
    apply slice_app3; [reflexivity|].
    unfold len. rewrite !length_app. cbn [length]. lia. }
  assert (S2 : slice buf (len buf - 256) (len buf) = Ok c).
  { replace buf with ((sealed ++ segC) ++ c ++ [])
      by (unfold buf; by rewrite app_nil_r, <- app_assoc).
    apply slice_app3; unfold len; rewrite !length_app; cbn [length]; lia. }
  rewrite S1. cbn [mbind result_bind]. rewrite S2. cbn [mbind result_bind].
  rewrite (decryptDataWithRSA_fields (keyFile p) (sealed ++ segC) c priv
             k nn ts extb (PutUint32 (len sealed)) hf Hpriv Hdec Lk Ln Lt Le
             (PutUint32_length _)).
  replace (len hf =? 32) with true
    by (symmetry; apply Z.eqb_eq; unfold len; lia).
  cbn [negb].
  unfold PutUint32. rewrite be_value_be_bytes_4 by lia.
  rewrite uint32_wrap_small by (unfold len in *; lia).
  replace (len (sealed ++ segC) <? len sealed) with false
    by (symmetry; apply Z.ltb_ge; lia).
  assert (S3 : slice (sealed ++ segC) 0 (len sealed) = Ok sealed)
    by (apply (slice_app3 [] sealed segC 0 (len sealed));
        unfold len; cbn [length]; lia).
  rewrite S3.
  cbn [mbind result_bind]. rewrite Hopen. cbn [mbind result_bind fst snd hash].
  destruct (doHash p); [|reflexivity].
  rewrite (Hhash eq_refl).
  by rewrite bool_decide_eq_true_2.
Qed.

End EncryptedPipeline.

(** The stand-in for RSA meets the contract the round trip asks of a
    2048-bit key pair on the 104-byte tail. *)
Lemma toy_rsa_contract (m : list Z) :
  length m = 104%nat -> bytes_ok m = true ->
  exists c,
    EncryptPKCS1v15 (Crypto := toy_crypto) tt m = Ok c /\
    length c = 256%nat /\ bytes_ok c = true /\
    DecryptPKCS1v15 (Crypto := toy_crypto) tt c = Ok m.
Proof.
  intros Lm Bm. exists (m ++ repeat 0 (256 - length m)).
  split; [reflexivity|]. split; [rewrite length_app, repeat_length; lia|].
  split; [by rewrite bytes_ok_app, Bm, bytes_ok_repeat0|].
  cbn [DecryptPKCS1v15 toy_crypto]. f_equal.
  apply take_app_length'. by symmetry.
Qed.

(** X20. Round trip of the encrypted mode.  Take a supported carrier
    whose capacity is below 2^32 + 256 bytes, a payload (the empty one
    included) with len(payload) + 16 + 256 within the capacity, an encode
    with a key file and a decode with a key file under the same seed and
    hash setting.  If the collaborators keep
    their contract (the public key loads for the encode and the private
    one for the decode; the two reads of the random source give the key
    and the nonce; Seal adds 16 bytes and Open undoes it; the RSA
    encryption of a 104-byte tail gives a 256-byte block that the private
    key decrypts to that tail), the encode succeeds and the decode of the
    image it returns writes exactly the payload. *)
Theorem encrypted_round_trip `{RS : RandSource} `{CR : Crypto}
    (pe pd : Program) (i0 : Image) (ext : string) (data : list Z)
    (pub : PublicKey) (priv : PrivateKey) (k nn : list Z) :
  wf_image i0 -> bytes_ok data = true ->
  nonempty (keyFile pe) = true -> nonempty (keyFile pd) = true ->
  shuffleSeed pd = shuffleSeed pe -> doHash pd = doHash pe ->
  len data + 16 + 256 <= (Dx i0 * Dy i0 * 3) / 8 ->
  (Dx i0 * Dy i0 * 3) / 8 - 256 < 2 ^ 32 ->
  LoadRSAPublicKey (keyFile pe) = Ok pub ->
  LoadRSAPrivateKey (keyFile pd) = Ok priv ->
  randomKey = Ok k -> randomNonce = Ok nn ->
  bytes_ok k = true -> bytes_ok nn = true ->
  length (gcmSeal k nn data) = (length data + 16)%nat ->
  bytes_ok (gcmSeal k nn data) = true ->
  gcmOpen k nn (gcmSeal k nn data) = Ok data ->
  (forall m, length m = 104%nat -> bytes_ok m = true ->
     exists c, EncryptPKCS1v15 pub m = Ok c /\ length c = 256%nat /\
               bytes_ok c = true /\ DecryptPKCS1v15 priv c = Ok m) ->
  exists i1,
    encodeImage pe i0 ext data = Ok i1 /\
    decodeImage pd i1 = Ok data.
Proof.
  intros Hwf Hd Hke Hkd Hseed Hhash Hfit Hcap Hpub Hpriv Hk Hn Bk Bn
         Lseal Bseal Hopen Hrsa.
  assert (H0 : 0 <= len data) by (unfold len; lia).
  destruct (encodeImage_keyed pe i0 ext data pub k nn Hwf Hd Hke
              ltac:(lia) Hfit Hk Hn Bk Bn Hpub Lseal Bseal)
    as (carrier & c & written & i1 & Hget & Lcar & Henc & Lc & Hw & Hrun
        & Hwf1 & _ & _ & Hget1).
  { intros m Lm Bm. destruct (Hrsa m Lm Bm) as (c & H1 & H2 & H3 & _).
    by exists c. }
  exists i1. split; [exact Hrun|].
  cbv zeta in Hw.
  set (sealed := gcmSeal k nn data) in *.
  set (segC := take (length carrier - 272 - length data)
                    (drop (length data + 16) carrier)) in *.
  set (hf := if doHash pe then sha256.Sum256 data
             else drop (length carrier - 32) carrier) in *.
  set (ts := PutUint64 (now mod 2 ^ 64)) in *.
  set (extb := copy_at (repeat 0 16) 0 (bytes_of_string ext)) in *.
  pose proof (randomKey_length k Hk) as Lk.
  pose proof (randomNonce_length nn Hn) as Ln.
  assert (Lts : length ts = 8%nat) by apply be_bytes_length.
  assert (Lext : length extb = 16%nat)
    by (unfold extb; rewrite copy_at_length; simpl; lia).
  assert (Lhf : length hf = 32%nat).
  { unfold hf. destruct (doHash pe);
      [apply Sum256_length|rewrite length_drop; lia]. }
  assert (Lsl : len sealed = len data + 16) by (unfold len; lia).
  rewrite uint32_wrap_small in Henc by lia.
  assert (Hdec : DecryptPKCS1v15 priv c
                 = Ok (k ++ nn ++ ts ++ extb ++ PutUint32 (len sealed) ++ hf)).
  { destruct (Hrsa (k ++ nn ++ ts ++ extb ++ PutUint32 (len sealed) ++ hf))
      as (c' & H1 & _ & _ & H4).
    - rewrite !length_app, PutUint32_length. lia.
    - rewrite !bytes_ok_app, Bk, Bn. unfold ts, PutUint64, PutUint32.
      rewrite !be_bytes_ok.
      replace (bytes_ok extb) with true
        by (symmetry; apply copy_at_bytes_ok;
            [apply bytes_ok_repeat0|apply bytes_of_string_ok]).
      replace (bytes_ok hf) with true; [reflexivity|].
      symmetry. unfold hf. destruct (doHash pe); [apply Sum256_bytes_ok|].
      apply bytes_ok_drop.
      destruct (GetHiddenBytes_ok i0 Hwf) as (c0 & Hc0 & _ & Bc0).
      rewrite Hget in Hc0. by injection Hc0 as <-.
    - rewrite Henc in H1. by injection H1 as <-. }
  assert (LsC : len (sealed ++ segC) = len carrier - 256).
  { unfold segC. unfold len in *.
    rewrite length_app, length_take, length_drop. lia. }
  assert (Hparse : parseEncrypted pd (sealed ++ segC ++ c) = Ok data).
  { apply (parseEncrypted_final pd sealed segC c priv k nn ts extb hf data);
      try assumption.
    - unfold len in *. lia.
    - rewrite Hhash. unfold hf. by intros ->. }
  unfold decodeImage. rewrite Hget1. cbn [mbind result_bind].
  rewrite Hseed, Hkd.
  destruct (nonempty (shuffleSeed pe)).
  - destruct (shuffle_inverted (shuffleSeed pe) (sealed ++ segC ++ c))
      as (sh & Hs & _ & Hun).
    rewrite Hs in Hw. injection Hw as <-.
    rewrite Hun. cbn [mbind result_bind]. exact Hparse.
  - injection Hw as <-. cbn [mbind result_bind]. exact Hparse.
Qed.

Lemma encrypted_round_trip_witness :
  exists i1,
    encodeImage (RS := lcg) (CR := toy_crypto)
      (keyed true) (img_n 728 7) ".txt" [65] = Ok i1 /\
    decodeImage (RS := lcg) (CR := toy_crypto) (keyed true) i1 = Ok [65].
Proof.
  apply (encrypted_round_trip (RS := lcg) (CR := toy_crypto)
           (keyed true) (keyed true) (img_n 728 7) ".txt" [65]
           tt tt toy_key toy_nonce);
    try reflexivity.
  - apply (wf_img_n 728 7); lia.
  - exact toy_rsa_contract.
Defined.

(** X21. What an encode with a key file and no seed leaves in a supported
    image, for a payload shorter than 2^32 bytes with
    len(payload) + 16 + 256 within the capacity, when the collaborators
    keep their contract (the public key loads; the two reads of the
    random source give the key and the nonce; Seal adds 16 bytes; the RSA
    encryption of a 104-byte tail gives a 256-byte block): the encode
    succeeds, the first len(payload) + 16 hidden bytes of its image are
    the sealed payload, the last 256 are the RSA block of the tail (key,
    nonce, time, extension, sealed length, hash), and the hidden bytes
    between them are the ones the carrier had there. *)
Theorem encrypted_layout `{RS : RandSource} `{CR : Crypto}
    (p : Program) (i0 : Image) (ext : string) (data : list Z)
    (pub : PublicKey) (k nn : list Z) :
  wf_image i0 -> bytes_ok data = true ->
  nonempty (keyFile p) = true -> nonempty (shuffleSeed p) = false ->
  len data < 2 ^ 32 -> len data + 16 + 256 <= (Dx i0 * Dy i0 * 3) / 8 ->
  randomKey = Ok k -> randomNonce = Ok nn ->
  bytes_ok k = true -> bytes_ok nn = true ->
  LoadRSAPublicKey (keyFile p) = Ok pub ->
  length (gcmSeal k nn data) = (length data + 16)%nat ->
  bytes_ok (gcmSeal k nn data) = true ->
  (forall m, length m = 104%nat -> bytes_ok m = true ->
     exists c, EncryptPKCS1v15 pub m = Ok c /\ length c = 256%nat /\
               bytes_ok c = true) ->
  exists carrier c i1,
    GetHiddenBytesFromImage i0 = Ok carrier /\
    EncryptPKCS1v15 pub
      (k ++ nn ++ PutUint64 (now mod 2 ^ 64)
         ++ copy_at (repeat 0 16) 0 (bytes_of_string ext)
         ++ PutUint32 (uint32_wrap (len (gcmSeal k nn data)))
         ++ (if doHash p then sha256.Sum256 data
             else drop (length carrier - 32) carrier)) = Ok c /\
    length c = 256%nat /\
    encodeImage p i0 ext data = Ok i1 /\
    GetHiddenBytesFromImage i1
    = Ok (gcmSeal k nn data
            ++ take (length carrier - 272 - length data)
                 (drop (length data + 16) carrier)
            ++ c).
Proof.
  intros Hwf Hd Hkey Hseed Hsz Hfit Hk Hn Bk Bn Hpub Lseal Bseal Hrsa.
  destruct (encodeImage_keyed p i0 ext data pub k nn Hwf Hd Hkey Hsz Hfit
              Hk Hn Bk Bn Hpub Lseal Bseal Hrsa)
    as (carrier & c & written & i1 & Hget & _ & Henc & Lc & Hw & Hrun
        & _ & _ & _ & Hget1).
  cbv zeta in Hw. rewrite Hseed in Hw. injection Hw as <-.
  exists carrier, c, i1. by repeat split.
Qed.

Lemma toy_rsa_block (m : list Z) :
  length m = 104%nat -> bytes_ok m = true ->
  exists c,
    EncryptPKCS1v15 (Crypto := toy_crypto) tt m = Ok c /\
    length c = 256%nat /\ bytes_ok c = true.
Proof.
  intros Lm Bm. destruct (toy_rsa_contract m Lm Bm) as (c & H1 & H2 & H3 & _).
  by exists c.
Qed.

Lemma encrypted_layout_witness :
  exists carrier c i1,
    GetHiddenBytesFromImage (img_n 728 7) = Ok carrier /\
    EncryptPKCS1v15 (Crypto := toy_crypto) tt
      (toy_key ++ toy_nonce
         ++ PutUint64 (now (Crypto := toy_crypto) mod 2 ^ 64)
         ++ copy_at (repeat 0 16) 0 (bytes_of_string ".txt")
         ++ PutUint32 (uint32_wrap
                         (len (gcmSeal (Crypto := toy_crypto)
                                 toy_key toy_nonce [65])))
         ++ (if doHash (keyed true) then sha256.Sum256 [65]
             else drop (length carrier - 32) carrier)) = Ok c /\
    length c = 256%nat /\
    encodeImage (RS := lcg) (CR := toy_crypto)
      (keyed true) (img_n 728 7) ".txt" [65] = Ok i1 /\
    GetHiddenBytesFromImage i1
    = Ok (gcmSeal (Crypto := toy_crypto) toy_key toy_nonce [65]
            ++ take (length carrier - 272 - length [65])
                 (drop (length [65] + 16) carrier)
            ++ c).
Proof.
  apply (encrypted_layout (RS := lcg) (CR := toy_crypto)
           (keyed true) (img_n 728 7) ".txt" [65] tt toy_key toy_nonce);
    try reflexivity.
  - apply (wf_img_n 728 7); lia.
  - exact toy_rsa_block.
Defined.

(** X22. A key file that cannot be loaded makes the call fail with the
    loader's error, on a supported image and with a key file set, for
    every seed and hash setting.  Encode: when LoadRSAPublicKey fails, an
    encode of a payload shorter than 2^32 bytes that fits
    (len(payload) + 16 + 256 within the capacity) returns that error.
    Decode: when LoadRSAPrivateKey fails, a decode of an image with at
    least 256 hidden bytes returns that error.  Each half holds on its
    own. *)
Theorem key_file_errors `{RS : RandSource} `{CR : Crypto}
    (p : Program) (i0 : Image) (ext : string) (data : list Z) :
  wf_image i0 -> nonempty (keyFile p) = true ->
  (forall e, LoadRSAPublicKey (keyFile p) = Err e ->
     len data < 2 ^ 32 -> len data + 16 + 256 <= (Dx i0 * Dy i0 * 3) / 8 ->
     encodeImage p i0 ext data = Err e) /\
  (forall e, LoadRSAPrivateKey (keyFile p) = Err e ->
     256 <= (Dx i0 * Dy i0 * 3) / 8 ->
     decodeImage p i0 = Err e).
Proof.
  intros Hwf Hkey.
  assert (H0 : 0 <= len data) by (unfold len; lia).
  split.
  - intros e Hpub Hsz Hfit.
    destruct (buildEnvelope_layout p i0 data Hwf Hsz) as
      (ibw & carrier & Hnew & Hcap & Hget & Hlen & Hok & Hbuild).
    { rewrite Hkey. exact Hfit. }
    cbv zeta in Hbuild. rewrite <- Hlen in Hbuild, Hfit.
    fold (plainEnvelope p carrier data) in Hbuild.
    pose proof (plainEnvelope_length p carrier data ltac:(lia)) as Le.
    unfold encodeImage. rewrite Hbuild. cbn [mbind result_bind fst snd].
    rewrite Hkey. unfold encryptEnvelope. cbv zeta.
    unfold HASH_SIZE, FSIZE_LEN, sha256.Size.
    rewrite slice_prefix by lia. cbn [mbind result_bind].
    rewrite slice_suffix by lia. cbn [mbind result_bind].
    unfold encryptDataWithRSA. rewrite Hpub. reflexivity.
  - intros e Hpriv Hfit.
    destruct (decodeBuffer_ok p i0 Hwf) as (buf & Hbuf & Hlen & _).
    rewrite decodeImage_buffer, Hbuf, Hkey. cbn [mbind result_bind].
    unfold parseEncrypted. cbv zeta. unfold RSA_SIZE.
    rewrite slice_prefix by lia. cbn [mbind result_bind].
    rewrite slice_suffix by lia. cbn [mbind result_bind].
    unfold decryptDataWithRSA. rewrite Hpriv. reflexivity.
Qed.

Lemma key_file_errors_witness :
  encodeImage (RS := lcg) (CR := no_key_crypto)
    (keyed true) (img_n 728 7) ".txt" [65] = Err ErrCollaborator /\
  decodeImage (RS := lcg) (CR := no_key_crypto) (keyed true) (img_n 683 7)
  = Err ErrCollaborator.
Proof.
  split.
  - apply (proj1 (key_file_errors (RS := lcg) (CR := no_key_crypto)
                    (keyed true) (img_n 728 7) ".txt" [65]
                    ltac:(apply (wf_img_n 728 7); lia) eq_refl));
      reflexivity.
  - apply (proj2 (key_file_errors (RS := lcg) (CR := no_key_crypto)
                    (keyed true) (img_n 683 7) ".txt" [65]
                    ltac:(apply (wf_img_n 683 7); lia) eq_refl));
      reflexivity.
Defined.

(** X23. Only a key whose RSA block has 256 bytes (a 2048-bit key) is
    accepted: when the public key loads and encrypts the 104-byte tail
    into a block of another length, the encode fails with the "RSA data is
    of size ..." error and returns no image. *)
Theorem encode_rejects_other_key_sizes `{RS : RandSource} `{CR : Crypto}
    (p : Program) (i0 : Image) (ext : string) (data : list Z)
    (pub : PublicKey) (k nn : list Z) :
  wf_image i0 -> nonempty (keyFile p) = true ->
  len data < 2 ^ 32 -> len data + 16 + 256 <= (Dx i0 * Dy i0 * 3) / 8 ->
  randomKey = Ok k -> randomNonce = Ok nn ->
  LoadRSAPublicKey (keyFile p) = Ok pub ->
  length (gcmSeal k nn data) = (length data + 16)%nat ->
  (forall m, length m = 104%nat ->
     exists c, EncryptPKCS1v15 pub m = Ok c /\ length c <> 256%nat) ->
  encodeImage p i0 ext data = Err ErrRSASize.
Proof.
  intros Hwf Hkey Hsz Hfit Hk Hn Hpub Lseal Hrsa.
  destruct (encryptEnvelope_keyed p i0 ext data pub k nn Hwf Hkey Hsz Hfit
              Hk Hn Hpub Lseal)
    as (ibw & carrier & env & _ & _ & _ & Hlen & _ & Hbuild & Henv).
  pose proof (randomKey_length k Hk) as Lk.
  pose proof (randomNonce_length nn Hn) as Ln.
  match type of Henv with
  | forall c, EncryptPKCS1v15 pub ?m = Ok c -> _ =>
      destruct (Hrsa m) as (c & Henc & Lc)
  end.
  { rewrite !length_app, copy_at_length by (simpl; lia).
    unfold PutUint64. rewrite be_bytes_length, repeat_length, PutUint32_length.
    assert (length (if doHash p then sha256.Sum256 data
                    else drop (length carrier - 32) carrier) = 32%nat).
    { destruct (doHash p);
        [apply Sum256_length|rewrite length_drop; unfold len in *; lia]. }
    lia. }
  specialize (Henv c Henc).
  replace (len c =? 256) with false in Henv
    by (symmetry; apply Z.eqb_neq; unfold len; lia).
  unfold encodeImage. rewrite Hbuild. cbn [mbind result_bind fst snd].
  rewrite Hkey, Henv. reflexivity.
Qed.

Lemma encode_rejects_other_key_sizes_witness :
  encodeImage (RS := lcg) (CR := short_block_crypto)
    (keyed true) (img_n 728 7) ".txt" [65] = Err ErrRSASize.
Proof.
  apply (encode_rejects_other_key_sizes (RS := lcg) (CR := short_block_crypto)
           (keyed true) (img_n 728 7) ".txt" [65] tt toy_key toy_nonce);
    try reflexivity.
  - apply (wf_img_n 728 7); lia.
  - intros m Lm. eexists. split; [reflexivity|].
    rewrite length_app, repeat_length, Lm. simpl. lia.
Defined.

Section DecryptedTail.

Context `{RS : RandSource} `{CR : Crypto}.

(** A list of at least 72 bytes, cut into the fields of the tail. *)
Lemma tail_fields (tail : list Z) :
  (72 <= length tail)%nat ->
  tail = take 32 tail ++ take 12 (drop 32 tail) ++ take 8 (drop 44 tail)
           ++ take 16 (drop 52 tail) ++ take 4 (drop 68 tail) ++ drop 72 tail.
Proof.
  intros H.
  rewrite <- (take_drop 32 tail) at 1. f_equal.
  rewrite <- (take_drop 12 (drop 32 tail)) at 1. f_equal.
  rewrite drop_drop. change (32 + 12)%nat with 44%nat.
  rewrite <- (take_drop 8 (drop 44 tail)) at 1. f_equal.
  rewrite drop_drop. change (44 + 8)%nat with 52%nat.
  rewrite <- (take_drop 16 (drop 52 tail)) at 1. f_equal.
  rewrite drop_drop. change (52 + 16)%nat with 68%nat.
  rewrite <- (take_drop 4 (drop 68 tail)) at 1. f_equal.
  by rewrite drop_drop.
Qed.

(** decryptDataWithRSA does not return on a tail shorter than 72 bytes. *)
Lemma decryptDataWithRSA_short rsaKey dataBlock tailBlock priv tail r :
  LoadRSAPrivateKey rsaKey = Ok priv ->
  DecryptPKCS1v15 priv tailBlock = Ok tail ->
  decryptDataWithRSA rsaKey dataBlock tailBlock = Ok r ->
  (72 <= length tail)%nat.
Proof.
  intros Hpriv Hdec H.
  destruct (le_lt_dec 72 (length tail)) as [Hl|Hl]; [exact Hl|exfalso].
  unfold decryptDataWithRSA in H. rewrite Hpriv in H.
  cbn [mbind result_bind] in H. rewrite Hdec in H.
  cbn [mbind result_bind] in H. unfold gcmNonceSize in H.
  destruct (slice tail 0 32) as [x1| | |]; try discriminate.
  cbn [mbind result_bind] in H.
  destruct (slice tail 32 (32 + 12)) as [x2| | |]; try discriminate.
  cbn [mbind result_bind] in H.
  destruct (slice tail (12 + 32) (12 + 40)) as [x3| | |]; try discriminate.
  cbn [mbind result_bind] in H.
  destruct (slice tail (12 + 40) (12 + 56)) as [x4| | |]; try discriminate.
  cbn [mbind result_bind] in H.
  destruct (slice tail (12 + 56) (12 + 60)) as [x5| | |]; try discriminate.
  cbn [mbind result_bind] in H.
  rewrite (slice_inverted tail (12 + 60) (len tail)) in H
    by (unfold len; lia).
  discriminate.
Qed.

End DecryptedTail.

(** X24. What a decode with a key file returns.  Whenever decodeImage with a
    key file succeeds on a supported image, the private key was loaded,
    the last 256 bytes of the buffer it parsed decrypt to a tail of
    exactly 104 bytes, the bytes written are what Open returns for the
    key and the nonce of that tail on the first L bytes of the buffer
    (L the length field of the tail), and with hashing enabled the
    SHA-256 of the bytes written equals the last 32 bytes of the tail. *)
Theorem decode_encrypted_sound `{RS : RandSource} `{CR : Crypto}
    (p : Program) (i0 : Image) (out : list Z) :
  wf_image i0 -> nonempty (keyFile p) = true ->
  decodeImage p i0 = Ok out ->
  exists buf priv tail,
    decodeBuffer p i0 = Ok buf /\
    LoadRSAPrivateKey (keyFile p) = Ok priv /\
    DecryptPKCS1v15 priv (drop (length buf - 256) buf) = Ok tail /\
    length tail = 104%nat /\
    gcmOpen (take 32 tail) (take 12 (drop 32 tail))
      (take (Z.to_nat (be_value (take 4 (drop 68 tail)))) buf) = Ok out /\
    (doHash p = true -> sha256.Sum256 out = drop 72 tail).
Proof.
  intros Hwf Hkey H.
  destruct (decodeBuffer_ok p i0 Hwf) as (buf & Hbuf & Hlen & Hok).
  rewrite decodeImage_buffer, Hbuf, Hkey in H. cbn [mbind result_bind] in H.
  destruct (Z.lt_ge_cases (len buf) 256) as [Hs|Hs].
  { rewrite parseEncrypted_short in H by exact Hs. discriminate. }
  unfold parseEncrypted in H. cbv zeta in H. unfold RSA_SIZE in H.
  rewrite slice_prefix in H by lia. cbn [mbind result_bind] in H.
  rewrite slice_suffix in H by lia. cbn [mbind result_bind] in H.
  replace (Z.to_nat (len buf - 256)) with (length buf - 256)%nat in H
    by (unfold len; lia).
  set (dataBlock := take (length buf - 256) buf) in *.
  set (tailBlock := drop (length buf - 256) buf) in *.
  destruct (decryptDataWithRSA (keyFile p) dataBlock tailBlock)
    as [[plain info]| | |] eqn:Ed; try discriminate.
  cbn [mbind result_bind fst snd] in H.
  destruct (LoadRSAPrivateKey (keyFile p)) as [priv| | |] eqn:Epriv;
    try (unfold decryptDataWithRSA in Ed; rewrite Epriv in Ed; discriminate).
  destruct (DecryptPKCS1v15 priv tailBlock) as [tail| | |] eqn:Edec;
    try (unfold decryptDataWithRSA in Ed; rewrite Epriv in Ed;
         cbn [mbind result_bind] in Ed; rewrite Edec in Ed; discriminate).
  pose proof (decryptDataWithRSA_short _ _ _ _ _ _ Epriv Edec Ed) as L72.
  pose proof (tail_fields tail L72) as Etail.
  set (k := take 32 tail) in *. set (nn := take 12 (drop 32 tail)) in *.
  set (ts := take 8 (drop 44 tail)) in *.
  set (extb := take 16 (drop 52 tail)) in *.
  set (lb := take 4 (drop 68 tail)) in *. set (hf := drop 72 tail) in *.
  rewrite Etail in Edec.
  rewrite (decryptDataWithRSA_fields (keyFile p) dataBlock tailBlock priv
             k nn ts extb lb hf Epriv Edec) in Ed;
    try (unfold k, nn, ts, extb, lb; rewrite length_take, ?length_drop; lia).
  destruct (len hf =? 32) eqn:Eh; [|discriminate].
  apply Z.eqb_eq in Eh. cbn [negb] in Ed.
  destruct (uint32_wrap (len dataBlock) <? be_value lb) eqn:El;
    [discriminate|].
  destruct (slice dataBlock 0 (be_value lb)) as [sealed| | |] eqn:Es;
    try discriminate.
  cbn [mbind result_bind] in Ed.
  destruct (gcmOpen k nn sealed) as [pl| | |] eqn:Eo; try discriminate.
  cbn [mbind result_bind] in Ed. injection Ed as <- <-.
  cbn [hash] in H.
  assert (Esealed : sealed = take (Z.to_nat (be_value lb)) buf).
  { unfold slice in Es.
    destruct ((0 <=? 0) && (0 <=? be_value lb)
              && (be_value lb <=? Z.of_nat (length dataBlock))) eqn:Ec;
      [|discriminate].
    injection Es as <-. rewrite Z.sub_0_r. change (Z.to_nat 0) with 0%nat.
    rewrite drop_0. unfold dataBlock. rewrite take_take. f_equal.
    apply andb_true_iff in Ec as [_ Ec]. apply Z.leb_le in Ec.
    unfold dataBlock in Ec. rewrite length_take in Ec. lia. }
  exists buf, priv, tail.
  split; [exact Hbuf|]. split; [reflexivity|].
  split; [rewrite Etail; exact Edec|].
  split.
  { rewrite Etail, !length_app. fold hf. unfold len in Eh.
    unfold k, nn, ts, extb, lb. rewrite !length_take, !length_drop. lia. }
  fold k nn lb hf. rewrite <- Esealed.
  destruct (doHash p).
  - destruct (bool_decide (hf = sha256.Sum256 pl)) eqn:Eb; [|discriminate].
    apply bool_decide_eq_true in Eb. injection H as <-.
    split; [exact Eo|]. intros _. by symmetry.
  - injection H as <-. split; [exact Eo|discriminate].
Qed.

Lemma decode_encrypted_sound_witness :
  exists buf priv tail,
    decodeBuffer (RS := lcg) (keyed true) img_encoded_keyed = Ok buf /\
    LoadRSAPrivateKey (Crypto := toy_crypto) (keyFile (keyed true)) = Ok priv /\
    DecryptPKCS1v15 (Crypto := toy_crypto) priv (drop (length buf - 256) buf)
    = Ok tail /\
    length tail = 104%nat /\
    gcmOpen (Crypto := toy_crypto) (take 32 tail) (take 12 (drop 32 tail))
      (take (Z.to_nat (be_value (take 4 (drop 68 tail)))) buf) = Ok [65] /\
    (doHash (keyed true) = true -> sha256.Sum256 [65] = drop 72 tail).
Proof.
  apply (decode_encrypted_sound (RS := lcg) (CR := toy_crypto)
           (keyed true) img_encoded_keyed [65]).
  - unfold wf_image, len. repeat split; vm_compute; congruence.
  - reflexivity.
  - vm_compute. reflexivity.
Defined.

(* ===================================================================== *)
(** ** The runs on files: runEncode, runDecode, main *)
(* ===================================================================== *)

Section Runs.

Context `{RS : RandSource} `{CR : Crypto} `{CD : Codec}.

Lemma writeFile_same fs path bytes : writeFile fs path bytes path = Some bytes.
Proof. unfold writeFile. by rewrite String.eqb_refl. Qed.

Lemma writeFile_other fs path bytes q :
  q <> path -> writeFile fs path bytes q = fs q.
Proof.
  intros H. unfold writeFile.
  destruct (String.eqb q path) eqn:E; [|reflexivity].
  apply String.eqb_eq in E. contradiction.
Qed.

(** The plain round trip for an encode and a decode that agree on the
    seed and the hash setting. *)
Lemma encode_then_decode_plain (pe pd : Program) i0 ext data :
  wf_image i0 -> bytes_ok data = true ->
  nonempty (keyFile pe) = false -> nonempty (keyFile pd) = false ->
  shuffleSeed pd = shuffleSeed pe -> doHash pd = doHash pe ->
  1 <= len data -> len data + 36 <= (Dx i0 * Dy i0 * 3) / 8 ->
  (Dx i0 * Dy i0 * 3) / 8 - 36 < 2 ^ 32 ->
  exists i1,
    encodeImage pe i0 ext data = Ok i1 /\ wf_image i1 /\
    decodeImage pd i1 = Ok data.
Proof.
  intros Hwf Hd Hke Hkd Hseed Hhash H1 Hfit H32.
  destruct (encodeImage_plain pe i0 ext data Hwf Hd Hke) as
    (carrier & written & i1 & Hget & Hlen & Hw & Henc & Hwf1 & _ & _ & Hget1);
    [lia|lia|].
  exists i1. split; [exact Henc|]. split; [exact Hwf1|].
  unfold decodeImage. rewrite Hget1. cbn [mbind result_bind].
  rewrite Hkd, Hseed.
  assert (Hun : (if nonempty (shuffleSeed pe)
                 then unshuffle (shuffleSeed pe) written else Ok written)
                = Ok (plainEnvelope pe carrier data)).
  { destruct (nonempty (shuffleSeed pe)); [|exact (eq_sym Hw)].
    destruct (shuffle_inverted (shuffleSeed pe) (plainEnvelope pe carrier data))
      as (sh & Hs & _ & Hu).
    rewrite Hw in Hs. injection Hs as <-. exact Hu. }
  rewrite Hun. cbn [mbind result_bind].
  replace (plainEnvelope pe carrier data) with (plainEnvelope pd carrier data)
    by (unfold plainEnvelope; by rewrite Hhash).
  apply parsePlain_envelope; lia.
Qed.

End Runs.

Lemma pixels_of_numbers : forall pix n,
  (length pix <= n)%nat -> pixels_of n (flat_map pixel_numbers pix) = pix.
Proof.
  induction pix as [|c pix IH]; intros n Hn.
  - destruct n; reflexivity.
  - destruct n as [|n]; [simpl in Hn; lia|].
    cbn [flat_map pixel_numbers app pixels_of].
    rewrite IH by (simpl in Hn; lia). by destruct c.
Qed.

(** The stand-in codec reads back every image it wrote. *)
Lemma toy_codec_reads_back (i : Image) :
  snd (pngEncode (Codec := toy_codec) i) = None /\
  imageDecode (Codec := toy_codec) (fst (pngEncode (Codec := toy_codec) i))
  = Ok i.
Proof.
  split; [reflexivity|].
  cbn [pngEncode imageDecode toy_codec fst toy_encode toy_decode].
  destruct i as [m dx dy pix]. cbn [ColorModel Dx Dy Pix]. do 2 f_equal.
  - by destruct m.
  - apply pixels_of_numbers.
    rewrite (length_flat_map_const pixel_numbers 4) by reflexivity. lia.
Qed.

(** X25. runEncode touches no file but the output image, and creates it only
    after the encode succeeded: every other path keeps what it held, and
    a run that fails leaves all files as they were unless the failure is
    png.Encode's own, after the output was created. *)
Theorem failed_encode_keeps_files `{RS : RandSource} `{CR : Crypto}
    `{CD : Codec} (p : Program) (fs : Files) :
  (forall q, q <> outputImage p -> fst (runEncode p fs) q = fs q) /\
  (snd (runEncode p fs) <> Ok tt ->
   fst (runEncode p fs) = fs \/
   exists im1 e,
     snd (pngEncode im1) = Some e /\
     fst (runEncode p fs) = writeFile fs (outputImage p) (fst (pngEncode im1))).
Proof.
  unfold runEncode.
  destruct (fs (inputImage p)) as [imageBytes|]; [|by split; [|left]].
  destruct (fs (dataFile p)) as [data|]; [|by split; [|left]].
  destruct (imageDecode imageBytes) as [im0| | |]; try (by split; [|left]).
  destruct (encodeImage p im0 (Ext (dataFile p)) data) as [im1| | |];
    try (by split; [|left]).
  destruct (creatable (outputImage p)); [|by split; [|left]].
  cbn [fst snd]. split.
  - intros q Hq. by apply writeFile_other.
  - intros Hr. destruct (snd (pngEncode im1)) as [e|] eqn:Ee.
    + right. exists im1, e. by split.
    + contradiction.
Qed.



(** The run on the image that is too small fails and leaves the notes
    empty. *)
Example decode_small_empties :
  fst (runDecode (RS := lcg) (CR := toy_crypto) (CD := toy_codec)
         decode_small sample_files) (dataFile decode_small) = Some [] /\
  snd (runDecode (RS := lcg) (CR := toy_crypto) (CD := toy_codec)
         decode_small sample_files) <> Ok tt.
Proof. split; [vm_compute; reflexivity|vm_compute; discriminate]. Qed.

(** A Write that stores one byte and fails: the run fails and the data
    file holds that byte. *)
Example decode_short_write :
  let fs1 := fst (main (RS := lcg) (CR := toy_crypto) (CD := toy_codec)
                    flags_encode sample_files) in
  let r := runDecode (RS := lcg) (CR := toy_crypto) (CD := short_write_codec)
             (mkProgram false true true "abc" "out.png" "copy.bin" "" "")
             fs1 in
  fst r "copy.bin"%string = Some [72] /\ snd r = Err ErrCollaborator.
Proof. vm_compute. split; reflexivity. Qed.

(** X27. The two commands of the README, end to end, in plain mode.  An
    encode command with three arguments and a decode command with two,
    the same -ss and -nh and no -k, where the decode reads the image the
    encode wrote and writes to another path.  If the input image and the
    data file exist, the input decodes to a supported image of capacity
    below 2^32 + 36 bytes in which the non-empty data file fits
    (len + 36 within the capacity), both outputs can be created, the PNG
    codec writes without error and reads back the image the encode
    produced, and the Write of the decoded bytes stores them all without
    error, then both runs exit with status 0 and the file the decode
    writes holds exactly the bytes of the data file. *)
Theorem command_line_round_trip `{RS : RandSource} `{CR : Crypto}
    `{CD : Codec} (fe fd : Flags) (fs : Files)
    (in_png data_path out_png out_data : string)
    (imageBytes data : list Z) (i0 : Image) :
  flag_d fe = false -> Args fe = [in_png; data_path; out_png] ->
  flag_d fd = true -> Args fd = [out_png; out_data] ->
  flag_k fe = ""%string -> flag_k fd = ""%string ->
  flag_ss fd = flag_ss fe -> flag_nh fd = flag_nh fe ->
  fs in_png = Some imageBytes -> fs data_path = Some data ->
  imageDecode imageBytes = Ok i0 -> wf_image i0 ->
  bytes_ok data = true -> 1 <= len data ->
  len data + 36 <= (Dx i0 * Dy i0 * 3) / 8 ->
  (Dx i0 * Dy i0 * 3) / 8 - 36 < 2 ^ 32 ->
  creatable out_png = true -> creatable out_data = true ->
  out_png <> out_data ->
  (forall p i1, encodeImage p i0 (Ext data_path) data = Ok i1 ->
     snd (pngEncode i1) = None /\ imageDecode (fst (pngEncode i1)) = Ok i1) ->
  fileWrite out_data data = (length data, None) ->
  exists fs1 fs2,
    main fe fs = (fs1, Ok 0) /\
    main fd fs1 = (fs2, Ok 0) /\
    fs2 out_data = Some data.
Proof.
  intros Hde Hae Hdd Had Hke Hkd Hss Hnh Hin Hdata Hdec Hwf Hb H1 Hfit H32
         Hc1 Hc2 Hne Hpng Hwr.
  set (pe := mkProgram (flag_v fe) (negb (flag_nh fe)) false (flag_ss fe)
               in_png data_path out_png (flag_k fe)).
  set (pd := mkProgram (flag_v fd) (negb (flag_nh fd)) true (flag_ss fd)
               out_png out_data "" (flag_k fd)).
  assert (Epe : ProgramFromArgs fe = Some pe)
    by (unfold ProgramFromArgs; by rewrite Hde, Hae).
  assert (Epd : ProgramFromArgs fd = Some pd)
    by (unfold ProgramFromArgs; by rewrite Hdd, Had).
  destruct (encode_then_decode_plain pe pd i0 (Ext data_path) data Hwf Hb)
    as (i1 & Henc & Hwf1 & Hdecode); try assumption.
  - unfold pe. cbn [keyFile]. by rewrite Hke.
  - unfold pd. cbn [keyFile]. by rewrite Hkd.
  - unfold pe, pd. cbn [doHash]. by rewrite Hnh.
  - destruct (Hpng pe i1 Henc) as (Hok & Hback).
    exists (writeFile fs out_png (fst (pngEncode i1))).
    exists (writeFile
              (writeFile (writeFile fs out_png (fst (pngEncode i1)))
                 out_data []) out_data data).
    split; [|split].
    + unfold main. rewrite Epe. unfold run, runEncode.
      cbn [decode inputImage dataFile outputImage pe].
      rewrite Hin, Hdata, Hdec, Henc, Hc1, Hok. reflexivity.
    + unfold main. rewrite Epd. unfold run, runDecode.
      cbn [decode inputImage dataFile outputImage pd].
      rewrite writeFile_same, Hc2. cbv zeta.
      rewrite (writeFile_other _ out_data [] out_png Hne), writeFile_same.
      rewrite Hback, Hdecode. cbv zeta. rewrite Hwr. cbn [fst snd].
      by rewrite firstn_all.
    + apply writeFile_same.
Qed.

Lemma command_line_round_trip_witness :
  exists fs1 fs2,
    main (RS := lcg) (CR := toy_crypto) (CD := toy_codec)
      flags_encode sample_files = (fs1, Ok 0) /\
    main (RS := lcg) (CR := toy_crypto) (CD := toy_codec)
      flags_decode fs1 = (fs2, Ok 0) /\
    fs2 "copy.bin"%string = Some [72; 105; 33].
Proof.
  apply (command_line_round_trip (RS := lcg) (CR := toy_crypto)
           (CD := toy_codec) flags_encode flags_decode sample_files
           "in.png"%string "data.bin"%string "out.png"%string
           "copy.bin"%string
           (toy_encode (img_n 110 7)) [72; 105; 33] (img_n 110 7));
    try reflexivity.
  - apply (wf_img_n 110 7); lia.
  - vm_compute. discriminate.
  - vm_compute. discriminate.
  - discriminate.
  - intros p i1 _. apply toy_codec_reads_back.
Defined.

(** X28. What a plain encode leaves in the image.  For a supported
    carrier and a payload shorter than 2^32 bytes (the empty one
    included) with len(payload) + 36 within the capacity, the encode
    without a key file succeeds and the hidden bytes of the image it
    returns are, in this order: the payload;
    the hidden bytes the carrier had from offset len(payload) up to
    capacity - 36, untouched; the length of the payload on four bytes,
    most significant first; and 32 bytes that are the SHA-256 of the
    payload with hashing and the carrier's own last 32 hidden bytes
    without.  With a seed the image holds the four-round shuffle of that
    whole buffer, length and hash included. *)
Theorem plain_layout `{RS : RandSource} `{CR : Crypto}
    (p : Program) (i0 : Image) (ext : string) (data : list Z) :
  wf_image i0 -> bytes_ok data = true -> nonempty (keyFile p) = false ->
  len data < 2 ^ 32 -> len data + 36 <= (Dx i0 * Dy i0 * 3) / 8 ->
  exists carrier written i1,
    GetHiddenBytesFromImage i0 = Ok carrier /\
    (let envelope :=
       data
       ++ take (length carrier - 36 - length data) (drop (length data) carrier)
       ++ PutUint32 (len data)
       ++ (if doHash p then sha256.Sum256 data
           else drop (length carrier - 32) carrier) in
     if nonempty (shuffleSeed p) then shuffleRounds (shuffleSeed p) envelope
     else Ok envelope) = Ok written /\
    encodeImage p i0 ext data = Ok i1 /\
    GetHiddenBytesFromImage i1 = Ok written.
Proof.
  intros Hwf Hd Hk Hsz Hfit.
  destruct (encodeImage_plain p i0 ext data Hwf Hd Hk Hsz Hfit) as
    (carrier & written & i1 & Hget & Hlen & Hw & Henc & _ & _ & _ & Hget1).
  exists carrier, written, i1.
  split; [exact Hget|]. split; [|by split].
  cbv zeta. unfold plainEnvelope in Hw. cbv zeta in Hw.
  assert (H0 : 0 <= len data) by (unfold len; lia).
  replace (Z.to_nat (len carrier - 36 - len data))
    with (length carrier - 36 - length data)%nat in Hw by (unfold len; lia).
  replace (Z.to_nat (len carrier - 32))
    with (length carrier - 32)%nat in Hw by (unfold len; lia).
  exact Hw.
Qed.

Lemma plain_layout_witness :
  exists carrier written i1,
    GetHiddenBytesFromImage (img_n 99 7) = Ok carrier /\
    (let envelope :=
       [65]
       ++ take (length carrier - 36 - length [65]) (drop (length [65]) carrier)
       ++ PutUint32 (len [65])
       ++ (if doHash (plain false "") then sha256.Sum256 [65]
           else drop (length carrier - 32) carrier) in
     if nonempty (shuffleSeed (plain false ""))
     then shuffleRounds (RS := lcg) (shuffleSeed (plain false "")) envelope
     else Ok envelope) = Ok written /\
    encodeImage (RS := lcg) (CR := toy_crypto)
      (plain false "") (img_n 99 7) ".txt" [65] = Ok i1 /\
    GetHiddenBytesFromImage i1 = Ok written.
Proof.
  apply (plain_layout (RS := lcg) (CR := toy_crypto)
           (plain false "") (img_n 99 7) ".txt" [65]);
    try reflexivity.
  apply (wf_img_n 99 7); lia.
Defined.
